(** * stateToHTML: a shallow embedding of [src/stateToHTML.js]

    The markup generator of draft-js-export-html walks the flat block list
    of a content state and emits an indented HTML string.  The development
    below embeds the generator in Rocq, following the source function by
    function, and proves the properties the specification states about it.

    JavaScript data is represented as follows.
    - A JS string is a [string]; every [ascii] stands for one UTF-16 code
      unit in the range 0..255 (so ["160"%char] is the code unit [\xA0]).
    - A JS object whose key order is observable ([Object.keys]) is an
      association list in [Object.keys] order ([jsobj]); a JS object that
      the code only reads with [hasOwnProperty] and [obj[key]] is a
      [gmap string _].
    - [null] and [undefined] are [None].
    - A number that holds an integer is a [Z].  The depth of a block is
      such a number, and the sum that the code computes from it is rounded
      as a double ([JS.add1]); the counters of the generator stay below the
      number of blocks, where the arithmetic is exact.
    - An exception is a [Throw] in the result type [res]. *)

From Stdlib Require Import ZArith Ascii.
From stdpp Require Import base option list strings gmap.

Local Open Scope Z_scope.

(** ** Results of fallible code *)

Inductive error : Type :=
| TypeError    (* property access on undefined, call of undefined *)
| RangeError   (* String.prototype.repeat with a negative count *)
| OutOfFuel.   (* the model's loop bound was exhausted *)

Inductive res (A : Type) : Type :=
| Ok (a : A)
| Throw (e : error).
Arguments Ok {A} a.
Arguments Throw {A} e.

Definition bind {A B} (m : res A) (k : A → res B) : res B :=
  match m with
  | Ok a => k a
  | Throw e => Throw e
  end.

Notation "x ←' m ; k" := (bind m (λ x, k))
  (at level 100, m at next level, right associativity, only parsing).

(** [Array.prototype.map] with a callback that may throw. *)
Fixpoint mapM {A B} (f : A → res B) (l : list A) : res (list B) :=
  match l with
  | [] => Ok []
  | x :: l' => y ←' f x; ys ←' mapM f l'; Ok (y :: ys)
  end.

(** ** JavaScript strings *)

Module JS.

Definition nbsp : ascii := "160"%char.
Definition newline : ascii := "010"%char.
Definition space : ascii := " "%char.
Definition dquote : ascii := "034"%char.

(** [s.length] *)
Definition length (s : string) : nat := String.length s.

(** [s[i]]: [None] is [undefined]. *)
Definition get (s : string) (i : Z) : option ascii :=
  if i <? 0 then None else String.get (Z.to_nat i) s.

(** [s.split(c)] for a separator of one character. *)
Fixpoint split (c : ascii) (s : string) : list string :=
  match s with
  | EmptyString => [EmptyString]
  | String a s' =>
      if decide (a = c) then EmptyString :: split c s'
      else match split c s' with
           | h :: t => String a h :: t
           | [] => [String a EmptyString]
           end
  end.

(** [parts.join(sep)] on an array of strings. *)
Fixpoint join (sep : string) (parts : list string) : string :=
  match parts with
  | [] => ""
  | [x] => x
  | x :: rest => x +:+ sep +:+ join sep rest
  end.

(** [parts.join('')] on an array whose elements may be [null],
    [undefined] or holes, all of which are joined as the empty string. *)
Fixpoint join_opt (parts : list (option string)) : string :=
  match parts with
  | [] => ""
  | Some x :: rest => x +:+ join_opt rest
  | None :: rest => join_opt rest
  end.

(** [s.repeat(n)] for [n >= 0]. *)
Fixpoint repeat (s : string) (n : nat) : string :=
  match n with
  | O => ""
  | S n' => s +:+ repeat s n'
  end.

(** White space and line terminators removed by [trim], among the code
    units 0..255: TAB, LF, VT, FF, CR, SP and NBSP. *)
Definition is_white (c : ascii) : bool :=
  let n := nat_of_ascii c in
  ((9 <=? n)%nat && (n <=? 13)%nat) || (n =? 32)%nat || (n =? 160)%nat.

Fixpoint trimStart (s : string) : string :=
  match s with
  | EmptyString => EmptyString
  | String a s' => if is_white a then trimStart s' else s
  end.

Fixpoint trimEnd (s : string) : string :=
  match s with
  | EmptyString => EmptyString
  | String a s' =>
      match trimEnd s' with
      | EmptyString => if is_white a then EmptyString else String a EmptyString
      | t => String a t
      end
  end.

(** [s.trim()] *)
Definition trim (s : string) : string := trimEnd (trimStart s).

(** [s.toUpperCase()], code unit by code unit.  Among the code units
    0..255 the letters a..z and the Latin-1 letters [\xE0]..[\xFE] (all but
    the division sign [\xF7]) have their upper case 32 places below, and
    the sharp s [\xDF] becomes the two letters SS.  The upper case of the
    micro sign [\xB5] and of [\xFF] are code units above 255, which the
    strings of the model do not hold: an annotation type is taken not to
    contain these two, and [upper] leaves them as they are. *)
Definition upper (c : ascii) : string :=
  let n := nat_of_ascii c in
  if ((97 <=? n)%nat && (n <=? 122)%nat)%bool then String (ascii_of_nat (n - 32)) ""
  else if ((224 <=? n)%nat && (n <=? 254)%nat && negb (n =? 247)%nat)%bool
       then String (ascii_of_nat (n - 32)) ""
  else if (n =? 223)%nat then "SS"
  else String c "".

Fixpoint toUpperCase (s : string) : string :=
  match s with
  | EmptyString => EmptyString
  | String a s' => upper a +:+ toUpperCase s'
  end.

(** A number that holds an integer is the integer; the doubles among the
    integers are those of at most 53 significant bits.  [nearest x] is the
    double nearest to the integer [x], a tie going to the even significand
    (the rounding of every arithmetic operation of the language). *)
Definition nearest (x : Z) : Z :=
  let a := Z.abs x in
  if a <? 2 ^ 53 then x
  else
    let e := Z.log2 a - 52 in
    let q := Z.shiftr a e in
    let r := a - Z.shiftl q e in
    let half := 2 ^ (e - 1) in
    let q := if (half <? r) || ((r =? half) && Z.odd q) then q + 1 else q in
    Z.sgn x * Z.shiftl q e.

(** [n + 1] on a number that holds an integer: exact up to [2 ^ 53], where
    the sum is [n] again. *)
Definition add1 (n : Z) : Z := nearest (n + 1).

End JS.

(** ** The escapers (source lines 425-440) *)

Definition BREAK : string := "<br>".
Definition INDENT : string := "  ".

Definition encodeContent (text : string) : string :=
  let text := JS.join "&amp;" (JS.split "&" text) in
  let text := JS.join "&lt;" (JS.split "<" text) in
  let text := JS.join "&gt;" (JS.split ">" text) in
  let text := JS.join "&nbsp;" (JS.split JS.nbsp text) in
  JS.join (BREAK +:+ String JS.newline "") (JS.split JS.newline text).

Definition encodeAttr (text : string) : string :=
  let text := JS.join "&amp;" (JS.split "&" text) in
  let text := JS.join "&lt;" (JS.split "<" text) in
  let text := JS.join "&gt;" (JS.split ">" text) in
  JS.join "&quot;" (JS.split JS.dquote text).

(** ** JavaScript objects with observable key order *)

(** An object is the list of its own properties in [Object.keys] order:
    array-index keys first, ascending, then the other keys in insertion
    order.  A value is [None] for [null] and [undefined]; a number is
    carried as the string [value + ''] gives, which is the only way the
    generator reads it. *)
Abbreviation jsobj A := (list (string * A)).
Abbreviation jsval := (option string).

Module Obj.
Section Ops.
Context {A : Type}.

Definition is_digit (c : ascii) : bool :=
  let n := nat_of_ascii c in ((48 <=? n)%nat && (n <=? 57)%nat)%bool.

Fixpoint digits_value (s : string) (acc : N) : option N :=
  match s with
  | EmptyString => Some acc
  | String c s' =>
      if is_digit c
      then digits_value s' (acc * 10 + N.of_nat (nat_of_ascii c - 48))%N
      else None
  end.

(** The canonical numeric strings of 0 .. 2^32-2. *)
Definition array_index (k : string) : option N :=
  match k with
  | EmptyString => None
  | String c rest =>
      if decide (c = "0"%char)
      then (if decide (rest = EmptyString) then Some 0%N else None)
      else match digits_value k 0 with
           | Some n => if (n <? 4294967295)%N then Some n else None
           | None => None
           end
  end.

(** [o.hasOwnProperty(k)] *)
Fixpoint has (k : string) (o : jsobj A) : bool :=
  match o with
  | [] => false
  | (k', _) :: o' => if decide (k' = k) then true else has k o'
  end.

(** [o[k]] for an own property. *)
Fixpoint get (k : string) (o : jsobj A) : option A :=
  match o with
  | [] => None
  | (k', v) :: o' => if decide (k' = k) then Some v else get k o'
  end.

Fixpoint update (k : string) (v : A) (o : jsobj A) : jsobj A :=
  match o with
  | [] => []
  | (k', v') :: o' =>
      if decide (k' = k) then (k', v) :: o' else (k', v') :: update k v o'
  end.

Fixpoint insert_index (n : N) (k : string) (v : A) (o : jsobj A) : jsobj A :=
  match o with
  | [] => [(k, v)]
  | (k', v') :: o' =>
      match array_index k' with
      | Some m => if (m <? n)%N then (k', v') :: insert_index n k v o'
                  else (k, v) :: o
      | None => (k, v) :: o
      end
  end.

(** [o[k] = v] *)
Definition set (k : string) (v : A) (o : jsobj A) : jsobj A :=
  if has k o then update k v o
  else match array_index k with
       | Some n => insert_index n k v o
       | None => o ++ [(k, v)]
       end.

(** [Object.keys(o)] *)
Definition keys (o : jsobj A) : list string := o.*1.
End Ops.
End Obj.

(** ** The attribute serializer (source lines 401-413) *)

Abbreviation Attributes := (jsobj jsval).
Abbreviation StyleDescr := (jsobj jsval).

Definition quote : string := String JS.dquote "".

Definition stringifyAttrs (attrs : option Attributes) : string :=
  match attrs with
  | None => ""
  | Some attrs =>
      let parts :=
        foldl (λ parts name,
                 match Obj.get name attrs with
                 | Some (Some value) =>
                     parts ++ [" " +:+ name +:+ "=" +:+ quote +:+ encodeAttr value +:+ quote]
                 | _ => parts
                 end) [] (Obj.keys attrs) in
      JS.join "" parts
  end.

(** ** The document model read by the generator *)

Module EntityInstance.
Record t : Type := mk { getType : string; getData : jsobj jsval }.
End EntityInstance.

Module CharacterMetadata.
(** [getStyle] is the ordered set of active style names, in its
    iteration order; [getEntity] is the entity key or [null]. *)
Record t : Type := mk { getStyle : list string; getEntity : option string }.
End CharacterMetadata.

Module ContentBlock.
(** [getDepth] is a number that holds an integer (the nesting level of a
    list item). *)
Record t : Type := mk {
  getType : string;
  getText : string;
  getDepth : Z;
  getCharacterList : list CharacterMetadata.t
}.
End ContentBlock.

(** [contentState.getBlocksAsArray()] is all the generator reads of a
    content state. *)
Abbreviation ContentState := (list ContentBlock.t).

Record RenderConfig : Type := mkRenderConfig {
  element : option string;
  attributes : option Attributes;
  style : option StyleDescr
}.

Abbreviation BlockRenderer := (ContentBlock.t → option string).
Abbreviation EntityGetter := (string → option EntityInstance.t).
Abbreviation EntityFormatter := (string → string → jsobj jsval → option string).
Abbreviation EntityAttributesRenderer :=
  (string → EntityInstance.t → option Attributes).
Abbreviation AttrMap := (gmap string string).

Module Options.
(** A field is [None] when the options object has no such property. *)
Record t : Type := mk {
  inlineStyles : option (jsobj RenderConfig);
  blockRenderers : option (gmap string BlockRenderer);
  blockStyleFn : option (ContentBlock.t → option RenderConfig);
  entityGetter : option EntityGetter;
  entityFormatterMap : option (gmap string EntityFormatter);
  entityAttributesMap : option (gmap string AttrMap);
  entityAttributesRendererMap : option (gmap string EntityAttributesRenderer)
}.
(** [{}] *)
Definition empty : t := mk None None None None None None None.
End Options.

(** ** Constants of draft-js-utils *)

(** Modelled from the spec: the constant tables [INLINE_STYLE],
    [BLOCK_TYPE] and [ENTITY_TYPE] are imported from draft-js-utils and are
    not part of the source file; their values are the names the
    specification uses for block types ("unordered-list-item", "atomic",
    header levels 1-6, blockquote, code), for the five inline styles and for
    the [link] and [image] annotation types in canonical upper case. *)
Module INLINE_STYLE.
Definition BOLD : string := "BOLD".
Definition CODE : string := "CODE".
Definition ITALIC : string := "ITALIC".
Definition STRIKETHROUGH : string := "STRIKETHROUGH".
Definition UNDERLINE : string := "UNDERLINE".
End INLINE_STYLE.

Module BLOCK_TYPE.
Definition UNSTYLED : string := "unstyled".
Definition HEADER_ONE : string := "header-one".
Definition HEADER_TWO : string := "header-two".
Definition HEADER_THREE : string := "header-three".
Definition HEADER_FOUR : string := "header-four".
Definition HEADER_FIVE : string := "header-five".
Definition HEADER_SIX : string := "header-six".
Definition UNORDERED_LIST_ITEM : string := "unordered-list-item".
Definition ORDERED_LIST_ITEM : string := "ordered-list-item".
Definition BLOCKQUOTE : string := "blockquote".
Definition CODE : string := "code-block".
Definition ATOMIC : string := "atomic".
End BLOCK_TYPE.

Module ENTITY_TYPE.
Definition LINK : string := "LINK".
Definition IMAGE : string := "IMAGE".
End ENTITY_TYPE.

(** [DATA_ATTRIBUTE.test(k)] for [/^data-([a-z0-9-]+)$/]. *)
Definition data_char (c : ascii) : bool :=
  let n := nat_of_ascii c in
  ((97 <=? n)%nat && (n <=? 122)%nat) || ((48 <=? n)%nat && (n <=? 57)%nat)
  || (n =? 45)%nat.

Fixpoint all_data_chars (s : string) : bool :=
  match s with
  | EmptyString => true
  | String c s' => data_char c && all_data_chars s'
  end.

Definition DATA_ATTRIBUTE_test (k : string) : bool :=
  match k with
  | String "d" (String "a" (String "t" (String "a" (String "-" rest)))) =>
      match rest with
      | EmptyString => false
      | _ => all_data_chars rest
      end
  | _ => false
  end.

(** ** Default tables (source lines 63-85) *)

Definition DEFAULT_STYLE_MAP : gmap string RenderConfig :=
  <[INLINE_STYLE.BOLD := mkRenderConfig (Some "strong") None None]>
  (<[INLINE_STYLE.CODE := mkRenderConfig (Some "code") None None]>
  (<[INLINE_STYLE.ITALIC := mkRenderConfig (Some "em") None None]>
  (<[INLINE_STYLE.STRIKETHROUGH := mkRenderConfig (Some "del") None None]>
  (<[INLINE_STYLE.UNDERLINE := mkRenderConfig (Some "ins") None None]> ∅)))).

(** Order: inner-most style to outer-most. *)
Definition DEFAULT_STYLE_ORDER : list string :=
  [INLINE_STYLE.BOLD; INLINE_STYLE.ITALIC; INLINE_STYLE.UNDERLINE;
   INLINE_STYLE.STRIKETHROUGH; INLINE_STYLE.CODE].

Definition LINK_ATTR_MAP : AttrMap :=
  <["url" := "href"]> (<["rel" := "rel"]> (<["target" := "target"]>
  (<["title" := "title"]> (<["className" := "class"]> ∅)))).

Definition IMAGE_ATTR_MAP : AttrMap :=
  <["src" := "src"]> (<["height" := "height"]> (<["width" := "width"]>
  (<["alt" := "alt"]> (<["className" := "class"]> ∅)))).

Definition link_formatter : EntityFormatter :=
  λ content attrString entityData, Some ("<a" +:+ attrString +:+ ">" +:+ content +:+ "</a>").

Definition image_formatter : EntityFormatter :=
  λ content attrString entityData, Some ("<img" +:+ attrString +:+ "/>").

(** The template literal of line 84 reads [<span$attrString}>]: the dollar
    sign is not followed by a brace, so the text is emitted as written and
    the attribute string is not interpolated. *)
Definition default_formatter : EntityFormatter :=
  λ content attrString entityData, Some ("<span$attrString}>" +:+ content +:+ "</span>").

(** The module-level objects that constructors of [MarkupGenerator] hold
    references to.  They are the only mutable state shared between
    generator instances. *)
Record globals : Type := mkGlobals {
  ENTITY_FORMATTER_MAP : gmap string EntityFormatter;
  ENTITY_ATTR_MAP : gmap string AttrMap
}.

(** The store when the module has just been loaded. *)
Definition initial_globals : globals :=
  {| ENTITY_FORMATTER_MAP :=
       <[ENTITY_TYPE.LINK := link_formatter]>
       (<[ENTITY_TYPE.IMAGE := image_formatter]>
       (<["DEFAULT" := default_formatter]> ∅));
     ENTITY_ATTR_MAP :=
       <[ENTITY_TYPE.LINK := LINK_ATTR_MAP]>
       (<[ENTITY_TYPE.IMAGE := IMAGE_ATTR_MAP]> ∅) |}.

(** [Object.assign(target, source)] on objects read as maps. *)
Definition assign {V} (target source : gmap string V) : gmap string V :=
  source ∪ target.

(** ** Block tags (source lines 108-147, 415-423) *)

Definition getTags (blockType : string) : list string :=
  if decide (blockType = BLOCK_TYPE.HEADER_ONE) then ["h1"]
  else if decide (blockType = BLOCK_TYPE.HEADER_TWO) then ["h2"]
  else if decide (blockType = BLOCK_TYPE.HEADER_THREE) then ["h3"]
  else if decide (blockType = BLOCK_TYPE.HEADER_FOUR) then ["h4"]
  else if decide (blockType = BLOCK_TYPE.HEADER_FIVE) then ["h5"]
  else if decide (blockType = BLOCK_TYPE.HEADER_SIX) then ["h6"]
  else if decide (blockType = BLOCK_TYPE.UNORDERED_LIST_ITEM) then ["li"]
  else if decide (blockType = BLOCK_TYPE.ORDERED_LIST_ITEM) then ["li"]
  else if decide (blockType = BLOCK_TYPE.BLOCKQUOTE) then ["blockquote"]
  else if decide (blockType = BLOCK_TYPE.CODE) then ["pre"; "code"]
  else if decide (blockType = BLOCK_TYPE.ATOMIC) then ["figure"]
  else ["p"].

Definition getWrapperTag (blockType : string) : option string :=
  if decide (blockType = BLOCK_TYPE.UNORDERED_LIST_ITEM) then Some "ul"
  else if decide (blockType = BLOCK_TYPE.ORDERED_LIST_ITEM) then Some "ol"
  else None.

Definition canHaveDepth (blockType : string) : bool :=
  if decide (blockType = BLOCK_TYPE.UNORDERED_LIST_ITEM) then true
  else if decide (blockType = BLOCK_TYPE.ORDERED_LIST_ITEM) then true
  else false.

(** Truthiness of a nullable string: [null], [undefined] and [''] are
    falsy. *)
Definition truthy (s : option string) : bool :=
  match s with
  | Some (String _ _) => true
  | _ => false
  end.

(** ** Entity ranges *)

Definition same_key (a b : option string) : bool := bool_decide (a = b).

(** Two style sets are identical when they have the same members. *)
Definition same_styles (a b : list string) : bool :=
  forallb (λ s, bool_decide (s ∈ b)) a && forallb (λ s, bool_decide (s ∈ a)) b.

(** Maximal runs of consecutive elements with related keys; a run carries
    the key of its first element. *)
Fixpoint runs {A K} (same : K → K → bool) (key : A → K) (l : list A)
  : list (K * list A) :=
  match l with
  | [] => []
  | x :: l' =>
      match runs same key l' with
      | (k, xs) :: rest =>
          if same (key x) k then (key x, x :: xs) :: rest
          else (key x, [x]) :: (k, xs) :: rest
      | [] => [(key x, [x])]
      end
  end.

Definition no_meta : CharacterMetadata.t := CharacterMetadata.mk [] None.

Fixpoint zip_meta (text : string) (metas : list CharacterMetadata.t)
  : list (ascii * CharacterMetadata.t) :=
  match text with
  | EmptyString => []
  | String c text' =>
      match metas with
      | m :: metas' => (c, m) :: zip_meta text' metas'
      | [] => (c, no_meta) :: zip_meta text' []
      end
  end.

Abbreviation StylePiece := (string * list string)%type.
Abbreviation EntityPiece := (option string * list StylePiece)%type.

(** Modelled from the spec: [getEntityRanges] is imported from
    draft-js-utils and is not part of the source file.  Section 3 of the
    specification defines an entity range as a maximal contiguous character
    range sharing the same annotation key (or no key), which may itself
    contain several style runs, and a style run as a maximal contiguous
    character range sharing an identical set of active inline style names.
    A character without metadata has no key and no style. *)
Definition getEntityRanges (text : string) (charMetaList : list CharacterMetadata.t)
  : list EntityPiece :=
  (λ '(entityKey, chars),
     (entityKey,
      (λ '(styleSet, cs), (String.string_of_list_ascii (cs.*1), styleSet))
        <$> runs same_styles (λ cm, CharacterMetadata.getStyle cm.2) chars))
  <$> runs same_key (λ cm, CharacterMetadata.getEntity cm.2) (zip_meta text charMetaList).

(** ** Whitespace preservation (source lines 382-397) *)

Definition is_space (c : option ascii) : bool := bool_decide (c = Some JS.space).

Definition preserveWhitespace (text : string) : string :=
  let length := JS.length text in
  (* new Array(length): an array of holes *)
  let newText : list (option string) := replicate length None in
  let newText :=
    foldl (λ newText (i : nat),
             if is_space (JS.get text (Z.of_nat i))
                && (bool_decide (i = 0%nat)
                    || bool_decide (Z.of_nat i = Z.of_nat length - 1)
                    || is_space (JS.get text (Z.of_nat i - 1)))
             then <[i := Some (String JS.nbsp "")]> newText
             else <[i := (λ c, String c "") <$> JS.get text (Z.of_nat i)]> newText)
          newText (seq 0 length) in
  JS.join_opt newText.

(** ** Output fragments *)

(** [this.output] is an array of strings.  The model keeps, for every
    pushed string, the statement that pushed it; [fragment_string] gives
    the string itself. *)
Inductive fragment : Type :=
| Indent (level : Z)                   (* indent() *)
| WrapperStart (wrapperTag : string)   (* openWrapperTag *)
| WrapperEnd (wrapperTag : string)     (* closeWrapperTag *)
| StartTag (tag attrString : string)   (* writeStartTag, one per tag *)
| EndTags (tags : list string)         (* writeEndTag *)
| Content (html : string)              (* renderBlockContent(block) *)
| CustomOutput (html : string)         (* customRendererOutput *)
| Newline.                             (* '\n' *)

Definition nl : string := String JS.newline "".

Definition fragment_string (f : fragment) : string :=
  match f with
  | Indent level => JS.repeat INDENT (Z.to_nat level)
  | WrapperStart wrapperTag => "<" +:+ wrapperTag +:+ ">" +:+ nl
  | WrapperEnd wrapperTag => "</" +:+ wrapperTag +:+ ">" +:+ nl
  | StartTag tag attrString => "<" +:+ tag +:+ attrString +:+ ">"
  | EndTags [tag] => "</" +:+ tag +:+ ">" +:+ nl
  | EndTags tags =>
      JS.join "" (foldl (λ output tag, ("</" +:+ tag +:+ ">") :: output) [] tags) +:+ nl
  | Content html => html
  | CustomOutput html => html
  | Newline => nl
  end.

(** ** The generator *)

(** An entry of [this.entityAttributesRendererMap]. *)
Inductive AttributesRenderer : Type :=
| DataToAttrDefault                       (* the DEFAULT method built by DATA_TO_ATTR *)
| UserRenderer (f : EntityAttributesRenderer).

(** The fields of a [MarkupGenerator] that the constructor sets.  The
    fields [entityFormatterMap] and [entityAttributesMap] are references to
    the module-level objects, not copies, so they are read from the store
    ([globals]) and have no field here. *)
Record MarkupGenerator : Type := mkGenerator {
  contentState : ContentState;
  options : Options.t;
  entityGetter : EntityGetter;
  entityAttributesRendererMap : gmap string AttributesRenderer;
  inlineStyles : gmap string RenderConfig;
  styleOrder : list string
}.

(** The fields that [generate] resets and the block walk mutates. *)
Record state : Type := mkState {
  output : list fragment;
  currentBlock : nat;
  indentLevel : Z;
  wrapperTag : option string
}.

Definition push (f : fragment) (st : state) : state :=
  mkState (output st ++ [f]) (currentBlock st) (indentLevel st) (wrapperTag st).
Definition set_wrapperTag (w : option string) (st : state) : state :=
  mkState (output st) (currentBlock st) (indentLevel st) w.
Definition set_indentLevel (n : Z) (st : state) : state :=
  mkState (output st) (currentBlock st) n (wrapperTag st).
Definition set_currentBlock (n : nat) (st : state) : state :=
  mkState (output st) n (indentLevel st) (wrapperTag st).

Section Generator.

(** The helper [styleToCSS] and the global entity registry [Entity.get]
    of draft-js are not part of the source file; they are parameters. *)
Variable styleToCSS : StyleDescr → string.
Variable Entity_get : EntityGetter.
(** The table of attribute names that [normalizeAttributes] renames. *)
Variable ATTR_NAME_MAP : gmap string string.

(** Modelled from the spec: the helper [normalizeAttributes] is not part
    of the source file.  Section 2 of the specification: attribute-name
    normalization, a DOM-style property name maps to its markup attribute
    name; the callers (source lines 282-285, 355-358) test its result for
    [null], which it gives for a [null] argument. *)
Definition normalizeAttributes (attributes : option Attributes) : option Attributes :=
  (λ attrs,
     foldl (λ normalized '(name, value),
              Obj.set (default name (ATTR_NAME_MAP !! name)) value normalized)
           [] attrs) <$> attributes.

(** Modelled from the spec: the helper [combineOrderedStyles] is not part
    of the source file.  Section 6 of the specification: the caller's
    table is merged over the defaults, caller entries take precedence, and
    the caller's style names are appended to the order after the defaults
    unless already present. *)
Definition combineOrderedStyles (customMap : option (jsobj RenderConfig))
    (defaults : gmap string RenderConfig * list string)
  : gmap string RenderConfig * list string :=
  match customMap with
  | None => defaults
  | Some customMap =>
      foldl (λ '(styleMap, styleOrder) '(styleName, config),
               (<[styleName := config]> styleMap,
                if bool_decide (styleName ∈ styleOrder) then styleOrder
                else styleOrder ++ [styleName]))
            defaults customMap
  end.

(** The method [DEFAULT] of the object [DATA_TO_ATTR] returns (source
    lines 90-104); [entityAttributesMap] is the object the closure
    captured, read when the method runs. *)
Definition DATA_TO_ATTR_DEFAULT (entityAttributesMap : gmap string AttrMap)
    (entityType : string) (entity : EntityInstance.t) : Attributes :=
  let attrMap := default ∅ (entityAttributesMap !! entityType) in
  let data := EntityInstance.getData entity in
  foldl (λ attrs dataKey,
           let dataValue := default None (Obj.get dataKey data) in
           match attrMap !! dataKey with
           | Some attrKey => Obj.set attrKey dataValue attrs
           | None =>
               if DATA_ATTRIBUTE_test dataKey then Obj.set dataKey dataValue attrs
               else attrs
           end)
        [] (Obj.keys data).

Definition run_renderer (g : globals) (r : AttributesRenderer)
    (entityType : string) (entity : EntityInstance.t) : option Attributes :=
  match r with
  | DataToAttrDefault => Some (DATA_TO_ATTR_DEFAULT (ENTITY_ATTR_MAP g) entityType entity)
  | UserRenderer f => f entityType entity
  end.

(** [new MarkupGenerator(contentState, options)] (source lines 167-194):
    the store after the constructor and the new instance. *)
Definition constructor (g : globals) (contentState : ContentState)
    (options : option Options.t) : globals * MarkupGenerator :=
  let options := default Options.empty options in
  let entityAttributesRendererMap : gmap string AttributesRenderer :=
    {["DEFAULT" := DataToAttrDefault]} in
  (* Object.assign(this[key], options[key]) for the three keys *)
  let formatters :=
    match Options.entityFormatterMap options with
    | Some m => assign (ENTITY_FORMATTER_MAP g) m
    | None => ENTITY_FORMATTER_MAP g
    end in
  let attrMaps :=
    match Options.entityAttributesMap options with
    | Some m => assign (ENTITY_ATTR_MAP g) m
    | None => ENTITY_ATTR_MAP g
    end in
  let entityAttributesRendererMap :=
    match Options.entityAttributesRendererMap options with
    | Some m => assign entityAttributesRendererMap (UserRenderer <$> m)
    | None => entityAttributesRendererMap
    end in
  let entityGetter := default Entity_get (Options.entityGetter options) in
  let '(inlineStyles, styleOrder) :=
    combineOrderedStyles (Options.inlineStyles options)
      (DEFAULT_STYLE_MAP, DEFAULT_STYLE_ORDER) in
  (mkGlobals formatters attrMaps,
   mkGenerator contentState options entityGetter entityAttributesRendererMap
     inlineStyles styleOrder).

(** The attribute string of a render configuration (source lines 282-287
    and, with the same statements, 355-360). *)
Definition configAttrString (attributes : option Attributes)
    (style : option StyleDescr) : string :=
  let attributes := normalizeAttributes attributes in
  let attributes :=
    match style with
    | Some style =>
        let styleAttr := styleToCSS style in
        match attributes with
        | None => Some [("style", Some styleAttr)]
        | Some attributes => Some (Obj.set "style" (Some styleAttr) attributes)
        end
    | None => attributes
    end in
  stringifyAttrs attributes.

Section Instance.
Variable g : globals.
Variable this : MarkupGenerator.

Definition blocks : list ContentBlock.t := contentState this.
Definition totalBlocks : nat := length blocks.

(** The callback of [stylePieces.map] (source lines 342-365). *)
Definition renderStylePiece (blockType : string) (piece : StylePiece) : res string :=
  let '(text, styleSet) := piece in
  foldl (λ (acc : res string) styleName,
           content ←' acc;
           if bool_decide (styleName = INLINE_STYLE.CODE)
              && bool_decide (blockType = BLOCK_TYPE.CODE)
           then Ok content
           else if bool_decide (styleName ∈ styleSet) then
             match inlineStyles this !! styleName with
             | None => Throw TypeError
             | Some config =>
                 let element := default "span" (element config) in
                 let attrString := configAttrString (attributes config) (style config) in
                 Ok ("<" +:+ element +:+ attrString +:+ ">" +:+ content
                     +:+ "</" +:+ element +:+ ">")
             end
           else Ok content)
        (Ok (encodeContent text)) (styleOrder this).

(** The callback of [entityPieces.map] (source lines 341-379). *)
Definition renderEntityPiece (blockType : string) (piece : EntityPiece)
  : res (option string) :=
  let '(entityKey, stylePieces) := piece in
  contents ←' mapM (renderStylePiece blockType) stylePieces;
  let content := JS.join "" contents in
  let entity :=
    if truthy entityKey then entityGetter this (default "" entityKey) else None in
  let entityType :=
    (λ e, JS.toUpperCase (EntityInstance.getType e)) <$> entity in
  if negb (match entityType with
           | Some entityType =>
               bool_decide (is_Some (ENTITY_FORMATTER_MAP g !! entityType))
           | None => false
           end)
  then Ok (Some content)
  else
    match entity, entityType with
    | Some entity, Some entityType =>
        attrs ←' match entityAttributesRendererMap this !! entityType with
                 | Some r => Ok (run_renderer g r entityType entity)
                 | None =>
                     match entityAttributesRendererMap this !! "DEFAULT" with
                     | Some r => Ok (run_renderer g r entityType entity)
                     | None => Throw TypeError
                     end
                 end;
        match ENTITY_FORMATTER_MAP g !! entityType with
        | Some formatter =>
            Ok (formatter content (stringifyAttrs attrs) (EntityInstance.getData entity))
        | None =>
            match ENTITY_FORMATTER_MAP g !! "DEFAULT" with
            | Some formatter =>
                Ok (formatter content (stringifyAttrs attrs)
                      (EntityInstance.getData entity))
            | None => Throw TypeError
            end
        end
    | _, _ => Throw TypeError
    end.

(** Source lines 331-380. *)
Definition renderBlockContent (block : ContentBlock.t) : res string :=
  let blockType := ContentBlock.getType block in
  let text := ContentBlock.getText block in
  if decide (text = "") then Ok BREAK
  else
    let text := preserveWhitespace text in
    let charMetaList := ContentBlock.getCharacterList block in
    let entityPieces := getEntityRanges text charMetaList in
    pieces ←' mapM (renderEntityPiece blockType) entityPieces;
    Ok (JS.join_opt pieces).


(** *** The block walk (source lines 196-329) *)

Definition indent (st : state) : res state :=
  if indentLevel st <? 0 then Throw RangeError
  else Ok (push (Indent (indentLevel st)) st).

Definition openWrapperTag (wrapperTag : string) (st : state) : res state :=
  let st := set_wrapperTag (Some wrapperTag) st in
  st ←' indent st;
  let st := push (WrapperStart wrapperTag) st in
  Ok (set_indentLevel (indentLevel st + 1) st).

Definition closeWrapperTag (st : state) : res state :=
  let wrapperTag := wrapperTag st in
  if truthy wrapperTag then
    let st := set_indentLevel (indentLevel st - 1) st in
    st ←' indent st;
    let st := push (WrapperEnd (default "" wrapperTag)) st in
    Ok (set_wrapperTag None st)
  else Ok st.

Definition writeStartTag (block : ContentBlock.t) (st : state) : state :=
  let tags := getTags (ContentBlock.getType block) in
  let attrString :=
    match Options.blockStyleFn (options this) with
    | Some blockStyleFn =>
        let config := default (mkRenderConfig None None None) (blockStyleFn block) in
        configAttrString (attributes config) (style config)
    | None => ""
    end in
  foldl (λ st tag, push (StartTag tag attrString) st) st tags.

Definition writeEndTag (block : ContentBlock.t) (st : state) : state :=
  push (EndTags (getTags (ContentBlock.getType block))) st.

Definition getNextBlock (st : state) : option ContentBlock.t :=
  blocks !! (currentBlock st + 1)%nat.

(** The body of [processBlock] (source lines 210-260); the call
    [this.processBlocksAtDepth(depth)] of line 252 is the parameter
    [processBlocksAtDepth]. *)
Definition processBlock_body (processBlocksAtDepth : Z → state → res state)
    (st : state) : res state :=
  match blocks !! currentBlock st with
  | None => Throw TypeError
  | Some block =>
      let blockRenderers := Options.blockRenderers (options this) in
      let blockType := ContentBlock.getType block in
      let newWrapperTag := getWrapperTag blockType in
      st ←' (if bool_decide (wrapperTag st ≠ newWrapperTag) then
               st ←' (if truthy (wrapperTag st) then closeWrapperTag st else Ok st);
               if truthy newWrapperTag
               then openWrapperTag (default "" newWrapperTag) st
               else Ok st
             else Ok st);
      st ←' indent st;
      let customRenderer := blockRenderers ≫= (λ m, m !! blockType) in
      let customRendererOutput := customRenderer ≫= (λ r, r block) in
      match customRendererOutput with
      | Some customRendererOutput =>
          let st := push (CustomOutput customRendererOutput) st in
          let st := push Newline st in
          Ok (set_currentBlock (currentBlock st + 1) st)
      | None =>
          let st := writeStartTag block st in
          content ←' renderBlockContent block;
          let st := push (Content content) st in
          let nextBlock := getNextBlock st in
          st ←' match nextBlock with
                | Some nextBlock =>
                    if canHaveDepth blockType
                       && (ContentBlock.getDepth nextBlock
                           =? JS.add1 (ContentBlock.getDepth block))
                    then
                      let st := push Newline st in
                      let thisWrapperTag := wrapperTag st in
                      let st := set_wrapperTag None st in
                      let st := set_indentLevel (indentLevel st + 1) st in
                      let st := set_currentBlock (currentBlock st + 1) st in
                      st ←' processBlocksAtDepth (ContentBlock.getDepth nextBlock) st;
                      let st := set_wrapperTag thisWrapperTag st in
                      let st := set_indentLevel (indentLevel st - 1) st in
                      indent st
                    else Ok (set_currentBlock (currentBlock st + 1) st)
                | None => Ok (set_currentBlock (currentBlock st + 1) st)
                end;
          Ok (writeEndTag block st)
      end
  end.

(** [processBlock] and the loop of [processBlocksAtDepth] (source
    lines 262-269) call each other; [fuel] bounds the depth of the
    calls. *)
Fixpoint processBlock (fuel : nat) (st : state) {struct fuel} : res state :=
  match fuel with
  | O => Throw OutOfFuel
  | S fuel => processBlock_body (processBlocksAtDepth fuel) st
  end
with processBlocksAtDepth (fuel : nat) (depth : Z) (st : state) {struct fuel}
  : res state :=
  match fuel with
  | O => Throw OutOfFuel
  | S fuel =>
      match blocks !! currentBlock st with
      | Some block =>
          if ContentBlock.getDepth block =? depth then
            st ←' processBlock fuel st;
            processBlocksAtDepth fuel depth st
          else closeWrapperTag st
      | None => closeWrapperTag st
      end
  end.

(** The loop of [generate]. *)
Fixpoint generate_loop (fuel : nat) (st : state) : res state :=
  match fuel with
  | O => Throw OutOfFuel
  | S fuel =>
      if (currentBlock st <? totalBlocks)%nat then
        st ←' processBlock fuel st;
        generate_loop fuel st
      else Ok st
  end.

Definition initial_state : state := mkState [] 0 0 None.

(** The generator state when [generate] is about to return. *)
Definition generate_state : res state :=
  st ←' generate_loop (2 * totalBlocks + 1) initial_state;
  closeWrapperTag st.

Definition generate : res string :=
  st ←' generate_state;
  Ok (JS.trim (JS.join "" (fragment_string <$> output st))).

End Instance.

(** Source lines 442-444: the store after the call and the result. *)
Definition stateToHTML (g : globals) (content : ContentState)
    (options : option Options.t) : globals * res string :=
  let '(g, generator) := constructor g content options in
  (g, generate g generator).

End Generator.

(** * Vocabulary of the properties *)

(** Character-wise substitution: every character is replaced by its own
    image, and the images are concatenated. *)
Fixpoint escape (f : ascii → string) (s : string) : string :=
  match s with
  | EmptyString => EmptyString
  | String c s' => f c +:+ escape f s'
  end.

Definition replace_char (c : ascii) (r : string) : ascii → string :=
  λ a, if decide (a = c) then r else String a "".

(** What one pass of the content escaper does to one character. *)
Definition content_entity (c : ascii) : string :=
  if decide (c = "&"%char) then "&amp;"
  else if decide (c = "<"%char) then "&lt;"
  else if decide (c = ">"%char) then "&gt;"
  else if decide (c = JS.nbsp) then "&nbsp;"
  else if decide (c = JS.newline) then BREAK +:+ nl
  else String c "".

Definition attr_entity (c : ascii) : string :=
  if decide (c = "&"%char) then "&amp;"
  else if decide (c = "<"%char) then "&lt;"
  else if decide (c = ">"%char) then "&gt;"
  else if decide (c = JS.dquote) then "&quot;"
  else String c "".

(** The slot [i] of [newText] after the loop of [preserveWhitespace]. *)
Definition preserved_slot (text : string) (i : nat) : option string :=
  if is_space (JS.get text (Z.of_nat i))
     && (bool_decide (i = 0%nat)
         || bool_decide (Z.of_nat i = Z.of_nat (JS.length text) - 1)
         || is_space (JS.get text (Z.of_nat i - 1)))
  then Some (String JS.nbsp "")
  else (λ c, String c "") <$> JS.get text (Z.of_nat i).

(** The character that [preserveWhitespace] leaves at index [i], where the
    text has [c]. *)
Definition preserved_char (text : string) (i : nat) (c : ascii) : ascii :=
  if bool_decide (c = JS.space)
     && (bool_decide (i = 0%nat)
         || bool_decide (S i = String.length text)
         || match i with
            | O => false
            | S j => bool_decide (String.get j text = Some JS.space)
            end)
  then JS.nbsp else c.

(** The result of [preserveWhitespace], character by character. *)
Definition preserved_chars (text : string) : list ascii :=
  (λ i, preserved_char text i (default JS.space (String.get i text)))
    <$> seq 0 (String.length text).

(** [content] inside the element, when the style is active. *)
Definition wrap_if (active : bool) (element content : string) : string :=
  if active then "<" +:+ element +:+ ">" +:+ content +:+ "</" +:+ element +:+ ">"
  else content.

(** The attribute that the default resolution writes for a data key. *)
Definition attr_target (attrMap : AttrMap) (dataKey : string) : option string :=
  match attrMap !! dataKey with
  | Some attrKey => Some attrKey
  | None => if DATA_ATTRIBUTE_test dataKey then Some dataKey else None
  end.

(** The entity of a range: [entityKey ? this.entityGetter(entityKey) : null]. *)
Definition resolve (this : MarkupGenerator) (entityKey : option string)
  : option EntityInstance.t :=
  if truthy entityKey then entityGetter this (default "" entityKey) else None.

(** The attribute renderer of a type: its own, or else [DEFAULT]. *)
Definition attrs_renderer (this : MarkupGenerator) (entityType : string)
  : option AttributesRenderer :=
  match entityAttributesRendererMap this !! entityType with
  | Some r => Some r
  | None => entityAttributesRendererMap this !! "DEFAULT"
  end.

(** The store after [Object.assign(ENTITY_FORMATTER_MAP, {DEFAULT: f})]. *)
Definition override_default (f : EntityFormatter) (g : globals) : globals :=
  mkGlobals (assign (ENTITY_FORMATTER_MAP g) {["DEFAULT" := f]}) (ENTITY_ATTR_MAP g).

(** What [renderEntityPiece] does, without the branch that reads the
    [DEFAULT] formatter. *)
Definition entity_markup (g : globals) (this : MarkupGenerator) (entityKey : option string)
    (content : string) : res (option string) :=
  match resolve this entityKey with
  | None => Ok (Some content)
  | Some entity =>
      let entityType := JS.toUpperCase (EntityInstance.getType entity) in
      match ENTITY_FORMATTER_MAP g !! entityType with
      | None => Ok (Some content)
      | Some formatter =>
          match attrs_renderer this entityType with
          | Some r =>
              Ok (formatter content
                    (stringifyAttrs (run_renderer g r entityType entity))
                    (EntityInstance.getData entity))
          | None => Throw TypeError
          end
      end
  end.

(** What the constructor guarantees about the instance: every style name
    of the order has a render configuration, and the attribute renderers
    have a [DEFAULT] entry. *)
Definition generator_ok (this : MarkupGenerator) : Prop :=
  (∀ styleName, styleName ∈ styleOrder this → is_Some (inlineStyles this !! styleName))
  ∧ is_Some (entityAttributesRendererMap this !! "DEFAULT").

Inductive tag_kind : Type := WrapperTag | ElementTag.

Global Instance tag_kind_eq_dec : EqDecision tag_kind.
Proof. solve_decision. Defined.

(** Closing tags against the stack of open tags, innermost first. *)
Fixpoint close_tags (kind : tag_kind) (tags : list string)
    (stack : list (tag_kind * string)) : option (list (tag_kind * string)) :=
  match tags with
  | [] => Some stack
  | tag :: tags' =>
      match stack with
      | top :: stack' =>
          if decide (top = (kind, tag)) then close_tags kind tags' stack' else None
      | [] => None
      end
  end.

(** The effect of one pushed fragment on the stack of open tags.  Wrapper
    tags are always tracked, the tags of blocks when [elements] is set;
    [None] means an end tag without its start tag. *)
Definition track (elements : bool) (f : fragment) (stack : list (tag_kind * string))
  : option (list (tag_kind * string)) :=
  match f with
  | WrapperStart w => Some ((WrapperTag, w) :: stack)
  | WrapperEnd w => close_tags WrapperTag [w] stack
  | StartTag tag _ => if elements then Some ((ElementTag, tag) :: stack) else Some stack
  | EndTags tags => if elements then close_tags ElementTag (reverse tags) stack else Some stack
  | _ => Some stack
  end.

(** The tags left open by an output, read from its start. *)
Fixpoint open_tags (elements : bool) (out : list fragment)
    (stack : list (tag_kind * string)) : option (list (tag_kind * string)) :=
  match out with
  | [] => Some stack
  | f :: out' => track elements f stack ≫= open_tags elements out'
  end.

(** Every start tag of the output has its end tag, properly nested. *)
Definition balanced (elements : bool) (out : list fragment) : Prop :=
  open_tags elements out [] = Some [].

Definition wrapper_stack (w : option string) : list (tag_kind * string) :=
  match w with
  | Some w => [(WrapperTag, w)]
  | None => []
  end.

Definition element_stack (elements : bool) (tags : list string)
  : list (tag_kind * string) :=
  if elements then (λ tag, (ElementTag, tag)) <$> reverse tags else [].

(** What holds of the generator state between two blocks of one nesting
    level: [stack] are the tags opened by the enclosing levels and [base]
    is the indentation of the level. *)
Record level_inv (elements : bool) (stack : list (tag_kind * string)) (base : Z)
    (st : state) : Prop := {
  inv_wrapper : wrapperTag st = None ∨ wrapperTag st = Some "ul" ∨ wrapperTag st = Some "ol";
  inv_indent : indentLevel st = base + (if bool_decide (is_Some (wrapperTag st)) then 1 else 0);
  inv_base : 0 ≤ base;
  inv_open : open_tags elements (output st) [] = Some (wrapper_stack (wrapperTag st) ++ stack)
}.

(** The first statements of [processBlock]: the wrapper of the state
    becomes the wrapper of the block type. *)
Definition switch_wrapper (newWrapperTag : option string) (st : state) : res state :=
  if bool_decide (wrapperTag st ≠ newWrapperTag) then
    st ←' (if truthy (wrapperTag st) then closeWrapperTag st else Ok st);
    if truthy newWrapperTag
    then openWrapperTag (default "" newWrapperTag) st
    else Ok st
  else Ok st.

(** Whether the next block is rendered inside the block (source lines
    240-244). *)
Definition nests (block : ContentBlock.t) (nextBlock : option ContentBlock.t) : bool :=
  match nextBlock with
  | Some nextBlock =>
      canHaveDepth (ContentBlock.getType block)
      && (ContentBlock.getDepth nextBlock =? JS.add1 (ContentBlock.getDepth block))
  | None => false
  end.

(** The first character is not white space. *)
Definition head_nonwhite (s : string) : bool :=
  match s with
  | String a _ => negb (JS.is_white a)
  | EmptyString => false
  end.

(** A space that [preserveWhitespace] must replace: the first character,
    the last character, or a space that follows a space. *)
Definition boundary_or_repeated_space (text : string) (i : nat) : Prop :=
  String.get i text = Some JS.space
  ∧ (i = 0%nat ∨ S i = String.length text
     ∨ ∃ j, i = S j ∧ String.get j text = Some JS.space).

(** ** Documents used in examples *)

(** A block without styles and entities. *)
Definition plain_block (blockType text : string) (depth : Z) : ContentBlock.t :=
  ContentBlock.mk blockType text depth (replicate (String.length text) no_meta).

(** A block whose characters all carry the style set and the entity key. *)
Definition uniform_block (blockType text : string) (styleSet : list string)
    (entityKey : option string) : ContentBlock.t :=
  ContentBlock.mk blockType text 0
    (replicate (String.length text) (CharacterMetadata.mk styleSet entityKey)).

(** An entity registry with one entity, under the key ["1"]. *)
Definition registry (entityType : string) (data : jsobj jsval) : EntityGetter :=
  λ key, if decide (key = "1") then Some (EntityInstance.mk entityType data) else None.

(** Options with an [entityFormatterMap] only. *)
Definition formatter_options (m : gmap string EntityFormatter) : Options.t :=
  Options.mk None None None None (Some m) None None.

Definition bracket_formatter : EntityFormatter :=
  λ content attrString entityData, Some ("[" +:+ content +:+ "]").

Definition no_css : StyleDescr → string := λ _, "".

(** ** The nested list of three items *)

Definition nested_list_output (c0 c1 c2 : string) : list fragment :=
  [Indent 0; WrapperStart "ul";
   Indent 1; StartTag "li" ""; Content c0; Newline;
   Indent 2; WrapperStart "ul";
   Indent 3; StartTag "li" ""; Content c1; EndTags ["li"];
   Indent 3; StartTag "li" ""; Content c2; EndTags ["li"];
   Indent 2; WrapperEnd "ul";
   Indent 1; EndTags ["li"];
   Indent 0; WrapperEnd "ul"].

Definition nested_list_markup (c0 c1 c2 : string) : string :=
  "<ul>" +:+ nl +:+
  "  <li>" +:+ c0 +:+ nl +:+
  "    <ul>" +:+ nl +:+
  "      <li>" +:+ c1 +:+ "</li>" +:+ nl +:+
  "      <li>" +:+ c2 +:+ "</li>" +:+ nl +:+
  "    </ul>" +:+ nl +:+
  "  </li>" +:+ nl +:+
  "</ul>".

(** ** The states of the walk *)

(** The wrapper tags that the output leaves open are the one of the field
    [wrapperTag], or none when the field is [null]. *)
Definition open_wrapper_recorded (st : state) : Prop :=
  open_tags false (output st) [] = Some (wrapper_stack (wrapperTag st)).

(** The wrapper tags that the output leaves open in the state of a call of
    [processBlock] that [level] calls of [processBlock] enclose: the tag of
    the field [wrapperTag], unless it is [null], then one tag for each
    enclosing call. *)
Definition wrappers_open_at (level : nat) (st : state) : Prop :=
  ∃ enclosing,
    length enclosing = level
    ∧ open_tags false (output st) [] = Some (wrapper_stack (wrapperTag st) ++ enclosing).

Section Vocabulary.
Context (styleToCSS : StyleDescr → string) (ATTR_NAME_MAP : gmap string string).
Context (g : globals) (this : MarkupGenerator).

(** The attribute string of the start tags of a block. *)
Definition blockAttrString (block : ContentBlock.t) : string :=
  match Options.blockStyleFn (options this) with
  | Some blockStyleFn =>
      let config := default (mkRenderConfig None None None) (blockStyleFn block) in
      configAttrString styleToCSS ATTR_NAME_MAP (attributes config) (style config)
  | None => ""
  end.

(** The start tags of a block, as pushed by [writeStartTag]. *)
Definition start_tags (block : ContentBlock.t) : list fragment :=
  (λ tag, StartTag tag (blockAttrString block)) <$> getTags (ContentBlock.getType block).

(** The markup of a custom renderer for the block, if any. *)
Definition customOutput (block : ContentBlock.t) : option string :=
  (Options.blockRenderers (options this) ≫= (λ m, m !! ContentBlock.getType block))
  ≫= (λ r, r block).

(** The states in which the condition of the loop of [generate] is
    evaluated, in order. *)
Fixpoint generate_states (fuel : nat) (st : state) : list state :=
  st :: match fuel with
        | O => []
        | S fuel =>
            if (currentBlock st <? totalBlocks this)%nat then
              match processBlock styleToCSS ATTR_NAME_MAP g this fuel st with
              | Ok st' => generate_states fuel st'
              | Throw _ => []
              end
            else []
        end.

(** The call [this.processBlocksAtDepth(depth)] that [processBlock] makes
    when it is called in a state (source lines 211-252): the depth and the
    state of the call, or [None] when [processBlock] makes no such call. *)
Definition nested_call (st : state) : res (option (Z * state)) :=
  match blocks this !! currentBlock st with
  | None => Throw TypeError
  | Some block =>
      st ←' switch_wrapper (getWrapperTag (ContentBlock.getType block)) st;
      st ←' indent st;
      match customOutput block with
      | Some _ => Ok None
      | None =>
          let st := writeStartTag styleToCSS ATTR_NAME_MAP this block st in
          content ←' renderBlockContent styleToCSS ATTR_NAME_MAP g this block;
          let st := push (Content content) st in
          match getNextBlock this st with
          | Some nextBlock =>
              if nests block (Some nextBlock) then
                let st := push Newline st in
                let st := set_wrapperTag None st in
                let st := set_indentLevel (indentLevel st + 1) st in
                let st := set_currentBlock (currentBlock st + 1) st in
                Ok (Some (ContentBlock.getDepth nextBlock, st))
              else Ok None
          | None => Ok None
          end
      end
  end.

(** The calls of [processBlock] made while [processBlock] runs in a state,
    the call itself first, and those made while [processBlocksAtDepth]
    runs: the state of each call with the number of calls of [processBlock]
    that enclose it.  The fuel is that of the functions. *)
Fixpoint processBlock_calls (fuel : nat) (level : nat) (st : state) {struct fuel}
  : list (nat * state) :=
  match fuel with
  | O => []
  | S fuel =>
      (level, st)
      :: match nested_call st with
         | Ok (Some (depth, st')) => processBlocksAtDepth_calls fuel (S level) depth st'
         | _ => []
         end
  end
with processBlocksAtDepth_calls (fuel : nat) (level : nat) (depth : Z) (st : state)
    {struct fuel} : list (nat * state) :=
  match fuel with
  | O => []
  | S fuel =>
      match blocks this !! currentBlock st with
      | Some block =>
          if ContentBlock.getDepth block =? depth then
            processBlock_calls fuel level st
            ++ match processBlock styleToCSS ATTR_NAME_MAP g this fuel st with
               | Ok st' => processBlocksAtDepth_calls fuel level depth st'
               | Throw _ => []
               end
          else []
      | None => []
      end
  end.

(** The calls of [processBlock] made by the loop of [generate] and by the
    calls it makes. *)
Fixpoint generate_calls (fuel : nat) (st : state) : list (nat * state) :=
  match fuel with
  | O => []
  | S fuel =>
      if (currentBlock st <? totalBlocks this)%nat then
        processBlock_calls fuel 0 st
        ++ match processBlock styleToCSS ATTR_NAME_MAP g this fuel st with
           | Ok st' => generate_calls fuel st'
           | Throw _ => []
           end
      else []
  end.
End Vocabulary.

(** The options with the entry [DEFAULT] of [entityFormatterMap] set to
    the formatter [f]. *)
Definition with_default_formatter (f : EntityFormatter) (options : option Options.t)
  : Options.t :=
  let o := default Options.empty options in
  Options.mk (Options.inlineStyles o) (Options.blockRenderers o) (Options.blockStyleFn o)
    (Options.entityGetter o)
    (Some (<["DEFAULT" := f]> (default ∅ (Options.entityFormatterMap o))))
    (Options.entityAttributesMap o) (Options.entityAttributesRendererMap o).

(** ** Statements that the code does not satisfy *)

(** At every call of [processBlock] during [generate], the wrapper tags
    that the output leaves open are the one of the field [wrapperTag], or
    none when the field is [null]. *)
Definition open_wrapper_always_recorded : Prop :=
  ∀ (Entity_get : EntityGetter) (document : ContentState) (options : option Options.t),
    let gen := constructor Entity_get initial_globals document options in
    Forall (λ c, open_wrapper_recorded c.2)
      (generate_calls no_css ∅ gen.1 gen.2 (2 * totalBlocks gen.2 + 1) initial_state).

(** A range whose entity has a type without a formatter is wrapped in a
    span by the default formatter. *)
Definition unregistered_type_gets_span : Prop :=
  ∀ (g : globals) (this : MarkupGenerator) (blockType : string)
    (entityKey : option string) (stylePieces : list StylePiece)
    (entity : EntityInstance.t),
    resolve this entityKey = Some entity →
    ENTITY_FORMATTER_MAP g !! JS.toUpperCase (EntityInstance.getType entity) = None →
    ∃ attrString content,
      renderEntityPiece no_css ∅ g this blockType (entityKey, stylePieces)
      = Ok (Some ("<span" +:+ attrString +:+ ">" +:+ content +:+ "</span>")).

(** Overriding the [DEFAULT] formatter by the options never changes the
    output. *)
Definition default_formatter_never_affects_output : Prop :=
  ∀ (Entity_get : EntityGetter) (contentState : ContentState) (f : EntityFormatter),
    (stateToHTML no_css Entity_get ∅ initial_globals contentState
       (Some (formatter_options {["DEFAULT" := f]}))).2
    = (stateToHTML no_css Entity_get ∅ initial_globals contentState None).2.

(** ** Vocabulary of the properties of the generator *)

(** The number of occurrences of a character in a string. *)
Fixpoint count_char (c : ascii) (s : string) : nat :=
  match s with
  | EmptyString => 0%nat
  | String a s' => ((if decide (a = c) then 1 else 0) + count_char c s')%nat
  end.

(** The text of one attribute in a start tag; a [null] or [undefined]
    value gives no text. *)
Definition attr_text (p : string * jsval) : option string :=
  (λ value, " " +:+ p.1 +:+ "=" +:+ quote +:+ encodeAttr value +:+ quote) <$> p.2.

(** The markup that a fragment carries for a block: the rendered content
    or the output of a custom renderer. *)
Definition payload (f : fragment) : option string :=
  match f with
  | Content html | CustomOutput html => Some html
  | _ => None
  end.

(** The markup of the element of a block: the start tags, the content and
    the end tags in reverse order. *)
Definition element_markup (tags : list string) (attrString content : string) : string :=
  JS.join "" ((λ tag, "<" +:+ tag +:+ attrString +:+ ">") <$> tags)
  +:+ content
  +:+ JS.join "" ((λ tag, "</" +:+ tag +:+ ">") <$> reverse tags).

Definition starts_lt (s : string) : Prop := ∃ x, s = "<" +:+ x.
Definition ends_gt (s : string) : Prop := ∃ x, s = x +:+ ">".

Section OutputVocabulary.
Context (styleToCSS : StyleDescr → string) (ATTR_NAME_MAP : gmap string string).
Context (g : globals) (this : MarkupGenerator).

(** What [processBlock] emits for the block itself: the output of its
    custom renderer, or else its rendered content. *)
Definition block_payload (block : ContentBlock.t) : res string :=
  match customOutput this block with
  | Some html => Ok html
  | None => renderBlockContent styleToCSS ATTR_NAME_MAP g this block
  end.

(** The markup of a block around its content. *)
Definition block_markup (block : ContentBlock.t) (content : string) : string :=
  element_markup (getTags (ContentBlock.getType block))
    (blockAttrString styleToCSS ATTR_NAME_MAP this block) content.

(** The element of the block of index [i] in an output that extends
    [out]: after fragments that hold the contents of [k] blocks come the
    start tags of the block, its content, the blocks nested in it when its
    successor is one level deeper, and its end tags. *)
Definition element_after (out out' : list fragment) (k i : nat) (block : ContentBlock.t)
  : Prop :=
  ∃ content pre nested post,
    renderBlockContent styleToCSS ATTR_NAME_MAP g this block = Ok content
    ∧ out' = out ++ pre ++ start_tags styleToCSS ATTR_NAME_MAP this block
             ++ [Content content] ++ nested
             ++ [EndTags (getTags (ContentBlock.getType block))] ++ post
    ∧ length (omap payload pre) = k
    ∧ (nests block (blocks this !! S i) = false → nested = []).

(** The fragments of a block that contains no other block. *)
Definition leaf_fragments (level : Z) (block : ContentBlock.t) (content : string)
  : list fragment :=
  [Indent level] ++ start_tags styleToCSS ATTR_NAME_MAP this block
  ++ [Content content; EndTags (getTags (ContentBlock.getType block))].

End OutputVocabulary.

(** The effect of a fragment on the number of open tags.  The state is the
    number of tags open and, when an indentation has been pushed and its
    line has not started, the level of that indentation.  A line that
    starts with a start tag or with custom markup is indented by the number
    of tags open around it, and a line that starts with an end tag by the
    number of tags open once it is closed; the result is [None] when a line
    is not. *)
Definition indent_step (s : Z * option Z) (f : fragment) : option (Z * option Z) :=
  let '(depth, pending) := s in
  match f, pending with
  | Indent level, None => Some (depth, Some level)
  | WrapperStart _, Some level =>
      if level =? depth then Some (depth + 1, None) else None
  | WrapperEnd _, Some level =>
      if level =? depth - 1 then Some (depth - 1, None) else None
  | StartTag _ _, Some level =>
      if level =? depth then Some (depth + 1, None) else None
  | StartTag _ _, None => Some (depth + 1, None)
  | EndTags tags, Some level =>
      if level =? depth - Z.of_nat (length tags)
      then Some (depth - Z.of_nat (length tags), None) else None
  | EndTags tags, None => Some (depth - Z.of_nat (length tags), None)
  | CustomOutput _, Some level => if level =? depth then Some (depth, None) else None
  | Content _, None => Some (depth, None)
  | Newline, None => Some (depth, None)
  | _, _ => None
  end.

Fixpoint indentation (out : list fragment) (s : Z * option Z) : option (Z * option Z) :=
  match out with
  | [] => Some s
  | f :: out' => indent_step s f ≫= indentation out'
  end.

(** Every line of the output is indented by its depth, and [level] tags
    are open at its end. *)
Definition indented (out : list fragment) (level : Z) : Prop :=
  indentation out (0, None) = Some (level, None).

(** * Lemmas *)

(** ** Numbers *)

Lemma add1_exact (n : Z) : - 2 ^ 53 ≤ n < 2 ^ 53 → JS.add1 n = n + 1.
Proof.
  change (2 ^ 53) with 9007199254740992. intros Hn.
  destruct (decide (n = 9007199254740991)) as [-> | Hne]; [reflexivity |].
  unfold JS.add1, JS.nearest. change (2 ^ 53) with 9007199254740992.
  destruct (Z.ltb_spec (Z.abs (n + 1)) 9007199254740992); [done | lia].
Qed.

Lemma add1_rounded : JS.add1 (2 ^ 53) = 2 ^ 53 ∧ JS.add1 (2 ^ 53 + 2) = 2 ^ 53 + 4.
Proof. split; reflexivity. Qed.

(** ** Escaping *)

Lemma append_nil_l (s : string) : "" +:+ s = s.
Proof. reflexivity. Qed.

Lemma append_cons (a : ascii) (s t : string) : String a s +:+ t = String a (s +:+ t).
Proof. reflexivity. Qed.

Lemma append_nil_r (s : string) : s +:+ "" = s.
Proof.
  induction s as [|a s IH]; [done |].
  by rewrite append_cons, IH.
Qed.

Lemma append_assoc (s1 s2 s3 : string) : (s1 +:+ s2) +:+ s3 = s1 +:+ s2 +:+ s3.
Proof.
  induction s1 as [|a s1 IH]; [done |].
  by rewrite !append_cons, IH.
Qed.

Lemma split_not_nil (c : ascii) (s : string) : JS.split c s ≠ [].
Proof.
  destruct s as [|a s]; simpl; [done |].
  destruct (decide (a = c)); [done |].
  by destruct (JS.split c s).
Qed.

Lemma join_cons_char (sep : string) (a : ascii) (h : string) (t : list string) :
  JS.join sep (String a h :: t) = String a (JS.join sep (h :: t)).
Proof. by destruct t. Qed.

Lemma join_split (c : ascii) (r s : string) :
  JS.join r (JS.split c s) = escape (replace_char c r) s.
Proof.
  induction s as [|a s IH]; simpl; [done |].
  unfold replace_char at 1.
  destruct (decide (a = c)) as [->|Hne].
  - pose proof (split_not_nil c s) as Hs.
    destruct (JS.split c s) as [|h t] eqn:E; [done |].
    by rewrite <- IH.
  - rewrite append_cons, append_nil_l.
    pose proof (split_not_nil c s) as Hs.
    destruct (JS.split c s) as [|h t] eqn:E; [done |].
    by rewrite join_cons_char, IH.
Qed.

Lemma escape_app (f : ascii → string) (s1 s2 : string) :
  escape f (s1 +:+ s2) = escape f s1 +:+ escape f s2.
Proof.
  induction s1 as [|a s1 IH]; simpl; [done |].
  by rewrite IH, append_assoc.
Qed.

Lemma escape_escape (f1 f2 : ascii → string) (s : string) :
  escape f2 (escape f1 s) = escape (λ c, escape f2 (f1 c)) s.
Proof.
  induction s as [|a s IH]; simpl; [done |].
  by rewrite escape_app, IH.
Qed.

Lemma escape_ext (f1 f2 : ascii → string) (s : string) :
  (∀ c, f1 c = f2 c) → escape f1 s = escape f2 s.
Proof.
  intros Hf. induction s as [|a s IH]; simpl; [done |].
  by rewrite Hf, IH.
Qed.

Lemma encodeContent_escape (text : string) :
  encodeContent text = escape content_entity text.
Proof.
  unfold encodeContent.
  rewrite !join_split, !escape_escape.
  apply escape_ext.
  intros [[] [] [] [] [] [] [] []]; reflexivity.
Qed.

Lemma encodeAttr_escape (text : string) :
  encodeAttr text = escape attr_entity text.
Proof.
  unfold encodeAttr.
  rewrite !join_split, !escape_escape.
  apply escape_ext.
  intros [[] [] [] [] [] [] [] []]; reflexivity.
Qed.

(** ** Whitespace preservation *)

Lemma foldl_ext_in {A B} (f g : A → B → A) (l : list B) (a : A) :
  (∀ a b, b ∈ l → f a b = g a b) → foldl f a l = foldl g a l.
Proof.
  revert a. induction l as [|b l IH]; intros a Hfg; simpl; [done |].
  rewrite Hfg by left. apply IH. intros a' b' Hb'. apply Hfg. by right.
Qed.

(** A loop that assigns [h i] to slot [i] for [i] from 0 to [k-1] leaves
    the first [k] slots filled and the others as they were. *)
Lemma fill_slots {A} (h : nat → A) (l0 : list A) (k : nat) :
  (k ≤ length l0)%nat →
  foldl (λ l i, <[i := h i]> l) l0 (seq 0 k) = (h <$> seq 0 k) ++ drop k l0.
Proof.
  induction k as [|k IH]; intros Hk.
  - by rewrite drop_0.
  - rewrite seq_S, foldl_app, fmap_app. simpl.
    rewrite IH by lia.
    assert (Hlen : length (h <$> seq 0 k) = k) by by rewrite length_fmap, length_seq.
    rewrite insert_app_r_alt by lia.
    rewrite Hlen, Nat.sub_diag.
    destruct (drop k l0) as [|x rest] eqn:E.
    + apply (f_equal length) in E. rewrite length_drop in E. simpl in E. lia.
    + simpl. rewrite <- app_assoc. simpl. do 2 f_equal.
      assert (Hd : drop (S k) l0 = drop 1 (drop k l0)) by (rewrite drop_drop; f_equal; lia).
      by rewrite Hd, E.
Qed.

Lemma JS_get_nat (text : string) (i : nat) :
  JS.get text (Z.of_nat i) = String.get i text.
Proof.
  unfold JS.get. destruct (Z.ltb_spec (Z.of_nat i) 0); [lia |].
  by rewrite Nat2Z.id.
Qed.

Lemma JS_get_pred (text : string) (i : nat) :
  JS.get text (Z.of_nat (S i) - 1) = String.get i text.
Proof.
  replace (Z.of_nat (S i) - 1) with (Z.of_nat i) by lia. apply JS_get_nat.
Qed.

Lemma preserveWhitespace_slots (text : string) :
  preserveWhitespace text
  = JS.join_opt (preserved_slot text <$> seq 0 (String.length text)).
Proof.
  unfold preserveWhitespace, JS.length.
  set (n := String.length text).
  rewrite (foldl_ext_in _ (λ l i, <[i := preserved_slot text i]> l)).
  - rewrite fill_slots by by rewrite length_replicate.
    rewrite drop_ge by by rewrite length_replicate.
    by rewrite app_nil_r.
  - intros l i _. unfold preserved_slot, JS.length. fold n.
    by destruct (is_space (JS.get text (Z.of_nat i))
                 && (bool_decide (i = 0%nat)
                     || bool_decide (Z.of_nat i = Z.of_nat n - 1)
                     || is_space (JS.get text (Z.of_nat i - 1)))).
Qed.

Lemma preserved_slot_char (text : string) (i : nat) (c : ascii) :
  String.get i text = Some c →
  preserved_slot text i = Some (String (preserved_char text i c) "").
Proof.
  intros Hc. unfold preserved_slot, preserved_char, is_space, JS.length.
  rewrite JS_get_nat, Hc.
  assert (bool_decide (Some c = Some JS.space) = bool_decide (c = JS.space)) as ->.
  { apply bool_decide_ext. split; [by intros [= ->] | by intros ->]. }
  assert (bool_decide (Z.of_nat i = Z.of_nat (String.length text) - 1)
          = bool_decide (S i = String.length text)) as ->.
  { apply bool_decide_ext. lia. }
  destruct i as [|j].
  - rewrite (bool_decide_eq_true_2 (0%nat = 0%nat)) by done.
    by destruct (bool_decide (c = JS.space)).
  - rewrite JS_get_pred.
    by destruct (bool_decide (c = JS.space)
                 && (bool_decide (S j = 0%nat)
                     || bool_decide (S (S j) = String.length text)
                     || bool_decide (String.get j text = Some JS.space))).
Qed.

Lemma get_lt_length (s : string) (i : nat) :
  (i < String.length s)%nat → ∃ c, String.get i s = Some c.
Proof.
  revert i. induction s as [|a s IH]; intros i Hi; simpl in *; [lia |].
  destruct i as [|i]; [by eexists |]. apply IH. lia.
Qed.

Lemma get_Some_lt (s : string) (i : nat) (c : ascii) :
  String.get i s = Some c → (i < String.length s)%nat.
Proof.
  revert i. induction s as [|a s IH]; intros i Hi; simpl in *; [by destruct i |].
  destruct i as [|i]; [lia |]. apply IH in Hi. lia.
Qed.

(** Joining an array of one-character strings gives the string of the
    characters. *)
Lemma join_opt_chars (f : nat → option string) (ch : nat → ascii) (l : list nat) :
  (∀ i, i ∈ l → f i = Some (String (ch i) "")) →
  JS.join_opt (f <$> l) = String.string_of_list_ascii (ch <$> l).
Proof.
  induction l as [|i l IH]; intros Hf; simpl; [done |].
  rewrite Hf by left. rewrite append_cons, append_nil_l.
  f_equal. apply IH. intros j Hj. apply Hf. by right.
Qed.

Lemma get_string_of_list (l : list ascii) (i : nat) :
  String.get i (String.string_of_list_ascii l) = l !! i.
Proof.
  revert i. induction l as [|a l IH]; intros i; simpl; [by destruct i |].
  destruct i; [done |]. apply IH.
Qed.

Lemma length_string_of_list (l : list ascii) :
  String.length (String.string_of_list_ascii l) = length l.
Proof. induction l as [|a l IH]; simpl; [done | by rewrite IH]. Qed.

Lemma preserveWhitespace_chars (text : string) :
  preserveWhitespace text = String.string_of_list_ascii (preserved_chars text).
Proof.
  rewrite preserveWhitespace_slots. unfold preserved_chars.
  apply join_opt_chars. intros i Hi.
  apply elem_of_seq in Hi.
  destruct (get_lt_length text i) as [c Hc]; [lia |].
  by rewrite Hc, (preserved_slot_char _ _ c).
Qed.

Lemma preserveWhitespace_length (text : string) :
  String.length (preserveWhitespace text) = String.length text.
Proof.
  rewrite preserveWhitespace_chars, length_string_of_list.
  unfold preserved_chars. by rewrite length_fmap, length_seq.
Qed.

Lemma preserveWhitespace_get (text : string) (i : nat) (c : ascii) :
  String.get i text = Some c →
  String.get i (preserveWhitespace text) = Some (preserved_char text i c).
Proof.
  intros Hc. pose proof (get_Some_lt _ _ _ Hc) as Hi.
  rewrite preserveWhitespace_chars, get_string_of_list.
  unfold preserved_chars. rewrite list_lookup_fmap.
  rewrite lookup_seq_lt by done. simpl. by rewrite Hc.
Qed.

(** ** Objects *)

Section ObjFacts.
Context {A : Type}.
Implicit Types (o : jsobj A) (k : string) (v : A).

Lemma Obj_has_false_get k o : Obj.has k o = false → Obj.get k o = None.
Proof.
  induction o as [|[k' v'] o IH]; simpl; [done |].
  by destruct (decide (k' = k)).
Qed.

Lemma Obj_has_true_get k o : Obj.has k o = true → is_Some (Obj.get k o).
Proof.
  induction o as [|[k' v'] o IH]; simpl; [done |].
  destruct (decide (k' = k)); [by eexists | done].
Qed.

Lemma Obj_get_update k k' v o :
  Obj.has k' o = true →
  Obj.get k (Obj.update k' v o) = if decide (k = k') then Some v else Obj.get k o.
Proof.
  induction o as [|[k0 v0] o IH]; simpl; [done |].
  intros Hhas. repeat (case_decide; simplify_eq/=); try done.
  all: try (rewrite IH by done).
  all: by repeat (case_decide; simplify_eq/=).
Qed.

Lemma Obj_get_insert_index k k' v n o :
  Obj.has k' o = false →
  Obj.get k (Obj.insert_index n k' v o) = if decide (k = k') then Some v else Obj.get k o.
Proof.
  induction o as [|[k0 v0] o IH]; simpl.
  - intros _. by repeat (case_decide; simplify_eq/=).
  - destruct (decide (k0 = k')) as [->|Hne]; [done |]. intros Hhas.
    assert (Hhead : Obj.get k ((k', v) :: (k0, v0) :: o)
                    = if decide (k = k') then Some v
                      else if decide (k0 = k) then Some v0 else Obj.get k o).
    { simpl. by repeat (case_decide; simplify_eq/=). }
    destruct (Obj.array_index k0) as [m|]; [|exact Hhead].
    destruct (m <? n)%N; [|exact Hhead].
    simpl. rewrite IH by done. by repeat (case_decide; simplify_eq/=).
Qed.

Lemma Obj_get_app_new k k' v o :
  Obj.has k' o = false →
  Obj.get k (o ++ [(k', v)]) = if decide (k = k') then Some v else Obj.get k o.
Proof.
  induction o as [|[k0 v0] o IH]; simpl.
  - intros _. by repeat (case_decide; simplify_eq/=).
  - destruct (decide (k0 = k')) as [->|Hne]; [done |]. intros Hhas.
    rewrite IH by done. by repeat (case_decide; simplify_eq/=).
Qed.

(** Reading a property after an assignment. *)
Lemma Obj_get_set k k' v o :
  Obj.get k (Obj.set k' v o) = if decide (k = k') then Some v else Obj.get k o.
Proof.
  unfold Obj.set. destruct (Obj.has k' o) eqn:Hhas.
  - by apply Obj_get_update.
  - destruct (Obj.array_index k').
    + by apply Obj_get_insert_index.
    + by apply Obj_get_app_new.
Qed.

Lemma Obj_get_keys k o : k ∉ Obj.keys o → Obj.get k o = None.
Proof.
  induction o as [|[k0 v0] o IH]; simpl; [done |].
  intros Hk. destruct (decide (k0 = k)) as [->|].
  - exfalso. apply Hk. left.
  - apply IH. intros Hin. apply Hk. by right.
Qed.

Lemma Obj_keys_get k o : k ∈ Obj.keys o → is_Some (Obj.get k o).
Proof.
  induction o as [|[k0 v0] o IH]; simpl.
  - by intros ?%elem_of_nil.
  - intros [->|Hin]%elem_of_cons.
    + rewrite decide_True by done. by eexists.
    + destruct (decide (k0 = k)); [by eexists | by apply IH].
Qed.
End ObjFacts.

(** ** Rendering never throws for a generator built by the constructor *)

Lemma bind_Ok {A B} (m : res A) (k : A → res B) (b : B) :
  bind m k = Ok b ↔ ∃ a, m = Ok a ∧ k a = Ok b.
Proof.
  destruct m as [a|e]; simpl.
  - split; [by exists a | by intros (? & [= ->] & ?)].
  - split; [done | by intros (? & ? & ?)].
Qed.

Lemma mapM_total {A B} (f : A → res B) (l : list A) :
  (∀ x, x ∈ l → ∃ y, f x = Ok y) → ∃ ys, mapM f l = Ok ys.
Proof.
  induction l as [|x l IH]; intros Hf; simpl; [by eexists |].
  destruct (Hf x) as [y ->]; [left |]. simpl.
  destruct IH as [ys ->]; [intros; apply Hf; by right |]. simpl. by eexists.
Qed.

Lemma mapM_ext_in {A B} (f1 f2 : A → res B) (l : list A) :
  (∀ x, x ∈ l → f1 x = f2 x) → mapM f1 l = mapM f2 l.
Proof.
  induction l as [|x l IH]; intros Hf; simpl; [done |].
  rewrite Hf by left. rewrite IH; [done |]. intros; apply Hf; by right.
Qed.

Lemma combineOrderedStyles_ok customMap styleMap order :
  (∀ s, s ∈ order → is_Some (styleMap !! s)) →
  ∀ s, s ∈ (combineOrderedStyles customMap (styleMap, order)).2 →
       is_Some ((combineOrderedStyles customMap (styleMap, order)).1 !! s).
Proof.
  destruct customMap as [customMap|]; simpl; [|done].
  revert styleMap order.
  induction customMap as [|[styleName config] customMap IH]; intros styleMap order H;
    simpl; [done |].
  apply IH. intros s Hs.
  destruct (decide (s = styleName)) as [->|Hne].
  - rewrite lookup_insert_eq. by eexists.
  - rewrite lookup_insert_ne by done. apply H.
    case_bool_decide; [done |].
    apply elem_of_app in Hs as [Hs|Hs]; [done |].
    apply list_elem_of_singleton in Hs. done.
Qed.

Lemma default_styles_ok (s : string) :
  s ∈ DEFAULT_STYLE_ORDER → is_Some (DEFAULT_STYLE_MAP !! s).
Proof.
  unfold DEFAULT_STYLE_ORDER. rewrite !elem_of_cons, elem_of_nil.
  intros [->|[->|[->|[->|[->|[]]]]]]; by eexists.
Qed.

Section RenderFacts.
Context (styleToCSS : StyleDescr → string) (Entity_get : EntityGetter)
        (ATTR_NAME_MAP : gmap string string).

Local Abbreviation constructor' := (constructor Entity_get).
Local Abbreviation renderStylePiece' := (renderStylePiece styleToCSS ATTR_NAME_MAP).
Local Abbreviation renderEntityPiece' := (renderEntityPiece styleToCSS ATTR_NAME_MAP).
Local Abbreviation renderBlockContent' := (renderBlockContent styleToCSS ATTR_NAME_MAP).

Lemma constructor_ok g contentState options :
  generator_ok (constructor' g contentState options).2.
Proof.
  unfold constructor.
  destruct (combineOrderedStyles _ _) as [inlineStyles styleOrder] eqn:E.
  split; simpl.
  - intros s Hs.
    pose proof (combineOrderedStyles_ok
                  (Options.inlineStyles (default Options.empty options))
                  DEFAULT_STYLE_MAP DEFAULT_STYLE_ORDER default_styles_ok s) as H.
    rewrite E in H. by apply H.
  - destruct (Options.entityAttributesRendererMap _) as [m|].
    + unfold assign. apply lookup_union_is_Some. right.
      rewrite lookup_singleton_eq. by eexists.
    + rewrite lookup_singleton_eq. by eexists.
Qed.

Lemma constructor_fields g (document : ContentState) (opts : option Options.t) :
  contentState ((constructor' g document opts).2) = document
  ∧ options ((constructor' g document opts).2) = default Options.empty opts.
Proof. unfold constructor. by destruct (combineOrderedStyles _ _). Qed.

Lemma renderStylePiece_total this blockType piece :
  generator_ok this → ∃ content, renderStylePiece' this blockType piece = Ok content.
Proof.
  intros [Hstyles _]. destruct piece as [text styleSet].
  unfold renderStylePiece.
  generalize (encodeContent text). revert Hstyles.
  induction (styleOrder this) as [|styleName order IH]; intros Hstyles content;
    simpl; [by eexists |].
  destruct (Hstyles styleName) as [config Hconfig]; [left |].
  rewrite Hconfig.
  destruct (bool_decide (styleName = INLINE_STYLE.CODE)
            && bool_decide (blockType = BLOCK_TYPE.CODE));
    [apply IH; intros; apply Hstyles; by right |].
  destruct (bool_decide (styleName ∈ styleSet));
    apply IH; intros; apply Hstyles; by right.
Qed.

Lemma renderEntityPiece_total g this blockType piece :
  generator_ok this → ∃ r, renderEntityPiece' g this blockType piece = Ok r.
Proof.
  intros Hok. destruct piece as [entityKey stylePieces].
  unfold renderEntityPiece.
  destruct (mapM_total (renderStylePiece' this blockType) stylePieces) as [contents ->].
  { intros; by apply renderStylePiece_total. }
  simpl.
  destruct (if truthy entityKey then entityGetter this (default "" entityKey) else None)
    as [entity|]; simpl; [|by eexists].
  case_bool_decide as Hfmt; simpl; [|by eexists].
  destruct Hfmt as [formatter Hfmt].
  destruct Hok as [_ [r Hr]]. rewrite Hr.
  destruct (entityAttributesRendererMap this
              !! JS.toUpperCase (EntityInstance.getType entity));
    unfold bind; rewrite Hfmt; by eexists.
Qed.

Lemma renderBlockContent_total g this block :
  generator_ok this → ∃ content, renderBlockContent' g this block = Ok content.
Proof.
  intros Hok. unfold renderBlockContent.
  destruct (decide (ContentBlock.getText block = "")); [by eexists |].
  destruct (mapM_total (renderEntityPiece' g this (ContentBlock.getType block))
              (getEntityRanges (preserveWhitespace (ContentBlock.getText block))
                 (ContentBlock.getCharacterList block))) as [pieces ->].
  { intros; by apply renderEntityPiece_total. }
  simpl. by eexists.
Qed.
End RenderFacts.

(** ** Tag balance of the output *)

Lemma open_tags_app elements out1 out2 stack :
  open_tags elements (out1 ++ out2) stack
  = open_tags elements out1 stack ≫= open_tags elements out2.
Proof.
  revert stack. induction out1 as [|f out1 IH]; intros stack; simpl; [done |].
  destruct (track elements f stack) as [stack'|]; simpl; [apply IH | done].
Qed.

Lemma open_tags_push elements out f stack stack' stack'' :
  open_tags elements out stack = Some stack' →
  track elements f stack' = Some stack'' →
  open_tags elements (out ++ [f]) stack = Some stack''.
Proof.
  intros H1 H2. rewrite open_tags_app, H1. simpl. by rewrite H2.
Qed.

Ltac state_simpl :=
  unfold set_currentBlock, set_indentLevel, set_wrapperTag, push;
  cbn [output currentBlock indentLevel wrapperTag].

(** The open tags of an output that ends with pushed fragments. *)
Ltac open_tags_pushes :=
  first [ eassumption
        | eapply open_tags_push; [open_tags_pushes | simpl; try reflexivity] ].

Lemma close_element_tags tags stack :
  close_tags ElementTag tags (((λ tag, (ElementTag, tag)) <$> tags) ++ stack) = Some stack.
Proof.
  induction tags as [|tag tags IH]; simpl; [done |].
  by rewrite decide_True.
Qed.

Lemma track_EndTags elements tags stack :
  track elements (EndTags tags) (element_stack elements tags ++ stack) = Some stack.
Proof.
  unfold element_stack. destruct elements; simpl; [|done].
  apply close_element_tags.
Qed.

Lemma getWrapperTag_cases blockType :
  getWrapperTag blockType = None ∨ getWrapperTag blockType = Some "ul"
  ∨ getWrapperTag blockType = Some "ol".
Proof. unfold getWrapperTag. repeat case_decide; auto. Qed.

Lemma truthy_wrapper (w : option string) :
  w = None ∨ w = Some "ul" ∨ w = Some "ol" → truthy w = bool_decide (is_Some w).
Proof. intros [->|[->| ->]]; done. Qed.

Section WalkFacts.
Context (elements : bool).

Lemma indent_ok st :
  0 ≤ indentLevel st → indent st = Ok (push (Indent (indentLevel st)) st).
Proof. intros H. unfold indent. by destruct (Z.ltb_spec (indentLevel st) 0); [lia |]. Qed.

Lemma closeWrapperTag_spec stack base st :
  level_inv elements stack base st →
  ∃ st', closeWrapperTag st = Ok st'
         ∧ wrapperTag st' = None ∧ indentLevel st' = base
         ∧ currentBlock st' = currentBlock st
         ∧ open_tags elements (output st') [] = Some stack.
Proof.
  intros [Hw Hi Hb Ho]. unfold closeWrapperTag.
  destruct Hw as [Hw|[Hw|Hw]]; rewrite Hw in *; simpl in *.
  - exists st. split_and!; [done | done | lia | done | done].
  - rewrite indent_ok by (simpl; lia). simpl.
    eexists. split_and!; [done | done | simpl; lia | done |]. simpl.
    open_tags_pushes.
  - rewrite indent_ok by (simpl; lia). simpl.
    eexists. split_and!; [done | done | simpl; lia | done |]. simpl.
    open_tags_pushes.
Qed.

Lemma openWrapperTag_spec stack base st w :
  w = "ul" ∨ w = "ol" →
  indentLevel st = base → 0 ≤ base →
  open_tags elements (output st) [] = Some stack →
  ∃ st', openWrapperTag w st = Ok st'
         ∧ wrapperTag st' = Some w
         ∧ currentBlock st' = currentBlock st
         ∧ level_inv elements stack base st'.
Proof.
  intros Hw Hi Hb Ho. unfold openWrapperTag.
  rewrite indent_ok by (simpl; lia). simpl.
  eexists. split_and!; [done | done | done |].
  split; simpl.
  - destruct Hw as [-> | ->]; auto.
  - lia.
  - done.
  - open_tags_pushes.
Qed.

Lemma switch_wrapper_spec stack base st blockType :
  level_inv elements stack base st →
  ∃ st', switch_wrapper (getWrapperTag blockType) st = Ok st'
         ∧ wrapperTag st' = getWrapperTag blockType
         ∧ currentBlock st' = currentBlock st
         ∧ level_inv elements stack base st'.
Proof.
  intros Hinv. unfold switch_wrapper.
  pose proof (getWrapperTag_cases blockType) as Hnew.
  case_bool_decide as Hne; [|exists st; split_and!; [done | exact Hne | done..]].
  destruct (closeWrapperTag_spec _ _ _ Hinv) as (st1 & Hclose & Hw1 & Hi1 & Hc1 & Ho1).
  assert (∃ st1', (if truthy (wrapperTag st) then closeWrapperTag st else Ok st) = Ok st1'
                  ∧ wrapperTag st1' = None ∧ indentLevel st1' = base
                  ∧ currentBlock st1' = currentBlock st
                  ∧ open_tags elements (output st1') [] = Some stack)
    as (st1' & -> & Hw1' & Hi1' & Hc1' & Ho1').
  { destruct (truthy (wrapperTag st)) eqn:Ht; [by exists st1 |].
    exists st. destruct Hinv as [Hw Hi Hb Ho].
    rewrite truthy_wrapper in Ht by done.
    apply bool_decide_eq_false in Ht.
    destruct (wrapperTag st) eqn:E; [exfalso; apply Ht; by eexists |].
    simpl in *. split_and!; [done | done | lia | done | done]. }
  simpl.
  destruct Hnew as [Hn|[Hn|Hn]]; rewrite Hn; simpl.
  - exists st1'. split_and!; [done..|].
    split; rewrite ?Hw1'; simpl; [auto | lia | by destruct Hinv | done].
  - destruct (openWrapperTag_spec stack base st1' "ul") as (st2 & -> & ? & ? & ?);
      [auto | done | by destruct Hinv | done |].
    exists st2. split_and!; [done | done | congruence | done].
  - destruct (openWrapperTag_spec stack base st1' "ol") as (st2 & -> & ? & ? & ?);
      [auto | done | by destruct Hinv | done |].
    exists st2. split_and!; [done | done | congruence | done].
Qed.
End WalkFacts.

Section BlockWalk.
Context (styleToCSS : StyleDescr → string) (ATTR_NAME_MAP : gmap string string).
Context (g : globals) (this : MarkupGenerator) (elements : bool).
Hypothesis Hok : generator_ok this.

Local Abbreviation processBlock' := (processBlock styleToCSS ATTR_NAME_MAP g this).
Local Abbreviation processBlocksAtDepth' :=
  (processBlocksAtDepth styleToCSS ATTR_NAME_MAP g this).
Local Abbreviation writeStartTag' := (writeStartTag styleToCSS ATTR_NAME_MAP this).

Lemma push_start_tags attrString tags st stack :
  open_tags elements (output st) [] = Some stack →
  let st' := foldl (λ st tag, push (StartTag tag attrString) st) st tags in
  open_tags elements (output st') [] = Some (element_stack elements tags ++ stack)
  ∧ wrapperTag st' = wrapperTag st ∧ indentLevel st' = indentLevel st
  ∧ currentBlock st' = currentBlock st.
Proof.
  revert st stack. induction tags as [|tag tags IH]; intros st stack Ho; simpl.
  - unfold element_stack. by destruct elements.
  - specialize (IH (push (StartTag tag attrString) st)
                   (element_stack elements [tag] ++ stack)).
    simpl in IH. destruct IH as (IH1 & IH2 & IH3 & IH4).
    { open_tags_pushes. unfold element_stack. destruct elements; reflexivity. }
    split_and!; [|done..].
    rewrite IH1. f_equal. unfold element_stack.
    destruct elements; [|done].
    change (reverse [tag]) with [tag].
    by rewrite (reverse_cons tags tag), fmap_app, <- app_assoc.
Qed.

Lemma writeStartTag_spec block st stack :
  open_tags elements (output st) [] = Some stack →
  open_tags elements (output (writeStartTag' block st)) []
  = Some (element_stack elements (getTags (ContentBlock.getType block)) ++ stack)
  ∧ wrapperTag (writeStartTag' block st) = wrapperTag st
  ∧ indentLevel (writeStartTag' block st) = indentLevel st
  ∧ currentBlock (writeStartTag' block st) = currentBlock st.
Proof. intros Ho. unfold writeStartTag. by apply push_start_tags. Qed.

Lemma processBlock_S fuel st :
  processBlock' (S fuel) st
  = processBlock_body styleToCSS ATTR_NAME_MAP g this (processBlocksAtDepth' fuel) st.
Proof. reflexivity. Qed.

Lemma processBlocksAtDepth_S fuel depth st :
  processBlocksAtDepth' (S fuel) depth st
  = match blocks this !! currentBlock st with
    | Some block =>
        if ContentBlock.getDepth block =? depth then
          st ←' processBlock' fuel st;
          processBlocksAtDepth' fuel depth st
        else closeWrapperTag st
    | None => closeWrapperTag st
    end.
Proof. reflexivity. Qed.

(** With enough fuel, a block and a run of blocks at one depth are
    processed without an exception, the wrapper and the indentation of
    the level are kept, and the tags opened are closed. *)
Lemma walk_spec (fuel : nat) :
  (∀ stack base st,
     level_inv elements stack base st →
     (currentBlock st < totalBlocks this)%nat →
     (2 * (totalBlocks this - currentBlock st) ≤ fuel)%nat →
     ∃ st', processBlock' fuel st = Ok st'
            ∧ level_inv elements stack base st'
            ∧ (currentBlock st < currentBlock st' ≤ totalBlocks this)%nat)
  ∧ (∀ stack base depth st,
       level_inv elements stack base st →
       (currentBlock st ≤ totalBlocks this)%nat →
       (2 * (totalBlocks this - currentBlock st) + 1 ≤ fuel)%nat →
       ∃ st', processBlocksAtDepth' fuel depth st = Ok st'
              ∧ wrapperTag st' = None ∧ indentLevel st' = base
              ∧ open_tags elements (output st') [] = Some stack
              ∧ (currentBlock st ≤ currentBlock st' ≤ totalBlocks this)%nat).
Proof.
  induction fuel as [|fuel [IHblock IHdepth]].
  { split; intros; lia. }
  split.
  - (* processBlock *)
    intros stack base st Hinv Hcur Hfuel.
    destruct (lookup_lt_is_Some_2 (blocks this) (currentBlock st)) as [block Hblock];
      [done |].
    rewrite processBlock_S. unfold processBlock_body. rewrite Hblock.
    fold (switch_wrapper (getWrapperTag (ContentBlock.getType block)) st).
    destruct (switch_wrapper_spec elements stack base st (ContentBlock.getType block) Hinv)
      as (st1 & -> & Hw1 & Hc1 & Hinv1).
    cbn [bind].
    pose proof Hinv1 as [Hwr1 Hi1 Hb1 Ho1].
    assert (Hi1' : 0 ≤ indentLevel st1) by (rewrite Hi1; case_bool_decide; lia).
    rewrite indent_ok by done. cbn [bind].
    set (st2 := push (Indent (indentLevel st1)) st1).
    assert (Ho2 : open_tags elements (output st2) []
                  = Some (wrapper_stack (wrapperTag st1) ++ stack))
      by (subst st2; simpl; open_tags_pushes).
    destruct ((Options.blockRenderers (options this)
               ≫= (λ m, m !! ContentBlock.getType block))
              ≫= (λ r, r block)) as [customRendererOutput|].
    + (* a custom renderer gave the markup *)
      eexists. split; [done |]. simpl. split; [|lia].
      split; simpl; [done | done | done | open_tags_pushes].
    + destruct (writeStartTag_spec block st2 _ Ho2) as (Ho3 & Hw3 & Hi3 & Hc3).
      set (st3 := writeStartTag' block st2) in *.
      destruct (renderBlockContent_total styleToCSS ATTR_NAME_MAP g this block Hok)
        as [content ->].
      cbn [bind].
      set (st4 := push (Content content) st3).
      assert (Ho4 : open_tags elements (output st4) []
                    = Some (element_stack elements (getTags (ContentBlock.getType block))
                            ++ wrapper_stack (wrapperTag st1) ++ stack))
        by (subst st4; simpl; open_tags_pushes).
      assert (Hflat : ∀ st5 : state,
                wrapperTag st5 = wrapperTag st1 → indentLevel st5 = indentLevel st1 →
                open_tags elements (output st5) []
                = Some (element_stack elements (getTags (ContentBlock.getType block))
                        ++ wrapper_stack (wrapperTag st1) ++ stack) →
                (currentBlock st < currentBlock st5 ≤ totalBlocks this)%nat →
                ∃ st', Ok (writeEndTag block st5) = Ok st'
                       ∧ level_inv elements stack base st'
                       ∧ (currentBlock st < currentBlock st' ≤ totalBlocks this)%nat).
      { intros st5 Hw5 Hi5 Ho5 Hc5. eexists. split; [done |]. split; [|done].
        split; simpl; rewrite ?Hw5, ?Hi5; [done | done | done |].
        open_tags_pushes. apply track_EndTags. }
      assert (Hc4 : currentBlock st4 = currentBlock st)
        by (subst st4; simpl; rewrite Hc3; subst st2; simpl; done).
      assert (Hw4 : wrapperTag st4 = wrapperTag st1)
        by (subst st4; simpl; rewrite Hw3; subst st2; simpl; done).
      assert (Hi4 : indentLevel st4 = indentLevel st1)
        by (subst st4; simpl; rewrite Hi3; subst st2; simpl; done).
      unfold getNextBlock. fold st4.
      destruct (blocks this !! (currentBlock st4 + 1)%nat) as [nextBlock|] eqn:Hnext;
        [|cbn [bind]; apply Hflat;
          [exact Hw4 | exact Hi4 | exact Ho4
          | unfold set_currentBlock; cbn [currentBlock]; rewrite Hc4; lia]].
      apply lookup_lt_Some in Hnext. fold (totalBlocks this) in Hnext.
      destruct (canHaveDepth (ContentBlock.getType block)
                && (ContentBlock.getDepth nextBlock =? JS.add1 (ContentBlock.getDepth block)));
        [|cbn [bind]; apply Hflat;
          [exact Hw4 | exact Hi4 | exact Ho4
          | unfold set_currentBlock; cbn [currentBlock]; rewrite Hc4; lia]].
      (* the nested run *)
      set (st5 := set_currentBlock _ _).
      destruct (IHdepth
                  (element_stack elements (getTags (ContentBlock.getType block))
                   ++ wrapper_stack (wrapperTag st1) ++ stack)
                  (indentLevel st1 + 1) (ContentBlock.getDepth nextBlock) st5)
        as (st6 & -> & Hw6 & Hi6 & Ho6 & Hc6).
      { subst st5. split; state_simpl.
        - auto.
        - rewrite Hi4. simpl. lia.
        - lia.
        - open_tags_pushes. }
      { subst st5. state_simpl. lia. }
      { subst st5. state_simpl. lia. }
      cbn [bind].
      rewrite indent_ok by (state_simpl; lia). cbn [bind].
      subst st5. revert Hc6. state_simpl. intros Hc6.
      apply Hflat; state_simpl; [exact Hw4 | lia | open_tags_pushes | lia].
  - (* processBlocksAtDepth *)
    intros stack base depth st Hinv Hcur Hfuel.
    rewrite processBlocksAtDepth_S.
    assert (Hclose : ∃ st', closeWrapperTag st = Ok st'
              ∧ wrapperTag st' = None ∧ indentLevel st' = base
              ∧ open_tags elements (output st') [] = Some stack
              ∧ (currentBlock st ≤ currentBlock st' ≤ totalBlocks this)%nat).
    { destruct (closeWrapperTag_spec elements stack base st Hinv)
        as (st' & ? & ? & ? & Hc' & ?).
      exists st'. split_and!; [done | done | done | done | lia | lia]. }
    destruct (blocks this !! currentBlock st) as [block|] eqn:Hblock; [|done].
    destruct (ContentBlock.getDepth block =? depth); [|done].
    apply lookup_lt_Some in Hblock. fold (totalBlocks this) in Hblock.
    destruct (IHblock stack base st Hinv) as (st1 & -> & Hinv1 & Hc1); [done | lia |].
    cbn [bind].
    destruct (IHdepth stack base depth st1 Hinv1) as (st2 & -> & ? & ? & ? & Hc2);
      [lia | lia |].
    exists st2. split_and!; [done | done | done | done | lia | lia].
Qed.
End BlockWalk.

(** ** The states of [generate] *)

Section GenerateFacts.
Context (styleToCSS : StyleDescr → string) (ATTR_NAME_MAP : gmap string string).
Context (g : globals) (this : MarkupGenerator).

Local Abbreviation processBlock' := (processBlock styleToCSS ATTR_NAME_MAP g this).
Local Abbreviation generate_loop' := (generate_loop styleToCSS ATTR_NAME_MAP g this).

Lemma generate_loop_spec elements (fuel : nat) (st : state) :
  generator_ok this →
  level_inv elements [] 0 st →
  (currentBlock st ≤ totalBlocks this)%nat →
  (2 * (totalBlocks this - currentBlock st) + 1 ≤ fuel)%nat →
  Forall (level_inv elements [] 0) (generate_states styleToCSS ATTR_NAME_MAP g this fuel st)
  ∧ ∃ st', generate_loop' fuel st = Ok st' ∧ level_inv elements [] 0 st'.
Proof.
  intros Hok. revert st.
  induction fuel as [|fuel IH]; intros st Hinv Hcur Hfuel; [lia |].
  simpl. destruct (Nat.ltb_spec (currentBlock st) (totalBlocks this)) as [Hlt|Hge].
  - destruct (walk_spec styleToCSS ATTR_NAME_MAP g this elements Hok fuel)
      as [Hblock _].
    destruct (Hblock [] 0 st Hinv Hlt) as (st1 & Hst1 & Hinv1 & Hc1); [lia |].
    rewrite Hst1. simpl.
    destruct (IH st1 Hinv1) as [Hall Hloop]; [lia | lia |].
    split; [by apply Forall_cons | done].
  - split; [constructor; [done | constructor] | by exists st].
Qed.

Lemma initial_state_inv elements : level_inv elements [] 0 initial_state.
Proof. split; simpl; auto; done. Qed.
End GenerateFacts.

(** ** Style nesting *)

Section StyleFacts.
Context (styleToCSS : StyleDescr → string) (Entity_get : EntityGetter)
        (ATTR_NAME_MAP : gmap string string).

Local Abbreviation renderStylePiece' := (renderStylePiece styleToCSS ATTR_NAME_MAP).

Lemma configAttrString_none :
  configAttrString styleToCSS ATTR_NAME_MAP None None = "".
Proof. reflexivity. Qed.

(** The nesting under the default style table and order. *)
Lemma renderStylePiece_default this blockType text styleSet :
  inlineStyles this = DEFAULT_STYLE_MAP →
  styleOrder this = DEFAULT_STYLE_ORDER →
  renderStylePiece' this blockType (text, styleSet)
  = Ok (wrap_if (bool_decide (INLINE_STYLE.CODE ∈ styleSet)
                 && negb (bool_decide (blockType = BLOCK_TYPE.CODE))) "code"
       (wrap_if (bool_decide (INLINE_STYLE.STRIKETHROUGH ∈ styleSet)) "del"
       (wrap_if (bool_decide (INLINE_STYLE.UNDERLINE ∈ styleSet)) "ins"
       (wrap_if (bool_decide (INLINE_STYLE.ITALIC ∈ styleSet)) "em"
       (wrap_if (bool_decide (INLINE_STYLE.BOLD ∈ styleSet)) "strong"
          (encodeContent text)))))).
Proof.
  intros Hmap Horder. unfold renderStylePiece. rewrite Hmap, Horder.
  generalize (encodeContent text). intros content.
  unfold DEFAULT_STYLE_ORDER. cbn [foldl bind].
  change (DEFAULT_STYLE_MAP !! INLINE_STYLE.BOLD)
    with (Some (mkRenderConfig (Some "strong") None None)).
  change (DEFAULT_STYLE_MAP !! INLINE_STYLE.ITALIC)
    with (Some (mkRenderConfig (Some "em") None None)).
  change (DEFAULT_STYLE_MAP !! INLINE_STYLE.UNDERLINE)
    with (Some (mkRenderConfig (Some "ins") None None)).
  change (DEFAULT_STYLE_MAP !! INLINE_STYLE.STRIKETHROUGH)
    with (Some (mkRenderConfig (Some "del") None None)).
  change (DEFAULT_STYLE_MAP !! INLINE_STYLE.CODE)
    with (Some (mkRenderConfig (Some "code") None None)).
  cbn [element attributes style default]. rewrite configAttrString_none.
  destruct (bool_decide (INLINE_STYLE.BOLD ∈ styleSet));
    destruct (bool_decide (INLINE_STYLE.ITALIC ∈ styleSet));
    destruct (bool_decide (INLINE_STYLE.UNDERLINE ∈ styleSet));
    destruct (bool_decide (INLINE_STYLE.STRIKETHROUGH ∈ styleSet));
    destruct (bool_decide (INLINE_STYLE.CODE ∈ styleSet));
    destruct (bool_decide (blockType = BLOCK_TYPE.CODE));
    reflexivity.
Qed.

(** Only the members of the style set matter, not their order. *)
Lemma renderStylePiece_members this blockType text styleSet1 styleSet2 :
  (∀ s, s ∈ styleSet1 ↔ s ∈ styleSet2) →
  renderStylePiece' this blockType (text, styleSet1)
  = renderStylePiece' this blockType (text, styleSet2).
Proof.
  intros Hsame. unfold renderStylePiece.
  apply foldl_ext_in. intros acc styleName _.
  by rewrite (bool_decide_ext _ _ (Hsame styleName)).
Qed.

Lemma constructor_default_styles g contentState :
  let this := (constructor Entity_get g contentState None).2 in
  inlineStyles this = DEFAULT_STYLE_MAP ∧ styleOrder this = DEFAULT_STYLE_ORDER.
Proof. done. Qed.
End StyleFacts.

(** ** Default attribute resolution *)

Lemma DATA_TO_ATTR_get entityAttributesMap entityType entity attrKey dataKey :
  (∀ k, attr_target (default ∅ (entityAttributesMap !! entityType)) k = Some attrKey
        ↔ k = dataKey) →
  Obj.get attrKey (DATA_TO_ATTR_DEFAULT entityAttributesMap entityType entity)
  = Obj.get dataKey (EntityInstance.getData entity).
Proof.
  intros Htarget. unfold DATA_TO_ATTR_DEFAULT.
  set (attrMap := default ∅ (entityAttributesMap !! entityType)) in *.
  set (data := EntityInstance.getData entity).
  set (step := λ (attrs : Attributes) (dataKey : string), _).
  assert (Hstep : ∀ attrs k,
            Obj.get attrKey (step attrs k)
            = if decide (k = dataKey) then Some (default None (Obj.get dataKey data))
              else Obj.get attrKey attrs).
  { intros attrs k. subst step. simpl.
    specialize (Htarget k). unfold attr_target in Htarget.
    destruct (attrMap !! k) as [a|].
    - rewrite Obj_get_set. destruct (decide (k = dataKey)) as [->|Hne].
      + assert (Some a = Some attrKey) as [= ->] by by apply Htarget.
        by rewrite decide_True.
      + rewrite decide_False; [done |]. intros ->. apply Hne. by apply Htarget.
    - destruct (DATA_ATTRIBUTE_test k).
      + rewrite Obj_get_set. destruct (decide (k = dataKey)) as [->|Hne].
        * assert (Some dataKey = Some attrKey) as [= ->] by by apply Htarget.
          by rewrite decide_True.
        * rewrite decide_False; [done |]. intros ->. apply Hne. by apply Htarget.
      + destruct (decide (k = dataKey)) as [->|Hne]; [|done].
        by assert (None = Some attrKey) by by apply Htarget. }
  assert (Hfold : ∀ keys attrs,
            Obj.get attrKey (foldl step attrs keys)
            = if bool_decide (dataKey ∈ keys)
              then Some (default None (Obj.get dataKey data))
              else Obj.get attrKey attrs).
  { induction keys as [|k keys IH]; intros attrs; simpl; [done |].
    rewrite IH, Hstep.
    destruct (decide (k = dataKey)) as [->|Hne].
    - rewrite (bool_decide_eq_true_2 (dataKey ∈ dataKey :: keys)) by left.
      by case_bool_decide.
    - case_bool_decide as Hin.
      + by rewrite bool_decide_eq_true_2 by by right.
      + rewrite bool_decide_eq_false_2; [done |].
        intros [?|?]%elem_of_cons; [by apply Hne | done]. }
  rewrite Hfold. simpl. case_bool_decide as Hin.
  - by destruct (Obj_keys_get _ _ Hin) as [v ->].
  - by rewrite Obj_get_keys.
Qed.

Lemma LINK_ATTR_MAP_lookup k a :
  LINK_ATTR_MAP !! k = Some a ↔
  (k = "url" ∧ a = "href") ∨ (k = "rel" ∧ a = "rel") ∨ (k = "target" ∧ a = "target")
  ∨ (k = "title" ∧ a = "title") ∨ (k = "className" ∧ a = "class").
Proof.
  unfold LINK_ATTR_MAP. rewrite !lookup_insert_Some, lookup_empty.
  intuition (subst; first [done | auto 10]).
Qed.

Lemma IMAGE_ATTR_MAP_lookup k a :
  IMAGE_ATTR_MAP !! k = Some a ↔
  (k = "src" ∧ a = "src") ∨ (k = "height" ∧ a = "height") ∨ (k = "width" ∧ a = "width")
  ∨ (k = "alt" ∧ a = "alt") ∨ (k = "className" ∧ a = "class").
Proof.
  unfold IMAGE_ATTR_MAP. rewrite !lookup_insert_Some, lookup_empty.
  intuition (subst; first [done | auto 10]).
Qed.

Lemma initial_attr_maps entityType :
  let attrMap := default ∅ (ENTITY_ATTR_MAP initial_globals !! entityType) in
  attrMap = LINK_ATTR_MAP ∨ attrMap = IMAGE_ATTR_MAP ∨ attrMap = ∅.
Proof.
  simpl.
  destruct (decide (entityType = ENTITY_TYPE.LINK)) as [->|Hl]; [by left |].
  destruct (decide (entityType = ENTITY_TYPE.IMAGE)) as [->|Hi]; [by right; left |].
  right; right. by rewrite !lookup_insert_ne, lookup_empty by done.
Qed.

(** With the built-in tables, [url] is the only data key written to
    [href] of a link. *)
Lemma link_href_target k :
  attr_target LINK_ATTR_MAP k = Some "href" ↔ k = "url".
Proof.
  unfold attr_target. split.
  - destruct (LINK_ATTR_MAP !! k) as [a|] eqn:E.
    + intros [= ->]. apply LINK_ATTR_MAP_lookup in E.
      by destruct E as [[-> _]|[[_ ?]|[[_ ?]|[[_ ?]|[_ ?]]]]].
    + destruct (DATA_ATTRIBUTE_test k) eqn:Ht; [|done]. intros [= ->]. done.
  - intros ->. reflexivity.
Qed.

(** With the built-in tables, a [data-*] key is written to itself and no
    other data key is. *)
Lemma data_attribute_target entityType k dataKey :
  DATA_ATTRIBUTE_test dataKey = true →
  attr_target (default ∅ (ENTITY_ATTR_MAP initial_globals !! entityType)) k = Some dataKey
  ↔ k = dataKey.
Proof.
  intros Htest. unfold attr_target.
  destruct (initial_attr_maps entityType) as [-> | [-> | ->]].
  - split.
    + destruct (LINK_ATTR_MAP !! k) as [a|] eqn:E.
      * intros [= ->]. apply LINK_ATTR_MAP_lookup in E.
        destruct E as [[_ ->]|[[_ ->]|[[_ ->]|[[_ ->]|[_ ->]]]]]; done.
      * destruct (DATA_ATTRIBUTE_test k); [by intros [= ->] | done].
    + intros ->. destruct (LINK_ATTR_MAP !! dataKey) as [a|] eqn:E.
      * apply LINK_ATTR_MAP_lookup in E.
        destruct E as [[-> _]|[[-> _]|[[-> _]|[[-> _]|[-> _]]]]]; done.
      * by rewrite Htest.
  - split.
    + destruct (IMAGE_ATTR_MAP !! k) as [a|] eqn:E.
      * intros [= ->]. apply IMAGE_ATTR_MAP_lookup in E.
        destruct E as [[_ ->]|[[_ ->]|[[_ ->]|[[_ ->]|[_ ->]]]]]; done.
      * destruct (DATA_ATTRIBUTE_test k); [by intros [= ->] | done].
    + intros ->. destruct (IMAGE_ATTR_MAP !! dataKey) as [a|] eqn:E.
      * apply IMAGE_ATTR_MAP_lookup in E.
        destruct E as [[-> _]|[[-> _]|[[-> _]|[[-> _]|[-> _]]]]]; done.
      * by rewrite Htest.
  - rewrite lookup_empty. split.
    + destruct (DATA_ATTRIBUTE_test k); [by intros [= ->] | done].
    + intros ->. by rewrite Htest.
Qed.

(** ** Entity ranges: which formatter runs *)

Section EntityFacts.
Context (styleToCSS : StyleDescr → string) (ATTR_NAME_MAP : gmap string string).

Local Abbreviation renderStylePiece' := (renderStylePiece styleToCSS ATTR_NAME_MAP).
Local Abbreviation renderEntityPiece' := (renderEntityPiece styleToCSS ATTR_NAME_MAP).

Lemma renderEntityPiece_markup g this blockType entityKey stylePieces :
  renderEntityPiece' g this blockType (entityKey, stylePieces)
  = (contents ←' mapM (renderStylePiece' this blockType) stylePieces;
     entity_markup g this entityKey (JS.join "" contents)).
Proof.
  unfold renderEntityPiece, entity_markup, resolve, attrs_renderer.
  destruct (mapM _ stylePieces) as [contents|e]; [|done]. cbn [bind].
  destruct (if truthy entityKey then _ else None) as [entity|]; [|done].
  cbn [fmap option_fmap option_map].
  destruct (ENTITY_FORMATTER_MAP g !! JS.toUpperCase (EntityInstance.getType entity))
    as [formatter|] eqn:Hfmt.
  - rewrite bool_decide_eq_true_2 by by eexists. cbn [negb].
    destruct (entityAttributesRendererMap this
              !! JS.toUpperCase (EntityInstance.getType entity)) as [r|];
      [done |].
    by destruct (entityAttributesRendererMap this !! "DEFAULT").
  - rewrite bool_decide_eq_false_2; [done |]. by intros [? ?].
Qed.

Lemma entity_markup_override g this entityKey content f :
  (JS.toUpperCase ∘ EntityInstance.getType) <$> resolve this entityKey ≠ Some "DEFAULT" →
  entity_markup (override_default f g) this entityKey content
  = entity_markup g this entityKey content.
Proof.
  intros Hty. unfold entity_markup.
  destruct (resolve this entityKey) as [entity|]; [|done]. simpl in *.
  assert (Hne : JS.toUpperCase (EntityInstance.getType entity) ≠ "DEFAULT")
    by (intros E; apply Hty; by rewrite E).
  unfold assign. rewrite lookup_union_r by by rewrite lookup_singleton_ne.
  destruct (ENTITY_FORMATTER_MAP g !! _); [|done].
  destruct (attrs_renderer this _) as [[|r]|]; done.
Qed.
End EntityFacts.

(** ** The output of a block *)

Lemma bind_inv {A B} (m : res A) (k : A → res B) (b : B) :
  bind m k = Ok b → ∃ a, m = Ok a ∧ k a = Ok b.
Proof. apply bind_Ok. Qed.

Lemma indent_inv st st' :
  indent st = Ok st' → st' = push (Indent (indentLevel st)) st.
Proof. unfold indent. destruct (indentLevel st <? 0); [done | by intros [= <-]]. Qed.

Lemma closeWrapperTag_output st st' :
  closeWrapperTag st = Ok st' → ∃ suffix, output st' = output st ++ suffix.
Proof.
  unfold closeWrapperTag. destruct (truthy (wrapperTag st)).
  - intros (st1 & ->%indent_inv & [= <-])%bind_inv. simpl.
    eexists. by rewrite <- app_assoc.
  - intros [= <-]. exists []. by rewrite app_nil_r.
Qed.

Lemma openWrapperTag_output w st st' :
  openWrapperTag w st = Ok st' → ∃ suffix, output st' = output st ++ suffix.
Proof.
  unfold openWrapperTag.
  intros (st1 & ->%indent_inv & [= <-])%bind_inv. simpl.
  eexists. by rewrite <- app_assoc.
Qed.

Lemma switch_wrapper_output w st st' :
  switch_wrapper w st = Ok st' → ∃ suffix, output st' = output st ++ suffix.
Proof.
  unfold switch_wrapper. destruct (bool_decide (wrapperTag st ≠ w)).
  - intros (st1 & H1 & H2)%bind_inv.
    assert (∃ suffix, output st1 = output st ++ suffix) as [s1 Hs1].
    { destruct (truthy (wrapperTag st)); [by eapply closeWrapperTag_output |].
      injection H1 as <-. exists []. by rewrite app_nil_r. }
    destruct (truthy w).
    + apply openWrapperTag_output in H2 as [s2 Hs2].
      exists (s1 ++ s2). by rewrite Hs2, Hs1, app_assoc.
    + injection H2 as <-. by exists s1.
  - intros [= <-]. exists []. by rewrite app_nil_r.
Qed.

Section BlockOutput.
Context (styleToCSS : StyleDescr → string) (ATTR_NAME_MAP : gmap string string).
Context (g : globals) (this : MarkupGenerator).

Local Abbreviation processBlock' := (processBlock styleToCSS ATTR_NAME_MAP g this).
Local Abbreviation processBlocksAtDepth' :=
  (processBlocksAtDepth styleToCSS ATTR_NAME_MAP g this).
Local Abbreviation renderBlockContent' :=
  (renderBlockContent styleToCSS ATTR_NAME_MAP g this).
Local Abbreviation start_tags' := (start_tags styleToCSS ATTR_NAME_MAP this).

Lemma writeStartTag_output block st :
  output (writeStartTag styleToCSS ATTR_NAME_MAP this block st)
  = output st ++ start_tags' block.
Proof.
  unfold writeStartTag, start_tags, blockAttrString.
  generalize (match Options.blockStyleFn (options this) with
              | Some blockStyleFn =>
                  configAttrString styleToCSS ATTR_NAME_MAP
                    (attributes (default (mkRenderConfig None None None)
                                   (blockStyleFn block)))
                    (style (default (mkRenderConfig None None None)
                              (blockStyleFn block)))
              | None => ""
              end).
  intros attrString. revert st.
  induction (getTags (ContentBlock.getType block)) as [|tag tags IH]; intros st; simpl.
  - by rewrite app_nil_r.
  - rewrite IH. simpl. by rewrite <- app_assoc.
Qed.

(** A block that no custom renderer handles is emitted as its start
    tags, its rendered content, the nested blocks if any, and its end
    tags. *)
Lemma walk_output (fuel : nat) :
  (∀ st st' block,
     blocks this !! currentBlock st = Some block →
     processBlock' fuel st = Ok st' →
     ∃ pre, match customOutput this block with
            | Some html => output st' = output st ++ pre ++ [CustomOutput html; Newline]
            | None =>
                ∃ content nested,
                  renderBlockContent' block = Ok content
                  ∧ output st'
                    = output st ++ pre ++ start_tags' block ++ [Content content]
                      ++ nested ++ [EndTags (getTags (ContentBlock.getType block))]
            end)
  ∧ (∀ depth st st',
       processBlocksAtDepth' fuel depth st = Ok st' →
       ∃ suffix, output st' = output st ++ suffix).
Proof.
  induction fuel as [|fuel [IHblock IHdepth]]; [done |].
  split.
  - intros st st' block Hblock.
    rewrite processBlock_S. unfold processBlock_body. rewrite Hblock.
    fold (switch_wrapper (getWrapperTag (ContentBlock.getType block)) st).
    fold (customOutput this block).
    intros (st1 & [s1 Hs1]%switch_wrapper_output & Hrest)%bind_inv.
    apply bind_inv in Hrest as (st2 & ->%indent_inv & Hrest).
    exists (s1 ++ [Indent (indentLevel st1)]).
    destruct (customOutput this block) as [html|].
    + injection Hrest as <-. simpl. rewrite Hs1.
      by rewrite <- !app_assoc.
    + apply bind_inv in Hrest as (content & Hcontent & Hrest).
      apply bind_inv in Hrest as (st5 & Hnest & [= <-]).
      exists content.
      set (st4 := push (Content content) _) in *.
      assert (Ho4 : output st4
                    = output st ++ (s1 ++ [Indent (indentLevel st1)])
                      ++ start_tags' block ++ [Content content]).
      { subst st4. simpl. rewrite writeStartTag_output. simpl.
        rewrite Hs1. by rewrite <- !app_assoc. }
      assert (∃ nested, output st5 = output st4 ++ nested) as [nested Hnested].
      { destruct (getNextBlock this st4) as [nextBlock|];
          [|injection Hnest as <-; exists []; simpl; by rewrite app_nil_r].
        destruct (canHaveDepth (ContentBlock.getType block) && _);
          [|injection Hnest as <-; exists []; simpl; by rewrite app_nil_r].
        apply bind_inv in Hnest as (st6 & [s6 Hs6]%IHdepth & ->%indent_inv).
        revert Hs6. state_simpl. intros ->.
        eexists. by rewrite <- !app_assoc. }
      exists nested. split; [done |].
      unfold writeEndTag. simpl. rewrite Hnested, Ho4.
      by rewrite <- !app_assoc.
  - intros depth st st'. rewrite processBlocksAtDepth_S.
    destruct (blocks this !! currentBlock st) as [block|] eqn:Hblock;
      [|apply closeWrapperTag_output].
    destruct (ContentBlock.getDepth block =? depth); [|apply closeWrapperTag_output].
    intros (st1 & H1 & [s2 Hs2]%IHdepth)%bind_inv.
    destruct (IHblock st st1 block Hblock H1) as [pre Hpre].
    destruct (customOutput this block).
    + eexists. rewrite Hs2, Hpre. by rewrite <- !app_assoc.
    + destruct Hpre as (content & nested & _ & Hpre).
      eexists. rewrite Hs2, Hpre. by rewrite <- !app_assoc.
Qed.

Lemma writeStartTag_eq block st :
  writeStartTag styleToCSS ATTR_NAME_MAP this block st
  = mkState (output st ++ start_tags' block) (currentBlock st) (indentLevel st)
      (wrapperTag st).
Proof.
  unfold writeStartTag, start_tags, blockAttrString.
  generalize (match Options.blockStyleFn (options this) with
              | Some blockStyleFn =>
                  configAttrString styleToCSS ATTR_NAME_MAP
                    (attributes (default (mkRenderConfig None None None)
                                   (blockStyleFn block)))
                    (style (default (mkRenderConfig None None None)
                              (blockStyleFn block)))
              | None => ""
              end).
  intros attrString. revert st.
  induction (getTags (ContentBlock.getType block)) as [|tag tags IH]; intros st; simpl.
  - destruct st. simpl. by rewrite app_nil_r.
  - rewrite IH. state_simpl. by rewrite <- app_assoc.
Qed.

(** [processBlock] on a block whose successor is not nested in it. *)
Lemma processBlock_leaf fuel st block st1 content :
  blocks this !! currentBlock st = Some block →
  switch_wrapper (getWrapperTag (ContentBlock.getType block)) st = Ok st1 →
  0 ≤ indentLevel st1 →
  customOutput this block = None →
  renderBlockContent' block = Ok content →
  nests block (blocks this !! S (currentBlock st1)) = false →
  processBlock' (S fuel) st
  = Ok (mkState (output st1 ++ [Indent (indentLevel st1)] ++ start_tags' block
                 ++ [Content content; EndTags (getTags (ContentBlock.getType block))])
          (S (currentBlock st1)) (indentLevel st1) (wrapperTag st1)).
Proof.
  intros Hblock Hswitch Hindent Hcustom Hcontent Hnests.
  rewrite processBlock_S. unfold processBlock_body. rewrite Hblock.
  fold (switch_wrapper (getWrapperTag (ContentBlock.getType block)) st).
  fold (customOutput this block).
  rewrite Hswitch. cbn [bind]. rewrite indent_ok by done. cbn [bind].
  rewrite Hcustom, Hcontent. cbn [bind].
  rewrite writeStartTag_eq. unfold getNextBlock, writeEndTag, nests in *. state_simpl.
  replace (currentBlock st1 + 1)%nat with (S (currentBlock st1)) by lia.
  destruct (blocks this !! S (currentBlock st1)) as [nextBlock|].
  - rewrite Hnests. cbn [bind]. state_simpl. f_equal. f_equal.
    by rewrite <- !app_assoc.
  - cbn [bind]. state_simpl. f_equal. f_equal. by rewrite <- !app_assoc.
Qed.

(** [processBlock] on a list item whose successor is one level deeper. *)
Lemma processBlock_nest fuel st block st1 content nextBlock st6 :
  blocks this !! currentBlock st = Some block →
  switch_wrapper (getWrapperTag (ContentBlock.getType block)) st = Ok st1 →
  0 ≤ indentLevel st1 →
  customOutput this block = None →
  renderBlockContent' block = Ok content →
  blocks this !! S (currentBlock st1) = Some nextBlock →
  nests block (Some nextBlock) = true →
  processBlocksAtDepth' fuel (ContentBlock.getDepth nextBlock)
    (mkState (output st1 ++ [Indent (indentLevel st1)] ++ start_tags' block
              ++ [Content content; Newline])
       (S (currentBlock st1)) (indentLevel st1 + 1) None) = Ok st6 →
  0 ≤ indentLevel st6 - 1 →
  processBlock' (S fuel) st
  = Ok (mkState (output st6 ++ [Indent (indentLevel st6 - 1);
                                EndTags (getTags (ContentBlock.getType block))])
          (currentBlock st6) (indentLevel st6 - 1) (wrapperTag st1)).
Proof.
  intros Hblock Hswitch Hindent Hcustom Hcontent Hnext Hnests Hrun Hindent6.
  rewrite processBlock_S. unfold processBlock_body. rewrite Hblock.
  fold (switch_wrapper (getWrapperTag (ContentBlock.getType block)) st).
  fold (customOutput this block).
  rewrite Hswitch. cbn [bind]. rewrite indent_ok by done. cbn [bind].
  rewrite Hcustom, Hcontent. cbn [bind].
  rewrite writeStartTag_eq. unfold getNextBlock, writeEndTag, nests in *. state_simpl.
  replace (currentBlock st1 + 1)%nat with (S (currentBlock st1)) by lia.
  rewrite Hnext, Hnests.
  replace ((((output st1 ++ [Indent (indentLevel st1)]) ++ start_tags' block)
            ++ [Content content]) ++ [Newline])
    with (output st1 ++ [Indent (indentLevel st1)] ++ start_tags' block
          ++ [Content content; Newline])
    by (rewrite <- !app_assoc; reflexivity).
  rewrite Hrun. cbn [bind]. rewrite indent_ok by (state_simpl; lia).
  cbn [bind]. state_simpl. f_equal. f_equal. by rewrite <- !app_assoc.
Qed.

Lemma processBlocksAtDepth_more fuel depth st block st1 st2 :
  blocks this !! currentBlock st = Some block →
  ContentBlock.getDepth block = depth →
  processBlock' fuel st = Ok st1 →
  processBlocksAtDepth' fuel depth st1 = Ok st2 →
  processBlocksAtDepth' (S fuel) depth st = Ok st2.
Proof.
  intros Hblock Hdepth H1 H2. rewrite processBlocksAtDepth_S, Hblock, Hdepth.
  rewrite Z.eqb_refl, H1. done.
Qed.

Lemma processBlocksAtDepth_end fuel depth st :
  blocks this !! currentBlock st = None →
  processBlocksAtDepth' (S fuel) depth st = closeWrapperTag st.
Proof. intros Hblock. by rewrite processBlocksAtDepth_S, Hblock. Qed.

Lemma generate_loop_more fuel st st1 :
  (currentBlock st < totalBlocks this)%nat →
  processBlock' fuel st = Ok st1 →
  generate_loop styleToCSS ATTR_NAME_MAP g this (S fuel) st
  = generate_loop styleToCSS ATTR_NAME_MAP g this fuel st1.
Proof.
  intros Hlt H1. simpl.
  destruct (Nat.ltb_spec (currentBlock st) (totalBlocks this)); [|lia].
  by rewrite H1.
Qed.

Lemma generate_loop_end fuel st :
  (totalBlocks this ≤ currentBlock st)%nat →
  generate_loop styleToCSS ATTR_NAME_MAP g this (S fuel) st = Ok st.
Proof.
  intros Hge. simpl.
  by destruct (Nat.ltb_spec (currentBlock st) (totalBlocks this)); [lia |].
Qed.
End BlockOutput.

(** ** Trimming *)

Lemma trimStart_app (p s : string) :
  head_nonwhite p = true → JS.trimStart (p +:+ s) = p +:+ s.
Proof.
  destruct p as [|a p]; [done |]. simpl. intros H.
  rewrite append_cons. simpl. by destruct (JS.is_white a).
Qed.

Lemma append_not_nil_r (s t : string) : t ≠ "" → s +:+ t ≠ "".
Proof. by destruct s. Qed.

Lemma trimEnd_app (s t : string) :
  JS.trimEnd t ≠ "" → JS.trimEnd (s +:+ t) = s +:+ JS.trimEnd t.
Proof.
  intros Ht. induction s as [|a s IH]; [done |].
  rewrite !append_cons. simpl. rewrite IH.
  pose proof (append_not_nil_r s _ Ht).
  by destruct (s +:+ JS.trimEnd t).
Qed.

(** ** The nested list of three items *)

Lemma nested_list_string (c0 c1 c2 : string) :
  JS.trim (JS.join "" (fragment_string <$> nested_list_output c0 c1 c2))
  = nested_list_markup c0 c1 c2.
Proof.
  set (P := "<ul>" +:+ nl +:+ "  <li>").
  set (Q := nl +:+ "    <ul>" +:+ nl +:+ "      <li>").
  set (R := "</li>" +:+ nl +:+ "      <li>").
  set (T := "</li>" +:+ nl +:+ "    </ul>" +:+ nl +:+ "  </li>" +:+ nl +:+ "</ul>" +:+ nl).
  assert (JS.join "" (fragment_string <$> nested_list_output c0 c1 c2)
          = P +:+ ((((c0 +:+ Q) +:+ c1) +:+ R) +:+ c2) +:+ T) as ->.
  { rewrite !append_assoc. reflexivity. }
  unfold JS.trim. rewrite trimStart_app by reflexivity.
  rewrite <- append_assoc. rewrite trimEnd_app by done.
  unfold nested_list_markup. rewrite !append_assoc. reflexivity.
Qed.

Lemma nested_list_balanced (c0 c1 c2 : string) :
  balanced true (nested_list_output c0 c1 c2).
Proof. reflexivity. Qed.

Section NestedList.
Context (styleToCSS : StyleDescr → string) (ATTR_NAME_MAP : gmap string string).
Context (g : globals) (this : MarkupGenerator).

Local Abbreviation processBlock' := (processBlock styleToCSS ATTR_NAME_MAP g this).
Local Abbreviation renderBlockContent' :=
  (renderBlockContent styleToCSS ATTR_NAME_MAP g this).

(** The walk over three unordered list items of depths 0, 1 and 1, for a
    generator without block renderers and block style function. *)
Lemma nested_list_walk b0 b1 b2 c0 c1 c2 :
  ContentBlock.getType b0 = BLOCK_TYPE.UNORDERED_LIST_ITEM →
  ContentBlock.getType b1 = BLOCK_TYPE.UNORDERED_LIST_ITEM →
  ContentBlock.getType b2 = BLOCK_TYPE.UNORDERED_LIST_ITEM →
  ContentBlock.getDepth b0 = 0 →
  ContentBlock.getDepth b1 = 1 →
  ContentBlock.getDepth b2 = 1 →
  contentState this = [b0; b1; b2] →
  Options.blockRenderers (options this) = None →
  Options.blockStyleFn (options this) = None →
  renderBlockContent' b0 = Ok c0 →
  renderBlockContent' b1 = Ok c1 →
  renderBlockContent' b2 = Ok c2 →
  generate_state styleToCSS ATTR_NAME_MAP g this
  = Ok (mkState (nested_list_output c0 c1 c2) 3 0 None).
Proof.
  intros T0 T1 T2 D0 D1 D2 Hblocks Hrenderers HstyleFn H0 H1 H2.
  change (contentState this) with (blocks this) in Hblocks.
  assert (Htotal : totalBlocks this = 3%nat) by (unfold totalBlocks; by rewrite Hblocks).
  assert (Hcustom : ∀ b, customOutput this b = None)
    by (intros b; unfold customOutput; by rewrite Hrenderers).
  assert (Hstart : ∀ b, ContentBlock.getType b = BLOCK_TYPE.UNORDERED_LIST_ITEM →
                        start_tags styleToCSS ATTR_NAME_MAP this b = [StartTag "li" ""]).
  { intros b Hb. unfold start_tags, blockAttrString. by rewrite Hb, HstyleFn. }
  set (s1 := [Indent 0; WrapperStart "ul"; Indent 1; StartTag "li" ""; Content c0; Newline]).
  set (s2 := s1 ++ [Indent 2; WrapperStart "ul"; Indent 3; StartTag "li" ""; Content c1;
                    EndTags ["li"]]).
  set (s3 := s2 ++ [Indent 3; StartTag "li" ""; Content c2; EndTags ["li"]]).
  assert (Hblock2 : processBlock' 3 (mkState s2 2 3 (Some "ul"))
                    = Ok (mkState s3 3 3 (Some "ul"))).
  { erewrite (processBlock_leaf _ _ _ _ _ _ b2 (mkState s2 2 3 (Some "ul")) c2);
      [ | by rewrite Hblocks | rewrite T2; reflexivity | done | done | done
        | by rewrite Hblocks ].
    rewrite Hstart, T2 by done. reflexivity. }
  assert (Hblock1 : processBlock' 4 (mkState s1 1 2 None)
                    = Ok (mkState s2 2 3 (Some "ul"))).
  { erewrite (processBlock_leaf _ _ _ _ _ _ b1
                (mkState (s1 ++ [Indent 2; WrapperStart "ul"]) 1 3 (Some "ul")) c1);
      [ | by rewrite Hblocks | rewrite T1; reflexivity | done | done | done
        | rewrite Hblocks; unfold nests; cbn [lookup list_lookup currentBlock];
          rewrite T1, D1, D2; reflexivity ].
    rewrite Hstart, T1 by done. reflexivity. }
  assert (Hrun : processBlocksAtDepth styleToCSS ATTR_NAME_MAP g this 5 1
                   (mkState s1 1 2 None)
                 = Ok (mkState (s3 ++ [Indent 2; WrapperEnd "ul"]) 3 2 None)).
  { eapply processBlocksAtDepth_more; [by rewrite Hblocks | done | exact Hblock1 |].
    eapply processBlocksAtDepth_more; [by rewrite Hblocks | done | exact Hblock2 |].
    rewrite processBlocksAtDepth_end by by rewrite Hblocks. reflexivity. }
  assert (Hblock0 : processBlock' 6 initial_state
                    = Ok (mkState (s3 ++ [Indent 2; WrapperEnd "ul"; Indent 1; EndTags ["li"]])
                            3 1 (Some "ul"))).
  { erewrite (processBlock_nest _ _ _ _ _ _ b0
                (mkState [Indent 0; WrapperStart "ul"] 0 1 (Some "ul")) c0 b1);
      [ | by rewrite Hblocks | rewrite T0; reflexivity | done | done | done
        | by rewrite Hblocks | unfold nests; rewrite T0, D0, D1; reflexivity
        | rewrite Hstart, D1 by done; exact Hrun | done ].
    rewrite T0. reflexivity. }
  unfold generate_state. rewrite Htotal.
  change (2 * 3 + 1)%nat with 7%nat.
  erewrite generate_loop_more; [ | rewrite Htotal; simpl; lia | exact Hblock0 ].
  rewrite generate_loop_end by (rewrite Htotal; simpl; lia).
  reflexivity.
Qed.
End NestedList.

(** ** What the walk reads of the store and of the instance *)

Lemma bind_ext {A B} (m : res A) (k1 k2 : A → res B) :
  (∀ a, k1 a = k2 a) → bind m k1 = bind m k2.
Proof. intros Hk. destruct m; simpl; [apply Hk | done]. Qed.

(** Two generators over the same blocks, each with its store, that give
    the blocks the same attributes, the same custom markup and the same
    content. *)
Section WalkExt.
Context (styleToCSS : StyleDescr → string) (ATTR_NAME_MAP : gmap string string).
Context (g1 g2 : globals) (this1 this2 : MarkupGenerator).
Hypothesis Hcontent : contentState this1 = contentState this2.
Hypothesis HstyleFn :
  Options.blockStyleFn (options this1) = Options.blockStyleFn (options this2).
Hypothesis Hcustom : ∀ block,
  block ∈ blocks this1 → customOutput this1 block = customOutput this2 block.
Hypothesis Hrender : ∀ block,
  block ∈ blocks this1 →
  renderBlockContent styleToCSS ATTR_NAME_MAP g1 this1 block
  = renderBlockContent styleToCSS ATTR_NAME_MAP g2 this2 block.

Lemma processBlock_body_ext rec1 rec2 st :
  (∀ depth st, rec1 depth st = rec2 depth st) →
  processBlock_body styleToCSS ATTR_NAME_MAP g1 this1 rec1 st
  = processBlock_body styleToCSS ATTR_NAME_MAP g2 this2 rec2 st.
Proof.
  intros Hrec. unfold processBlock_body, getNextBlock, blocks.
  rewrite <- Hcontent.
  destruct (contentState this1 !! currentBlock st) as [block|] eqn:Hblock; [|done].
  apply list_elem_of_lookup_2 in Hblock.
  apply bind_ext. intros st1. apply bind_ext. intros st2.
  fold (customOutput this1 block). fold (customOutput this2 block).
  rewrite <- Hcustom by done.
  destruct (customOutput this1 block); [done |].
  rewrite Hrender by done.
  unfold writeStartTag. rewrite HstyleFn.
  apply bind_ext. intros content.
  destruct (contentState this1 !! (_ + 1)%nat) as [nextBlock|]; [|done].
  destruct (canHaveDepth (ContentBlock.getType block) && _); [|done].
  by rewrite Hrec.
Qed.

Lemma walk_ext (fuel : nat) :
  (∀ st, processBlock styleToCSS ATTR_NAME_MAP g1 this1 fuel st
         = processBlock styleToCSS ATTR_NAME_MAP g2 this2 fuel st)
  ∧ (∀ depth st, processBlocksAtDepth styleToCSS ATTR_NAME_MAP g1 this1 fuel depth st
                 = processBlocksAtDepth styleToCSS ATTR_NAME_MAP g2 this2 fuel depth st).
Proof.
  induction fuel as [|fuel [IHblock IHdepth]]; [done |].
  split.
  - intros st. rewrite !processBlock_S. by apply processBlock_body_ext.
  - intros depth st. rewrite !processBlocksAtDepth_S. unfold blocks. rewrite <- Hcontent.
    destruct (contentState this1 !! currentBlock st) as [block|]; [|done].
    destruct (ContentBlock.getDepth block =? depth); [|done].
    rewrite IHblock. apply bind_ext. intros st1. apply IHdepth.
Qed.

Lemma generate_ext :
  generate styleToCSS ATTR_NAME_MAP g1 this1 = generate styleToCSS ATTR_NAME_MAP g2 this2.
Proof.
  unfold generate, generate_state, totalBlocks, blocks. rewrite <- Hcontent.
  f_equal. f_equal.
  generalize (2 * length (contentState this1) + 1)%nat initial_state.
  intros fuel. induction fuel as [|fuel IH]; intros st; simpl; [done |].
  unfold totalBlocks, blocks. rewrite <- Hcontent.
  destruct (currentBlock st <? length (contentState this1))%nat; [|done].
  destruct (walk_ext fuel) as [-> _]. by apply bind_ext.
Qed.
End WalkExt.

(** ** The entity keys of a block *)

Lemma runs_key {A K} (same : K → K → bool) (key : A → K) (l : list A) k xs :
  (k, xs) ∈ runs same key l → ∃ x, x ∈ l ∧ k = key x.
Proof.
  revert k xs. induction l as [|x l IH]; intros k xs; simpl.
  - by intros ?%elem_of_nil.
  - destruct (runs same key l) as [|[k' xs'] rest].
    + intros [= -> ->]%list_elem_of_singleton. exists x. split; [left | done].
    + destruct (same (key x) k').
      * intros [[= -> ->] | Hin]%elem_of_cons.
        -- exists x. split; [left | done].
        -- destruct (IH k xs) as (y & Hy & ->); [by right |].
           exists y. split; [by right | done].
      * intros [[= -> ->] | Hin]%elem_of_cons.
        -- exists x. split; [left | done].
        -- destruct (IH k xs Hin) as (y & Hy & ->).
           exists y. split; [by right | done].
Qed.

Lemma zip_meta_elem text metas c m :
  (c, m) ∈ zip_meta text metas → m ∈ metas ∨ m = no_meta.
Proof.
  revert metas. induction text as [|a text IH]; intros metas; simpl.
  - by intros ?%elem_of_nil.
  - destruct metas as [|m' metas].
    + intros [[= -> ->] | Hin]%elem_of_cons; [by right |].
      destruct (IH [] Hin) as [?%elem_of_nil | ->]; [done | by right].
    + intros [[= -> ->] | Hin]%elem_of_cons; [left; left |].
      destruct (IH metas Hin) as [? | ->]; [left; by right | by right].
Qed.

(** The key of an entity range is the key of a character of the block. *)
Lemma getEntityRanges_key text metas entityKey stylePieces key :
  (entityKey, stylePieces) ∈ getEntityRanges text metas →
  entityKey = Some key →
  ∃ meta, meta ∈ metas ∧ CharacterMetadata.getEntity meta = Some key.
Proof.
  unfold getEntityRanges. intros ([k chars] & [= <- _] & Hin)%list_elem_of_fmap Hkey.
  apply runs_key in Hin as ([c m] & Hcm & ->). simpl in Hkey.
  apply zip_meta_elem in Hcm as [Hm | ->]; [by exists m | done].
Qed.


(** * Properties of the generator *)

(** ** The escapers *)

Lemma count_char_app (c : ascii) (s t : string) :
  count_char c (s +:+ t) = (count_char c s + count_char c t)%nat.
Proof.
  induction s as [|a s IH]; [done |].
  rewrite append_cons. simpl. rewrite IH. lia.
Qed.

Lemma content_entity_cases (a : ascii) :
  (a = "&"%char ∧ content_entity a = "&amp;")
  ∨ (a = "<"%char ∧ content_entity a = "&lt;")
  ∨ (a = ">"%char ∧ content_entity a = "&gt;")
  ∨ (a = JS.nbsp ∧ content_entity a = "&nbsp;")
  ∨ (a = JS.newline ∧ content_entity a = BREAK +:+ nl)
  ∨ (a ≠ "&"%char ∧ a ≠ "<"%char ∧ a ≠ ">"%char ∧ a ≠ JS.nbsp ∧ a ≠ JS.newline
     ∧ content_entity a = String a "").
Proof.
  unfold content_entity. repeat case_decide; subst; auto 12.
Qed.

Lemma attr_entity_cases (a : ascii) :
  (a = "&"%char ∧ attr_entity a = "&amp;")
  ∨ (a = "<"%char ∧ attr_entity a = "&lt;")
  ∨ (a = ">"%char ∧ attr_entity a = "&gt;")
  ∨ (a = JS.dquote ∧ attr_entity a = "&quot;")
  ∨ (a ≠ "&"%char ∧ a ≠ "<"%char ∧ a ≠ ">"%char ∧ a ≠ JS.dquote
     ∧ attr_entity a = String a "").
Proof.
  unfold attr_entity. repeat case_decide; subst; auto 12.
Qed.

Ltac entity_cases a :=
  first [ destruct (content_entity_cases a)
            as [[-> ->]|[[-> ->]|[[-> ->]|[[-> ->]|[[-> ->]|(?&?&?&?&?& ->)]]]]]
        | destruct (attr_entity_cases a)
            as [[-> ->]|[[-> ->]|[[-> ->]|[[-> ->]|(?&?&?&?& ->)]]]] ].

Ltac count_entity a :=
  entity_cases a;
  [ reflexivity ..
  | cbn [count_char];
    repeat (rewrite decide_False by (done || congruence));
    repeat (rewrite decide_True by done); reflexivity ].

Lemma count_content_entity (a : ascii) :
  count_char "<" (content_entity a) = count_char JS.newline (String a "")
  ∧ count_char ">" (content_entity a) = count_char JS.newline (String a "")
  ∧ count_char JS.nbsp (content_entity a) = 0%nat
  ∧ count_char "&" (content_entity a)
    = (count_char "&" (String a "") + count_char "<" (String a "")
       + count_char ">" (String a "") + count_char JS.nbsp (String a ""))%nat.
Proof. split_and!; count_entity a. Qed.

Lemma count_attr_entity (a : ascii) :
  count_char JS.dquote (attr_entity a) = 0%nat
  ∧ count_char "<" (attr_entity a) = 0%nat
  ∧ count_char ">" (attr_entity a) = 0%nat
  ∧ count_char "&" (attr_entity a)
    = (count_char "&" (String a "") + count_char "<" (String a "")
       + count_char ">" (String a "") + count_char JS.dquote (String a ""))%nat.
Proof. split_and!; count_entity a. Qed.

Lemma count_char_cons (c a : ascii) (s : string) :
  count_char c (String a s) = (count_char c (String a "") + count_char c s)%nat.
Proof. simpl. lia. Qed.

(** X1.  In the result of [encodeContent] the only characters [<] and [>]
    are those of the line breaks that it puts before the line feeds of the
    text: there are as many of each as the text has line feeds.  No
    non-breaking space is left, and the ampersands are those of the text and
    one for every [<], [>] and non-breaking space that was escaped. *)
Theorem encodeContent_reserved_characters (text : string) :
  count_char "<" (encodeContent text) = count_char JS.newline text
  ∧ count_char ">" (encodeContent text) = count_char JS.newline text
  ∧ count_char JS.nbsp (encodeContent text) = 0%nat
  ∧ count_char "&" (encodeContent text)
    = (count_char "&" text + count_char "<" text + count_char ">" text
       + count_char JS.nbsp text)%nat.
Proof.
  rewrite encodeContent_escape.
  induction text as [|a text (IH1 & IH2 & IH3 & IH4)]; [done |].
  cbn [escape]. rewrite !count_char_app, IH1, IH2, IH3, IH4.
  destruct (count_content_entity a) as (-> & -> & -> & ->).
  rewrite !(count_char_cons _ a text). lia.
Qed.

(** X2.  The result of [encodeAttr] has no double quote, no [<] and no
    [>]; its ampersands are those of the text and one for every character
    that was escaped. *)
Theorem encodeAttr_reserved_characters (text : string) :
  count_char JS.dquote (encodeAttr text) = 0%nat
  ∧ count_char "<" (encodeAttr text) = 0%nat
  ∧ count_char ">" (encodeAttr text) = 0%nat
  ∧ count_char "&" (encodeAttr text)
    = (count_char "&" text + count_char "<" text + count_char ">" text
       + count_char JS.dquote text)%nat.
Proof.
  rewrite encodeAttr_escape.
  induction text as [|a text (IH1 & IH2 & IH3 & IH4)]; [done |].
  cbn [escape]. rewrite !count_char_app, IH1, IH2, IH3, IH4.
  destruct (count_attr_entity a) as (-> & -> & -> & ->).
  rewrite !(count_char_cons _ a text). lia.
Qed.

Lemma escape_injective (f : ascii → string) :
  (∀ a, f a ≠ "") →
  (∀ a b x y, f a +:+ x = f b +:+ y → a = b ∧ x = y) →
  ∀ s t, escape f s = escape f t → s = t.
Proof.
  intros Hne Hprefix. induction s as [|a s IH]; intros [|b t] Heq; simpl in Heq.
  - done.
  - exfalso. symmetry in Heq. destruct (f b) eqn:E; [by apply (Hne b) | done].
  - exfalso. destruct (f a) eqn:E; [by apply (Hne a) | done].
  - apply Hprefix in Heq as [-> Heq]. f_equal. by apply IH.
Qed.

Lemma content_entity_prefix a b x y :
  content_entity a +:+ x = content_entity b +:+ y → a = b ∧ x = y.
Proof.
  entity_cases a; entity_cases b; unfold BREAK, nl;
    repeat first [rewrite append_cons | rewrite append_nil_l];
    intros Heq; simplify_eq/=; done.
Qed.

Lemma attr_entity_prefix a b x y :
  attr_entity a +:+ x = attr_entity b +:+ y → a = b ∧ x = y.
Proof.
  entity_cases a; entity_cases b; unfold BREAK, nl;
    repeat first [rewrite append_cons | rewrite append_nil_l];
    intros Heq; simplify_eq/=; done.
Qed.

(** X3.  The escapers lose nothing: two texts have the same escaped form
    only when they are the same text. *)
Theorem escapers_injective :
  (∀ s t, encodeContent s = encodeContent t ↔ s = t)
  ∧ (∀ s t, encodeAttr s = encodeAttr t ↔ s = t).
Proof.
  split; intros s t; (split; [|by intros ->]).
  - rewrite !encodeContent_escape. apply escape_injective.
    + intros a. by entity_cases a.
    + apply content_entity_prefix.
  - rewrite !encodeAttr_escape. apply escape_injective.
    + intros a. by entity_cases a.
    + apply attr_entity_prefix.
Qed.

(** ** The attribute serializer and whitespace *)

Lemma join_empty_app (l1 l2 : list string) :
  JS.join "" (l1 ++ l2) = JS.join "" l1 +:+ JS.join "" l2.
Proof.
  induction l1 as [|x l1 IH]; [done |].
  change ((x :: l1) ++ l2) with (x :: (l1 ++ l2)).
  assert (Hcons : ∀ l, JS.join "" (x :: l) = x +:+ JS.join "" l).
  { intros [|y l]; simpl; [by rewrite append_nil_r | done]. }
  by rewrite !Hcons, IH, append_assoc.
Qed.

Lemma Obj_get_NoDup {A} (o : jsobj A) (k : string) (v : A) :
  NoDup (Obj.keys o) → (k, v) ∈ o → Obj.get k o = Some v.
Proof.
  unfold Obj.keys. induction o as [|[k' v'] o IH]; intros Hnodup Hin.
  - by apply elem_of_nil in Hin.
  - apply NoDup_cons in Hnodup as [Hk' Hnodup]. simpl.
    apply elem_of_cons in Hin as [[= -> ->]|Hin]; [by rewrite decide_True |].
    rewrite decide_False; [by apply IH |].
    intros ->. apply Hk'. apply list_elem_of_fmap. by exists (k, v).
Qed.

(** X4.  [stringifyAttrs] gives the empty string for [null]; for an
    object (the keys of an object are distinct) it gives, in the order of the
    keys, the text of every attribute, a space, the name, the equals sign and
    the value escaped by [encodeAttr] between double quotes, and skips the
    attributes whose value is [null] or [undefined]. *)
Theorem stringifyAttrs_entries :
  stringifyAttrs None = ""
  ∧ ∀ attrs, NoDup (Obj.keys attrs) →
      stringifyAttrs (Some attrs) = JS.join "" (omap attr_text attrs).
Proof.
  split; [done |]. intros attrs Hnodup. unfold stringifyAttrs. f_equal.
  assert (Hfold : ∀ (l : Attributes) parts,
            (∀ k v, (k, v) ∈ l → Obj.get k attrs = Some v) →
            foldl (λ parts name,
                     match Obj.get name attrs with
                     | Some (Some value) =>
                         parts ++ [" " +:+ name +:+ "=" +:+ quote +:+ encodeAttr value
                                   +:+ quote]
                     | _ => parts
                     end) parts (Obj.keys l)
            = parts ++ omap attr_text l).
  { induction l as [|[k v] l IH]; intros parts Hget; simpl; [by rewrite app_nil_r |].
    rewrite (Hget k v) by left.
    rewrite IH by (intros; apply Hget; by right).
    destruct v as [value|]; simpl; [by rewrite <- app_assoc | done]. }
  rewrite (Hfold attrs []); [done |]. intros k v. by apply Obj_get_NoDup.
Qed.

(** A link with a [null] attribute among its attributes. *)
Lemma stringifyAttrs_entries_witness :
  stringifyAttrs (Some [("href", Some "a&b"); ("rel", None); ("title", Some "t")])
  = JS.join "" (omap attr_text [("href", Some "a&b"); ("rel", None); ("title", Some "t")]).
Proof.
  apply (proj2 stringifyAttrs_entries). unfold Obj.keys.
  apply (bool_decide_unpack (NoDup ["href"; "rel"; "title"])). vm_compute. exact I.
Defined.

Lemma string_get_ext (s t : string) :
  (∀ i, String.get i s = String.get i t) → s = t.
Proof.
  revert t. induction s as [|a s IH]; intros [|b t] H.
  - done.
  - by specialize (H 0%nat).
  - by specialize (H 0%nat).
  - pose proof (H 0%nat) as [= ->]. f_equal. apply IH. intros i. apply (H (S i)).
Qed.

Lemma get_ge_length (s : string) (i : nat) :
  (String.length s ≤ i)%nat → String.get i s = None.
Proof.
  revert i. induction s as [|a s IH]; intros i Hi; [done |].
  destruct i as [|i]; simpl in *; [lia |]. apply IH. lia.
Qed.

(** The spaces that [preserveWhitespace] leaves. *)
Lemma preserveWhitespace_space (text : string) (i : nat) :
  String.get i (preserveWhitespace text) = Some JS.space →
  i ≠ 0%nat ∧ S i ≠ String.length text
  ∧ ∀ j, i = S j → String.get j (preserveWhitespace text) ≠ Some JS.space.
Proof.
  intros Hi.
  pose proof (get_Some_lt _ _ _ Hi) as Hlt. rewrite preserveWhitespace_length in Hlt.
  destruct (get_lt_length text i Hlt) as [c Hc].
  rewrite (preserveWhitespace_get text i c Hc) in Hi. injection Hi as Hi.
  unfold preserved_char in Hi.
  destruct (bool_decide (c = JS.space)) eqn:Hsp; [|by apply bool_decide_eq_false in Hsp].
  destruct (bool_decide (i = 0%nat) || bool_decide (S i = String.length text)
            || match i with
               | O => false
               | S j => bool_decide (String.get j text = Some JS.space)
               end) eqn:Hcond; simpl in Hi; [done |].
  apply orb_false_iff in Hcond as [Hcond Hprev].
  apply orb_false_iff in Hcond as [Hfirst%bool_decide_eq_false Hlast%bool_decide_eq_false].
  split_and!; [done | done |].
  intros j -> Hj. apply bool_decide_eq_false in Hprev.
  destruct (get_lt_length text j) as [d Hd]; [lia |].
  rewrite (preserveWhitespace_get text j d Hd) in Hj. injection Hj as Hj.
  unfold preserved_char in Hj.
  destruct (bool_decide (d = JS.space)) eqn:Hd';
    [|apply bool_decide_eq_false in Hd'; simpl in Hj; done].
  apply bool_decide_eq_true in Hd'. subst d.
  by apply Hprev.
Qed.

(** X5.  The result of [preserveWhitespace] has no space that a browser
    would collapse: no space is its first character, its last character or
    follows another space. *)
Theorem preserveWhitespace_leaves_no_collapsible_space (text : string) (i : nat) :
  ¬ boundary_or_repeated_space (preserveWhitespace text) i.
Proof.
  intros [Hi Hwhere].
  destruct (preserveWhitespace_space text i Hi) as (Hfirst & Hlast & Hprev).
  rewrite preserveWhitespace_length in Hwhere.
  destruct Hwhere as [-> | [Hl | (j & -> & Hj)]]; [done | done |].
  by apply (Hprev j).
Qed.

Lemma preserved_char_fixed (text : string) (i : nat) (c : ascii) :
  String.get i text = Some c →
  ¬ boundary_or_repeated_space text i →
  preserved_char text i c = c.
Proof.
  intros Hc Hnot. unfold preserved_char.
  case_bool_decide as Hsp; [|done]. subst c.
  destruct (bool_decide (i = 0%nat) || bool_decide (S i = String.length text)
            || match i with
               | O => false
               | S j => bool_decide (String.get j text = Some JS.space)
               end) eqn:E; [|done].
  exfalso. apply Hnot. split; [done |].
  apply orb_true_iff in E as [E|E]; [apply orb_true_iff in E as [E|E] |].
  - left. by apply bool_decide_eq_true in E.
  - right; left. by apply bool_decide_eq_true in E.
  - destruct i as [|j]; [done |]. right; right. exists j.
    by apply bool_decide_eq_true in E.
Qed.

(** X6.  [preserveWhitespace] changes nothing in a text that it has
    already treated. *)
Theorem preserveWhitespace_idempotent (text : string) :
  preserveWhitespace (preserveWhitespace text) = preserveWhitespace text.
Proof.
  apply string_get_ext. intros i.
  destruct (String.get i (preserveWhitespace text)) as [c|] eqn:Hc.
  - rewrite (preserveWhitespace_get _ i c Hc). f_equal.
    apply preserved_char_fixed; [done |].
    intros [Hi Hwhere].
    destruct (preserveWhitespace_space text i Hi) as (Hfirst & Hlast & Hprev).
    rewrite preserveWhitespace_length in Hwhere.
    destruct Hwhere as [-> | [Hl | (j & -> & Hj)]]; [done | done |].
    by apply (Hprev j).
  - apply get_ge_length. rewrite preserveWhitespace_length.
    destruct (Nat.le_gt_cases (String.length (preserveWhitespace text)) i) as [|Hlt];
      [done |].
    destruct (get_lt_length _ _ Hlt) as [c' Hc']. congruence.
Qed.

(** ** Block tags *)

(** X7.  The three tables of block types agree: the block types that can
    contain deeper blocks ([canHaveDepth]) are those with a wrapper tag
    ([getWrapperTag]), those whose only tag is [li] ([getTags]), and they
    are the two list item types. *)
Theorem list_items_are_the_nesting_blocks (blockType : string) :
  (canHaveDepth blockType = true ↔ is_Some (getWrapperTag blockType))
  ∧ (canHaveDepth blockType = true ↔ getTags blockType = ["li"])
  ∧ (canHaveDepth blockType = true
     ↔ blockType = BLOCK_TYPE.UNORDERED_LIST_ITEM ∨ blockType = BLOCK_TYPE.ORDERED_LIST_ITEM).
Proof.
  destruct (decide (blockType = BLOCK_TYPE.UNORDERED_LIST_ITEM)) as [->|Hul].
  { split_and!; (split; [intros _|reflexivity]); [by eexists | reflexivity | by left]. }
  destruct (decide (blockType = BLOCK_TYPE.ORDERED_LIST_ITEM)) as [->|Hol].
  { split_and!; (split; [intros _|reflexivity]); [by eexists | reflexivity | by right]. }
  unfold canHaveDepth, getWrapperTag, getTags.
  rewrite !(decide_False (P := blockType = BLOCK_TYPE.UNORDERED_LIST_ITEM)) by done.
  rewrite !(decide_False (P := blockType = BLOCK_TYPE.ORDERED_LIST_ITEM)) by done.
  split_and!; (split; [done |]).
  - by intros [? ?].
  - repeat case_decide; done.
  - by intros [?|?].
Qed.

Lemma foldl_unshift {A B} (f : A → B) (l : list A) (acc : list B) :
  foldl (λ output x, f x :: output) acc l = (f <$> reverse l) ++ acc.
Proof.
  revert acc. induction l as [|x l IH]; intros acc; simpl; [done |].
  by rewrite IH, reverse_cons, fmap_app, <- app_assoc.
Qed.

Lemma fragment_string_EndTags (tags : list string) :
  fragment_string (EndTags tags)
  = JS.join "" ((λ tag, "</" +:+ tag +:+ ">") <$> reverse tags) +:+ nl.
Proof.
  destruct tags as [|tag [|tag2 tags]]; [reflexivity | |].
  { change (reverse [tag]) with [tag]. cbn [fragment_string fmap list_fmap JS.join].
    by rewrite !append_assoc. }
  unfold fragment_string. by rewrite foldl_unshift, app_nil_r.
Qed.

(** X8.  [writeEndTag] pushes one string: the end tags of the tags of the
    block type, in the reverse order of [getTags], that is of the start tags
    that [writeStartTag] pushed, and a line feed; this holds of the branch
    for one tag and of the branch for several. *)
Theorem end_tags_close_in_reverse block st :
  let tags := getTags (ContentBlock.getType block) in
  output (writeEndTag block st) = output st ++ [EndTags tags]
  ∧ fragment_string (EndTags tags)
    = JS.join "" ((λ tag, "</" +:+ tag +:+ ">") <$> reverse tags) +:+ nl.
Proof. intros tags. split; [done | apply fragment_string_EndTags]. Qed.

Lemma canHaveDepth_wrapper (blockType : string) :
  canHaveDepth blockType = bool_decide (is_Some (getWrapperTag blockType)).
Proof. unfold canHaveDepth, getWrapperTag. by repeat case_decide. Qed.

Lemma getTags_cons (blockType : string) : ∃ tag tags, getTags blockType = tag :: tags.
Proof. unfold getTags. repeat case_decide; by eexists _, _. Qed.

Lemma canHaveDepth_tags blockType :
  canHaveDepth blockType = true → getTags blockType = ["li"].
Proof.
  unfold canHaveDepth, getTags. repeat case_decide; subst; done.
Qed.

(** ** The constructor *)

Section ConstructorTables.
Context (Entity_get : EntityGetter).

(** X9.  After the constructor, an entry of the module-level formatter
    table, and of the attribute table, is the entry that the options give
    for the key when they give one, and the entry that the table had before
    otherwise: entries are added or replaced, never removed, and the
    attribute map of an entity type is replaced as a whole. *)
Theorem constructor_assigns_tables g document options (k : string) :
  let g' := (constructor Entity_get g document options).1 in
  ENTITY_FORMATTER_MAP g' !! k
  = match (options ≫= Options.entityFormatterMap) ≫= (λ m, m !! k) with
    | Some formatter => Some formatter
    | None => ENTITY_FORMATTER_MAP g !! k
    end
  ∧ ENTITY_ATTR_MAP g' !! k
    = match (options ≫= Options.entityAttributesMap) ≫= (λ m, m !! k) with
      | Some attrMap => Some attrMap
      | None => ENTITY_ATTR_MAP g !! k
      end.
Proof.
  unfold constructor. destruct (combineOrderedStyles _ _) as [inlineStyles styleOrder].
  cbn [fst ENTITY_FORMATTER_MAP ENTITY_ATTR_MAP].
  destruct options as [options|]; cbn [default mbind option_bind]; [|done].
  unfold assign, id. split.
  - destruct (Options.entityFormatterMap options) as [m|]; [|done].
    simpl. rewrite lookup_union. by destruct (m !! k), (ENTITY_FORMATTER_MAP g !! k).
  - destruct (Options.entityAttributesMap options) as [m|]; [|done].
    simpl. rewrite lookup_union. by destruct (m !! k), (ENTITY_ATTR_MAP g !! k).
Qed.

(** X10.  A constructor call without options leaves the module-level
    tables as they are; a second call with the same options leaves them as
    the first call made them. *)
Theorem constructor_store_stable g document document' options :
  (constructor Entity_get g document None).1 = g
  ∧ let g' := (constructor Entity_get g document options).1 in
    (constructor Entity_get g' document' options).1 = g'.
Proof.
  split; [by destruct g |].
  unfold constructor. destruct (combineOrderedStyles _ _) as [inlineStyles styleOrder].
  cbn [fst ENTITY_FORMATTER_MAP ENTITY_ATTR_MAP]. unfold assign.
  f_equal.
  - destruct (Options.entityFormatterMap _) as [m|]; [|done].
    by rewrite (assoc_L (∪)), (idemp_L (∪)).
  - destruct (Options.entityAttributesMap _) as [m|]; [|done].
    by rewrite (assoc_L (∪)), (idemp_L (∪)).
Qed.

(** X11.  The attribute renderer that a generator built by the
    constructor uses for an entity type is the renderer that the options
    give for the type, or else the renderer that they give for [DEFAULT], or
    else the method built by [DATA_TO_ATTR]: there is always one. *)
Theorem attribute_renderer_resolution g document options (entityType : string) :
  let this := (constructor Entity_get g document options).2 in
  let custom := options ≫= Options.entityAttributesRendererMap in
  attrs_renderer this entityType
  = Some (match custom ≫= (λ m, m !! entityType) with
          | Some renderer => UserRenderer renderer
          | None =>
              match custom ≫= (λ m, m !! "DEFAULT") with
              | Some renderer => UserRenderer renderer
              | None => DataToAttrDefault
              end
          end).
Proof.
  unfold attrs_renderer, constructor.
  destruct (combineOrderedStyles _ _) as [inlineStyles styleOrder].
  cbn [snd entityAttributesRendererMap].
  destruct options as [options|]; cbn [default mbind option_bind]; unfold id.
  - destruct (Options.entityAttributesRendererMap options) as [m|]; simpl.
    + unfold assign. rewrite !lookup_union, !lookup_fmap, lookup_singleton_eq.
      destruct (decide (entityType = "DEFAULT")) as [->|Hne].
      * rewrite lookup_singleton_eq. by destruct (m !! "DEFAULT").
      * rewrite lookup_singleton_ne by done.
        by destruct (m !! entityType), (m !! "DEFAULT").
    + destruct (decide (entityType = "DEFAULT")) as [->|Hne].
      * by rewrite lookup_singleton_eq.
      * by rewrite lookup_singleton_ne, lookup_singleton_eq by done.
  - cbn [Options.entityAttributesRendererMap Options.empty].
    destruct (decide (entityType = "DEFAULT")) as [->|Hne].
    + by rewrite lookup_singleton_eq.
    + by rewrite lookup_singleton_ne, lookup_singleton_eq by done.
Qed.
End ConstructorTables.

(** ** Attributes, styles and entities *)

Lemma Obj_keys_is_Some {A} (k : string) (o : jsobj A) :
  k ∈ Obj.keys o ↔ is_Some (Obj.get k o).
Proof.
  split; [apply Obj_keys_get |].
  intros [v Hv]. destruct (decide (k ∈ Obj.keys o)) as [|Hn]; [done |].
  by rewrite (Obj_get_keys _ _ Hn) in Hv.
Qed.

(** X12.  The attributes that the method [DEFAULT] of [DATA_TO_ATTR]
    returns are exactly the targets of the data keys of the entity: the
    attribute that the attribute map of the entity type gives for a data key,
    or the data key itself when it is a [data-] key.  No other data key of
    the entity becomes an attribute. *)
Theorem DATA_TO_ATTR_attributes entityAttributesMap entityType entity (attrKey : string) :
  attrKey ∈ Obj.keys (DATA_TO_ATTR_DEFAULT entityAttributesMap entityType entity)
  ↔ ∃ dataKey, dataKey ∈ Obj.keys (EntityInstance.getData entity)
      ∧ attr_target (default ∅ (entityAttributesMap !! entityType)) dataKey = Some attrKey.
Proof.
  rewrite Obj_keys_is_Some. unfold DATA_TO_ATTR_DEFAULT.
  set (attrMap := default ∅ (entityAttributesMap !! entityType)).
  set (data := EntityInstance.getData entity).
  set (step := λ (attrs : Attributes) (dataKey : string), _).
  assert (Hstep : ∀ attrs k,
            is_Some (Obj.get attrKey (step attrs k))
            ↔ is_Some (Obj.get attrKey attrs) ∨ attr_target attrMap k = Some attrKey).
  { intros attrs k. subst step. unfold attr_target. simpl.
    destruct (attrMap !! k) as [a|].
    - rewrite Obj_get_set. destruct (decide (attrKey = a)) as [->|Hne].
      + split; [by right | by eexists].
      + split; [by left | intros [H|[= H]]; [done | by subst]].
    - destruct (DATA_ATTRIBUTE_test k).
      + rewrite Obj_get_set. destruct (decide (attrKey = k)) as [->|Hne].
        * split; [by right | by eexists].
        * split; [by left | intros [H|[= H]]; [done | by subst]].
      + split; [by left | by intros [H|H]]. }
  assert (Hfold : ∀ keys attrs,
            is_Some (Obj.get attrKey (foldl step attrs keys))
            ↔ is_Some (Obj.get attrKey attrs)
              ∨ ∃ dataKey, dataKey ∈ keys ∧ attr_target attrMap dataKey = Some attrKey).
  { induction keys as [|k keys IH]; intros attrs; simpl.
    - split; [by left | intros [H|(? & H & _)]; [done | by apply elem_of_nil in H]].
    - rewrite IH, Hstep. split.
      + intros [[H|H]|(dk & Hdk & Ht)].
        * by left.
        * right. exists k. split; [left | done].
        * right. exists dk. split; [by right | done].
      + intros [H|(dk & Hdk & Ht)]; [by left; left |].
        apply elem_of_cons in Hdk as [->|Hdk]; [by left; right |].
        right. by exists dk. }
  rewrite Hfold. split; [|by right].
  intros [[v Hv]|H]; [done | done].
Qed.

Section StyleRuns.
Context (styleToCSS : StyleDescr → string) (ATTR_NAME_MAP : gmap string string).

(** X13.  A style name of a run that is not in the style order of the
    generator is ignored: the run is rendered as if it did not carry it. *)
Theorem styles_outside_the_order_are_ignored this blockType text styleSet :
  renderStylePiece styleToCSS ATTR_NAME_MAP this blockType (text, styleSet)
  = renderStylePiece styleToCSS ATTR_NAME_MAP this blockType
      (text, filter (λ styleName, styleName ∈ styleOrder this) styleSet).
Proof.
  unfold renderStylePiece. apply foldl_ext_in. intros acc styleName Hin.
  assert (bool_decide (styleName ∈ styleSet)
          = bool_decide (styleName ∈ filter (λ s, s ∈ styleOrder this) styleSet)) as ->;
    [|done].
  apply bool_decide_ext. rewrite list_elem_of_filter. tauto.
Qed.
End StyleRuns.

Section BuiltInFormatters.
Context (styleToCSS : StyleDescr → string) (ATTR_NAME_MAP : gmap string string).

(** X14.  A range whose entity is formatted by the built-in image
    formatter is rendered as an [img] element that depends on the entity
    only: the text and the styles of the range are dropped. *)
Theorem image_range_ignores_its_text g this blockType entityKey entity :
  generator_ok this →
  resolve this entityKey = Some entity →
  ENTITY_FORMATTER_MAP g !! JS.toUpperCase (EntityInstance.getType entity)
  = Some image_formatter →
  ∃ attrString, ∀ stylePieces,
    renderEntityPiece styleToCSS ATTR_NAME_MAP g this blockType (entityKey, stylePieces)
    = Ok (Some ("<img" +:+ attrString +:+ "/>")).
Proof.
  intros Hok Hentity Hformatter.
  assert (∃ r, attrs_renderer this (JS.toUpperCase (EntityInstance.getType entity)) = Some r)
    as [r Hr].
  { unfold attrs_renderer. destruct (entityAttributesRendererMap this !! _); [by eexists |].
    destruct Hok as [_ [r Hr]]. by exists r. }
  exists (stringifyAttrs (run_renderer g r (JS.toUpperCase (EntityInstance.getType entity))
                            entity)).
  intros stylePieces. rewrite renderEntityPiece_markup.
  destruct (mapM_total (renderStylePiece styleToCSS ATTR_NAME_MAP this blockType) stylePieces)
    as [contents ->]; [intros; by apply renderStylePiece_total |].
  cbn [bind]. unfold entity_markup. by rewrite Hentity, Hformatter, Hr.
Qed.

(** X15.  The built-in [DEFAULT] formatter wraps the content of the range
    in a [span] whose start tag holds the text of the template as it is
    written, a dollar sign followed by [attrString] and a closing brace: the
    attributes computed for the entity are not part of the markup. *)
Theorem default_formatter_drops_attributes g this blockType entityKey entity stylePieces :
  generator_ok this →
  resolve this entityKey = Some entity →
  ENTITY_FORMATTER_MAP g !! JS.toUpperCase (EntityInstance.getType entity)
  = Some default_formatter →
  renderEntityPiece styleToCSS ATTR_NAME_MAP g this blockType (entityKey, stylePieces)
  = (contents ←' mapM (renderStylePiece styleToCSS ATTR_NAME_MAP this blockType) stylePieces;
     Ok (Some ("<span$attrString}>" +:+ JS.join "" contents +:+ "</span>"))).
Proof.
  intros Hok Hentity Hformatter. rewrite renderEntityPiece_markup.
  apply bind_ext. intros contents. unfold entity_markup.
  rewrite Hentity, Hformatter. unfold attrs_renderer.
  destruct (entityAttributesRendererMap this !! _); [done |].
  by destruct Hok as [_ [r ->]].
Qed.
End BuiltInFormatters.

(** ** Wrapper tags *)

(** X16.  Opening a wrapper tag and closing it, at an indentation level
    that is not negative, pushes the indented start tag and the equally
    indented end tag and leaves the indentation level and the current block
    as they were, with no wrapper recorded. *)
Theorem wrapper_open_close_round_trip (tag : string) (st : state) :
  tag ≠ "" → 0 ≤ indentLevel st →
  (st1 ←' openWrapperTag tag st; closeWrapperTag st1)
  = Ok (mkState (output st ++ [Indent (indentLevel st); WrapperStart tag;
                               Indent (indentLevel st); WrapperEnd tag])
          (currentBlock st) (indentLevel st) None).
Proof.
  intros Hw Hi. unfold openWrapperTag.
  rewrite indent_ok by (state_simpl; done). cbn [bind].
  unfold closeWrapperTag. state_simpl.
  destruct tag as [|a w]; [done |]. cbn [truthy].
  rewrite indent_ok by (state_simpl; lia). cbn [bind]. state_simpl.
  replace (indentLevel st + 1 - 1) with (indentLevel st) by lia.
  by rewrite <- !app_assoc.
Qed.

(** ** The walk: what every block contributes *)

Lemma mapM_app {A B} (f : A → res B) (l1 l2 : list A) (ys1 ys2 : list B) :
  mapM f l1 = Ok ys1 → mapM f l2 = Ok ys2 → mapM f (l1 ++ l2) = Ok (ys1 ++ ys2).
Proof.
  revert ys1. induction l1 as [|x l1 IH]; intros ys1 H1 H2; simpl in *.
  - by injection H1 as <-.
  - apply bind_inv in H1 as (y & Hy & H1).
    apply bind_inv in H1 as (ys & Hys & [= <-]).
    rewrite Hy. simpl. by rewrite (IH ys Hys H2).
Qed.

Lemma mapM_cons_inv {A B} (f : A → res B) (x : A) (l : list A) (ys : list B) :
  mapM f (x :: l) = Ok ys → ∃ y ys', ys = y :: ys' ∧ f x = Ok y ∧ mapM f l = Ok ys'.
Proof.
  simpl. intros (y & Hy & H)%bind_inv.
  apply bind_inv in H as (ys' & Hys & [= <-]). by exists y, ys'.
Qed.

Lemma closeWrapperTag_payload st st' :
  closeWrapperTag st = Ok st' →
  omap payload (output st') = omap payload (output st)
  ∧ currentBlock st' = currentBlock st.
Proof.
  unfold closeWrapperTag. destruct (truthy (wrapperTag st)).
  - intros (st1 & ->%indent_inv & [= <-])%bind_inv. state_simpl.
    by rewrite !omap_app, !app_nil_r.
  - by intros [= <-].
Qed.

Lemma openWrapperTag_payload w st st' :
  openWrapperTag w st = Ok st' →
  omap payload (output st') = omap payload (output st)
  ∧ currentBlock st' = currentBlock st.
Proof.
  unfold openWrapperTag.
  intros (st1 & ->%indent_inv & [= <-])%bind_inv. state_simpl.
  by rewrite !omap_app, !app_nil_r.
Qed.

Lemma switch_wrapper_payload w st st' :
  switch_wrapper w st = Ok st' →
  omap payload (output st') = omap payload (output st)
  ∧ currentBlock st' = currentBlock st.
Proof.
  unfold switch_wrapper. destruct (bool_decide (wrapperTag st ≠ w)); [|by intros [= <-]].
  intros (st1 & H1 & H2)%bind_inv.
  assert (omap payload (output st1) = omap payload (output st)
          ∧ currentBlock st1 = currentBlock st) as [Ho1 Hc1].
  { destruct (truthy (wrapperTag st)); [by apply closeWrapperTag_payload |].
    by injection H1 as <-. }
  destruct (truthy w).
  - apply openWrapperTag_payload in H2 as [-> ->]. done.
  - by injection H2 as <-.
Qed.

Section PayloadWalk.
Context (styleToCSS : StyleDescr → string) (ATTR_NAME_MAP : gmap string string).
Context (g : globals) (this : MarkupGenerator).

Local Abbreviation processBlock' := (processBlock styleToCSS ATTR_NAME_MAP g this).
Local Abbreviation processBlocksAtDepth' :=
  (processBlocksAtDepth styleToCSS ATTR_NAME_MAP g this).
Local Abbreviation block_payload' := (block_payload styleToCSS ATTR_NAME_MAP g this).

Lemma start_tags_payload block :
  omap payload (start_tags styleToCSS ATTR_NAME_MAP this block) = [].
Proof.
  unfold start_tags. by induction (getTags (ContentBlock.getType block)).
Qed.

(** A successful walk consumes consecutive blocks and pushes the payload
    of each of them, in order. *)
Lemma walk_payload (fuel : nat) :
  (∀ st st' block,
     blocks this !! currentBlock st = Some block →
     processBlock' fuel st = Ok st' →
     ∃ n ps,
       currentBlock st' = (S (currentBlock st) + n)%nat
       ∧ (currentBlock st' ≤ totalBlocks this)%nat
       ∧ mapM block_payload' (block :: take n (drop (S (currentBlock st)) (blocks this)))
         = Ok ps
       ∧ omap payload (output st') = omap payload (output st) ++ ps)
  ∧ (∀ depth st st',
       (currentBlock st ≤ totalBlocks this)%nat →
       processBlocksAtDepth' fuel depth st = Ok st' →
       ∃ n ps,
         currentBlock st' = (currentBlock st + n)%nat
         ∧ (currentBlock st' ≤ totalBlocks this)%nat
         ∧ mapM block_payload' (take n (drop (currentBlock st) (blocks this))) = Ok ps
         ∧ omap payload (output st') = omap payload (output st) ++ ps).
Proof.
  induction fuel as [|fuel [IHblock IHdepth]]; [done |].
  split.
  - intros st st' block Hblock.
    pose proof (lookup_lt_Some _ _ _ Hblock) as Hlt. fold (totalBlocks this) in Hlt.
    rewrite processBlock_S. unfold processBlock_body. rewrite Hblock.
    fold (switch_wrapper (getWrapperTag (ContentBlock.getType block)) st).
    fold (customOutput this block).
    intros (st1 & [Ho1 Hc1]%switch_wrapper_payload & Hrest)%bind_inv.
    apply bind_inv in Hrest as (st2 & ->%indent_inv & Hrest).
    destruct (customOutput this block) as [html|] eqn:Hcustom.
    + injection Hrest as <-. exists 0%nat, [html]. state_simpl.
      split_and!; [lia | lia | rewrite take_0; cbn [mapM]; unfold block_payload;
                                by rewrite Hcustom |].
      by rewrite !omap_app, Ho1, !app_nil_r.
    + apply bind_inv in Hrest as (content & Hcontent & Hrest).
      apply bind_inv in Hrest as (st5 & Hnest & [= <-]).
      rewrite writeStartTag_eq in Hnest. unfold getNextBlock in Hnest.
      revert Hnest. state_simpl. intros Hnest.
      assert (Hflat : ∃ n ps,
                currentBlock st5 = (S (currentBlock st) + n)%nat
                ∧ (currentBlock st5 ≤ totalBlocks this)%nat
                ∧ mapM block_payload' (take n (drop (S (currentBlock st)) (blocks this)))
                  = Ok ps
                ∧ omap payload (output st5)
                  = omap payload (output st) ++ content :: ps).
      { assert (Hleaf : ∀ out : list fragment,
                  omap payload out = omap payload (output st) ++ [content] →
                  ∃ n ps,
                    (currentBlock st1 + 1)%nat = (S (currentBlock st) + n)%nat
                    ∧ (currentBlock st1 + 1 ≤ totalBlocks this)%nat
                    ∧ mapM block_payload'
                        (take n (drop (S (currentBlock st)) (blocks this))) = Ok ps
                    ∧ omap payload out = omap payload (output st) ++ content :: ps).
        { intros out Hout. exists 0%nat, []. rewrite take_0.
          split_and!; [lia | lia | done | done]. }
        assert (Hout4 : omap payload
                          (((output st1 ++ [Indent (indentLevel st1)])
                            ++ start_tags styleToCSS ATTR_NAME_MAP this block)
                           ++ [Content content])
                        = omap payload (output st) ++ [content]).
        { by rewrite !omap_app, start_tags_payload, Ho1, !app_nil_r. }
        destruct (blocks this !! (currentBlock st1 + 1)%nat) as [nextBlock|] eqn:Hnext;
          [|injection Hnest as <-; state_simpl; by apply Hleaf].
        destruct (canHaveDepth (ContentBlock.getType block) && _);
          [|injection Hnest as <-; state_simpl; by apply Hleaf].
        apply lookup_lt_Some in Hnext. fold (totalBlocks this) in Hnext.
        apply bind_inv in Hnest as (st6 & Hrun & ->%indent_inv).
        apply IHdepth in Hrun as (n & ps & Hc6 & Hle6 & Hps & Ho6);
          [|state_simpl; lia].
        revert Hc6 Hle6 Hps Ho6. state_simpl. intros Hc6 Hle6 Hps Ho6.
        exists n, ps. rewrite Hc1 in *.
        replace (currentBlock st + 1)%nat with (S (currentBlock st)) in * by lia.
        split_and!; [done | done | done |].
        rewrite !omap_app, Ho6, !omap_app, start_tags_payload, Ho1. simpl.
        by rewrite !app_nil_r, <- !app_assoc. }
      destruct Hflat as (n & ps & Hc5 & Hle5 & Hps & Ho5).
      exists n, (content :: ps). unfold writeEndTag. state_simpl.
      split_and!; [done | done | |].
      * cbn [mapM]. rewrite Hps. unfold block_payload. by rewrite Hcustom, Hcontent.
      * by rewrite omap_app, Ho5, app_nil_r.
  - intros depth st st' Hcur. rewrite processBlocksAtDepth_S.
    assert (Hclose : closeWrapperTag st = Ok st' →
              ∃ n ps,
                currentBlock st' = (currentBlock st + n)%nat
                ∧ (currentBlock st' ≤ totalBlocks this)%nat
                ∧ mapM block_payload' (take n (drop (currentBlock st) (blocks this))) = Ok ps
                ∧ omap payload (output st') = omap payload (output st) ++ ps).
    { intros [Ho Hc]%closeWrapperTag_payload. exists 0%nat, []. rewrite take_0.
      split_and!; [lia | lia | done | by rewrite app_nil_r]. }
    destruct (blocks this !! currentBlock st) as [block|] eqn:Hblock; [|done].
    destruct (ContentBlock.getDepth block =? depth); [|done].
    intros (st1 & H1 & H2)%bind_inv.
    destruct (IHblock st st1 block Hblock H1) as (n1 & ps1 & Hc1 & Hle1 & Hps1 & Ho1).
    destruct (IHdepth depth st1 st' Hle1 H2) as (n2 & ps2 & Hc2 & Hle2 & Hps2 & Ho2).
    exists (S n1 + n2)%nat, (ps1 ++ ps2).
    split_and!; [lia | done | | by rewrite Ho2, Ho1, <- app_assoc].
    rewrite <- take_take_drop, drop_drop.
    apply mapM_app.
    + by rewrite (drop_S _ _ _ Hblock).
    + by replace (currentBlock st + S n1)%nat with (currentBlock st1) by lia.
Qed.

Lemma generate_loop_payload (fuel : nat) (st st' : state) :
  (currentBlock st ≤ totalBlocks this)%nat →
  generate_loop styleToCSS ATTR_NAME_MAP g this fuel st = Ok st' →
  ∃ ps, currentBlock st' = totalBlocks this
        ∧ mapM block_payload' (drop (currentBlock st) (blocks this)) = Ok ps
        ∧ omap payload (output st') = omap payload (output st) ++ ps.
Proof.
  revert st. induction fuel as [|fuel IH]; intros st Hcur; [done |]. simpl.
  destruct (Nat.ltb_spec (currentBlock st) (totalBlocks this)) as [Hlt|Hge].
  - intros (st1 & H1 & H2)%bind_inv.
    destruct (lookup_lt_is_Some_2 (blocks this) (currentBlock st) Hlt) as [block Hblock].
    destruct (walk_payload fuel) as [Hwalk _].
    destruct (Hwalk st st1 block Hblock H1) as (n & ps1 & Hc1 & Hle1 & Hps1 & Ho1).
    destruct (IH st1 Hle1 H2) as (ps2 & Hc2 & Hps2 & Ho2).
    exists (ps1 ++ ps2). split_and!; [done | | by rewrite Ho2, Ho1, <- app_assoc].
    rewrite <- (take_drop (S n) (drop (currentBlock st) (blocks this))).
    apply mapM_app.
    + by rewrite (drop_S _ _ _ Hblock).
    + rewrite drop_drop.
      by replace (currentBlock st + S n)%nat with (currentBlock st1) by lia.
  - intros [= <-]. exists []. rewrite drop_ge by done.
    split_and!; [unfold totalBlocks in *; lia | done | by rewrite app_nil_r].
Qed.
End PayloadWalk.

(** ** The walk: the element of every block *)

Lemma mapM_length {A B} (f : A → res B) (l : list A) (ys : list B) :
  mapM f l = Ok ys → length ys = length l.
Proof.
  revert ys. induction l as [|x l IH]; intros ys; simpl; [by intros [= <-] |].
  intros (y & _ & H)%bind_inv. apply bind_inv in H as (ys' & Hys & [= <-]).
  simpl. by rewrite (IH ys').
Qed.

Section ElementWalk.
Context (styleToCSS : StyleDescr → string) (ATTR_NAME_MAP : gmap string string).
Context (g : globals) (this : MarkupGenerator).

Local Abbreviation processBlock' := (processBlock styleToCSS ATTR_NAME_MAP g this).
Local Abbreviation processBlocksAtDepth' :=
  (processBlocksAtDepth styleToCSS ATTR_NAME_MAP g this).
Local Abbreviation renderBlockContent' :=
  (renderBlockContent styleToCSS ATTR_NAME_MAP g this).
Local Abbreviation start_tags' := (start_tags styleToCSS ATTR_NAME_MAP this).

Local Abbreviation element_after' := (element_after styleToCSS ATTR_NAME_MAP g this).

Lemma element_after_ext out0 out out' out'' p s k k' i block :
  out = out0 ++ p → out'' = out' ++ s → k' = (length (omap payload p) + k)%nat →
  element_after' out out' k i block → element_after' out0 out'' k' i block.
Proof.
  intros -> -> -> (content & pre & nested & post & Hcontent & -> & Hk & Hnested).
  exists content, (p ++ pre), nested, (post ++ s).
  split_and!; [done | by rewrite <- !app_assoc | | done].
  by rewrite omap_app, length_app, Hk.
Qed.

(** A successful walk only appends to the output, one content for each
    block that it consumes. *)
Lemma walk_extends (fuel : nat) :
  (∀ st st', processBlock' fuel st = Ok st' →
     ∃ suffix, output st' = output st ++ suffix
               ∧ (currentBlock st + length (omap payload suffix))%nat = currentBlock st')
  ∧ (∀ depth st st',
       (currentBlock st ≤ totalBlocks this)%nat →
       processBlocksAtDepth' fuel depth st = Ok st' →
       ∃ suffix, output st' = output st ++ suffix
                 ∧ (currentBlock st + length (omap payload suffix))%nat = currentBlock st').
Proof.
  destruct (walk_output styleToCSS ATTR_NAME_MAP g this fuel) as [Hblock Hdepth].
  destruct (walk_payload styleToCSS ATTR_NAME_MAP g this fuel) as [Pblock Pdepth].
  split.
  - intros st st' Hrun.
    destruct (blocks this !! currentBlock st) as [block|] eqn:E.
    + assert (∃ suffix, output st' = output st ++ suffix) as [suffix Hs].
      { destruct (Hblock st st' block E Hrun) as [pre Hpre].
        destruct (customOutput this block); [by eexists |].
        destruct Hpre as (content & nested & _ & ->). by eexists. }
      exists suffix. split; [done |].
      destruct (Pblock st st' block E Hrun) as (n & ps & Hc & Hle & Hps & Ho).
      rewrite Hs, omap_app in Ho. apply app_inv_head in Ho. rewrite Ho.
      apply mapM_length in Hps. rewrite Hps. cbn [length].
      rewrite length_take, length_drop. fold (totalBlocks this). lia.
    + destruct fuel; [done |]. rewrite processBlock_S in Hrun.
      unfold processBlock_body in Hrun. by rewrite E in Hrun.
  - intros depth st st' Hcur Hrun.
    destruct (Hdepth depth st st' Hrun) as [suffix Hs].
    exists suffix. split; [done |].
    destruct (Pdepth depth st st' Hcur Hrun) as (n & ps & Hc & Hle & Hps & Ho).
    rewrite Hs, omap_app in Ho. apply app_inv_head in Ho. rewrite Ho.
    apply mapM_length in Hps. rewrite Hps.
    rewrite length_take, length_drop. fold (totalBlocks this). lia.
Qed.

(** Every block that a successful walk consumes, and that no custom
    renderer handles, has its element in the output. *)
Lemma walk_elements (fuel : nat) :
  (∀ st st', processBlock' fuel st = Ok st' →
     ∀ i block, (currentBlock st ≤ i < currentBlock st')%nat →
       blocks this !! i = Some block → customOutput this block = None →
       element_after' (output st) (output st') (i - currentBlock st) i block)
  ∧ (∀ depth st st',
       (currentBlock st ≤ totalBlocks this)%nat →
       processBlocksAtDepth' fuel depth st = Ok st' →
       ∀ i block, (currentBlock st ≤ i < currentBlock st')%nat →
         blocks this !! i = Some block → customOutput this block = None →
         element_after' (output st) (output st') (i - currentBlock st) i block).
Proof.
  induction fuel as [|fuel [IHblock IHdepth]]; [done |].
  split.
  - intros st st'. rewrite processBlock_S. unfold processBlock_body.
    destruct (blocks this !! currentBlock st) as [block0|] eqn:Hblock0; [|done].
    fold (switch_wrapper (getWrapperTag (ContentBlock.getType block0)) st).
    fold (customOutput this block0).
    intros (st1 & Hswitch & Hrest)%bind_inv.
    pose proof (switch_wrapper_output _ _ _ Hswitch) as [s1 Hs1].
    pose proof (switch_wrapper_payload _ _ _ Hswitch) as [Hp1 Hc1].
    rewrite Hs1, omap_app in Hp1.
    rewrite <- (app_nil_r (omap payload (output st))) in Hp1 at 2.
    apply app_inv_head in Hp1.
    apply bind_inv in Hrest as (st2 & ->%indent_inv & Hrest).
    destruct (customOutput this block0) as [html|] eqn:Hcustom0.
    + injection Hrest as <-. state_simpl. intros i block Hi Hblock Hcustom.
      assert (i = currentBlock st) as -> by lia. congruence.
    + apply bind_inv in Hrest as (content & Hcontent & Hrest).
      apply bind_inv in Hrest as (st5 & Hnest & [= <-]).
      rewrite writeStartTag_eq in Hnest. unfold getNextBlock in Hnest.
      revert Hnest. unfold writeEndTag. state_simpl. rewrite Hc1, Hs1.
      replace (currentBlock st + 1)%nat with (S (currentBlock st)) by lia.
      intros Hnest i block Hi Hblock Hcustom.
      assert (Hpre : length (omap payload (s1 ++ [Indent (indentLevel st1)])) = 0%nat)
        by (rewrite omap_app, Hp1; done).
      assert (Hleaf : st5 = mkState ((((output st ++ s1) ++ [Indent (indentLevel st1)])
                                       ++ start_tags' block0) ++ [Content content])
                              (S (currentBlock st)) (indentLevel st1) (wrapperTag st1) →
                      element_after' (output st)
                        (output st5 ++ [EndTags (getTags (ContentBlock.getType block0))])
                        (i - currentBlock st) i block).
      { intros ->. revert Hi. state_simpl. intros Hi.
        assert (i = currentBlock st) as -> by lia.
        assert (block = block0) as -> by congruence.
        exists content, (s1 ++ [Indent (indentLevel st1)]), [], [].
        split_and!; [done | by rewrite <- !app_assoc | lia | done]. }
      destruct (blocks this !! S (currentBlock st)) as [nextBlock|] eqn:Hnext;
        [|injection Hnest as <-; by apply Hleaf].
      destruct (canHaveDepth (ContentBlock.getType block0) && _) eqn:Hnests;
        [|injection Hnest as <-; by apply Hleaf].
      apply bind_inv in Hnest as (st6 & Hrun & ->%indent_inv).
      revert Hi. state_simpl. intros Hi.
      apply lookup_lt_Some in Hnext as Hlt. fold (totalBlocks this) in Hlt.
      destruct (walk_extends fuel) as [_ Hext].
      assert (Hle5 : (S (currentBlock st) ≤ totalBlocks this)%nat) by lia.
      pose proof Hrun as Hrun'.
      apply Hext in Hrun' as (s6 & Hs6 & _); [|exact Hle5].
      revert Hs6. state_simpl. intros Hs6.
      destruct (decide (i = currentBlock st)) as [-> | Hne].
      * assert (block = block0) as -> by congruence.
        exists content, (s1 ++ [Indent (indentLevel st1)]),
               ([Newline] ++ s6 ++ [Indent (indentLevel st6 - 1)]), [].
        split_and!; [done | rewrite Hs6; by rewrite <- !app_assoc | lia |].
        unfold nests. rewrite Hnext, Hnests. done.
      * pose proof Hrun as Helement.
        apply IHdepth with (i := i) (block := block) in Helement;
          [|exact Hle5 | state_simpl; lia | done | done].
        revert Helement. state_simpl. intros Helement.
        eapply element_after_ext; [| | |exact Helement].
        -- rewrite <- !app_assoc. reflexivity.
        -- rewrite <- app_assoc. reflexivity.
        -- rewrite !omap_app, !length_app, Hp1, start_tags_payload. simpl. lia.
  - intros depth st st' Hcur. rewrite processBlocksAtDepth_S.
    assert (Hclose : closeWrapperTag st = Ok st' →
              ∀ i block, (currentBlock st ≤ i < currentBlock st')%nat →
                blocks this !! i = Some block → customOutput this block = None →
                element_after' (output st) (output st') (i - currentBlock st) i block).
    { intros [_ Hc]%closeWrapperTag_payload i block Hi. lia. }
    destruct (blocks this !! currentBlock st) as [block0|] eqn:Hblock0; [|done].
    destruct (ContentBlock.getDepth block0 =? depth); [|done].
    intros (st1 & H1 & H2)%bind_inv i block Hi Hblock Hcustom.
    destruct (walk_extends fuel) as [Hext1 Hext2].
    destruct (Hext1 _ _ H1) as (s1 & Hs1 & Hn1).
    assert (Hle1 : (currentBlock st1 ≤ totalBlocks this)%nat).
    { destruct (walk_payload styleToCSS ATTR_NAME_MAP g this fuel) as [P _].
      by destruct (P st st1 block0 Hblock0 H1) as (n & ps & _ & Hle & _). }
    destruct (Hext2 _ _ _ Hle1 H2) as (s2 & Hs2 & _).
    destruct (decide (i < currentBlock st1)%nat) as [Hlt | Hge].
    + eapply element_after_ext; [| | |apply (IHblock _ _ H1 i block); [lia | done..]].
      * by rewrite app_nil_r.
      * exact Hs2.
      * done.
    + eapply element_after_ext; [| | |apply (IHdepth _ _ _ Hle1 H2 i block); [lia | done..]].
      * exact Hs1.
      * by rewrite app_nil_r.
      * lia.
Qed.

Lemma generate_loop_elements (fuel : nat) (st st' : state) :
  generate_loop styleToCSS ATTR_NAME_MAP g this fuel st = Ok st' →
  (∃ suffix, output st' = output st ++ suffix)
  ∧ ∀ i block, (currentBlock st ≤ i)%nat →
      blocks this !! i = Some block → customOutput this block = None →
      element_after' (output st) (output st') (i - currentBlock st) i block.
Proof.
  revert st. induction fuel as [|fuel IH]; intros st; [done |]. simpl.
  destruct (Nat.ltb_spec (currentBlock st) (totalBlocks this)) as [Hlt|Hge].
  - intros (st1 & H1 & H2)%bind_inv.
    destruct (walk_extends fuel) as [Hext _]. destruct (Hext _ _ H1) as (s1 & Hs1 & Hn1).
    destruct (IH st1 H2) as [[s2 Hs2] Hrest].
    split; [exists (s1 ++ s2); by rewrite Hs2, Hs1, app_assoc |].
    intros i block Hi Hblock Hcustom.
    destruct (walk_elements fuel) as [Hwalk _].
    destruct (decide (i < currentBlock st1)%nat) as [Hlt1 | Hge1].
    + eapply element_after_ext; [| | |apply (Hwalk _ _ H1 i block); [lia | done..]].
      * by rewrite app_nil_r.
      * exact Hs2.
      * done.
    + eapply element_after_ext; [| | |apply (Hrest i block); [lia | done..]].
      * exact Hs1.
      * by rewrite app_nil_r.
      * lia.
  - intros [= <-]. split; [exists []; by rewrite app_nil_r |].
    intros i block Hi Hblock. apply lookup_lt_Some in Hblock.
    unfold totalBlocks in Hge. lia.
Qed.

End ElementWalk.

Section WholeDocuments.
Context (styleToCSS : StyleDescr → string) (Entity_get : EntityGetter)
        (ATTR_NAME_MAP : gmap string string).

(** X17.  For every content state and options, [generate] consumes every
    block: the contents pushed to the output are, in the order of the
    document and once each, the output of the custom renderer of the block
    or else its rendered content, whatever the depths of the blocks. *)
Theorem every_block_rendered_once_in_order g document options :
  let gen := constructor Entity_get g document options in
  ∃ st markups,
    generate_state styleToCSS ATTR_NAME_MAP gen.1 gen.2 = Ok st
    ∧ mapM (block_payload styleToCSS ATTR_NAME_MAP gen.1 gen.2) document = Ok markups
    ∧ omap payload (output st) = markups
    ∧ currentBlock st = length document.
Proof.
  intros gen.
  pose proof (constructor_ok Entity_get g document options) as Hok. fold gen in Hok.
  destruct (constructor_fields Entity_get g document options) as [Hblocks _].
  fold gen in Hblocks.
  destruct (generate_loop_spec styleToCSS ATTR_NAME_MAP gen.1 gen.2 false
              (2 * totalBlocks gen.2 + 1) initial_state Hok (initial_state_inv false))
    as [_ (st & Hloop & Hinv)]; [simpl; lia | simpl; lia |].
  destruct (closeWrapperTag_spec false [] 0 st Hinv) as (st' & Hclose & _).
  destruct (generate_loop_payload styleToCSS ATTR_NAME_MAP gen.1 gen.2
              (2 * totalBlocks gen.2 + 1) initial_state st (Nat.le_0_l _) Hloop)
    as (ps & Hc & Hps & Ho).
  apply closeWrapperTag_payload in Hclose as Hclose'. destruct Hclose' as [Ho' Hc'].
  exists st', ps. unfold generate_state. rewrite Hloop. cbn [bind].
  split_and!; [done | | by rewrite Ho', Ho | ].
  - simpl in Hps. unfold blocks in Hps. by rewrite Hblocks in Hps.
  - rewrite Hc', Hc. unfold totalBlocks, blocks. by rewrite Hblocks.
Qed.

(** X18.  For every content state and options, when [generate] returns
    every start tag that the generator wrote, of a wrapper or of a block,
    has its end tag, properly nested, and the indentation level is zero. *)
Theorem block_tags_closed g document options :
  let gen := constructor Entity_get g document options in
  ∃ st, generate_state styleToCSS ATTR_NAME_MAP gen.1 gen.2 = Ok st
        ∧ balanced true (output st)
        ∧ indentLevel st = 0.
Proof.
  intros gen.
  pose proof (constructor_ok Entity_get g document options) as Hok. fold gen in Hok.
  destruct (generate_loop_spec styleToCSS ATTR_NAME_MAP gen.1 gen.2 true
              (2 * totalBlocks gen.2 + 1) initial_state Hok (initial_state_inv true))
    as [_ (st & Hloop & Hinv)]; [simpl; lia | simpl; lia |].
  destruct (closeWrapperTag_spec true [] 0 st Hinv) as (st' & Hclose & _ & Hi & _ & Ho).
  exists st'. unfold generate_state. rewrite Hloop. by cbn [bind].
Qed.

(** X19.  A content state without blocks is rendered as the empty string,
    whatever the options. *)
Theorem empty_document g options :
  (stateToHTML styleToCSS Entity_get ATTR_NAME_MAP g [] options).2 = Ok "".
Proof.
  unfold stateToHTML, constructor.
  by destruct (combineOrderedStyles _ _) as [inlineStyles styleOrder].
Qed.
End WholeDocuments.

(** ** Documents whose blocks contain no other block *)

Lemma join_cons_empty (x : string) (l : list string) :
  JS.join "" (x :: l) = x +:+ JS.join "" l.
Proof. destruct l; simpl; [by rewrite append_nil_r | done]. Qed.

Lemma join_lines (ls : list string) :
  ls ≠ [] → JS.join "" ((λ l, l +:+ nl) <$> ls) = JS.join nl ls +:+ nl.
Proof.
  induction ls as [|l ls IH]; [done |]. intros _.
  rewrite fmap_cons, join_cons_empty.
  destruct ls as [|l' ls]; [by simpl; rewrite append_nil_r |].
  rewrite IH by done. cbn [JS.join]. by rewrite !append_assoc.
Qed.

Lemma trim_line (s : string) : starts_lt s → ends_gt s → JS.trim (s +:+ nl) = s.
Proof.
  intros [x Hx] [y Hy]. unfold JS.trim.
  rewrite Hx at 1. rewrite append_assoc, trimStart_app by done.
  rewrite <- append_assoc, <- Hx, Hy, append_assoc.
  by rewrite trimEnd_app.
Qed.

Lemma starts_lt_app (s t : string) : starts_lt s → starts_lt (s +:+ t).
Proof. intros [x ->]. exists (x +:+ t). by rewrite append_assoc. Qed.

Lemma ends_gt_app (s t : string) : ends_gt t → ends_gt (s +:+ t).
Proof. intros [x ->]. exists (s +:+ x). by rewrite append_assoc. Qed.

Lemma starts_lt_join (l : string) (ls : list string) :
  starts_lt l → starts_lt (JS.join nl (l :: ls)).
Proof. intros H. destruct ls; [done |]. by apply starts_lt_app. Qed.

Lemma ends_gt_join (ls : list string) (l : string) :
  ends_gt l → ends_gt (JS.join nl (ls ++ [l])).
Proof.
  intros H. induction ls as [|l' ls IH]; [done |].
  change ((l' :: ls) ++ [l]) with (l' :: (ls ++ [l])).
  destruct (ls ++ [l]) as [|l2 ls2] eqn:E; [by destruct ls |].
  cbn [JS.join]. by do 2 apply ends_gt_app.
Qed.

Lemma element_markup_tagged tags attrString content :
  tags ≠ [] →
  starts_lt (element_markup tags attrString content)
  ∧ ends_gt (element_markup tags attrString content).
Proof.
  destruct tags as [|tag tags]; [done |]. intros _. unfold element_markup. split.
  - rewrite fmap_cons, join_cons_empty. rewrite !append_assoc. by eexists.
  - do 2 apply ends_gt_app.
    rewrite reverse_cons, fmap_app, join_empty_app. apply ends_gt_app.
    exists ("</" +:+ tag). cbn [fmap list_fmap JS.join]. by rewrite !append_assoc.
Qed.

Lemma trim_lines (ls : list string) :
  (∀ l, head ls = Some l → starts_lt l) →
  (∀ l, last ls = Some l → ends_gt l) →
  JS.trim (JS.join "" ((λ l, l +:+ nl) <$> ls)) = JS.join nl ls.
Proof.
  intros Hhead Hlast. destruct ls as [|l ls]; [done |].
  rewrite join_lines by done. apply trim_line.
  - apply starts_lt_join. by apply Hhead.
  - destruct (exists_last (l := l :: ls)) as (ls' & l' & E); [done |].
    rewrite E. apply ends_gt_join. apply Hlast. rewrite E. apply last_snoc.
Qed.

Section FlatWalk.
Context (styleToCSS : StyleDescr → string) (ATTR_NAME_MAP : gmap string string).
Context (g : globals) (this : MarkupGenerator).

Local Abbreviation processBlock' := (processBlock styleToCSS ATTR_NAME_MAP g this).
Local Abbreviation renderBlockContent' :=
  (renderBlockContent styleToCSS ATTR_NAME_MAP g this).
Local Abbreviation generate_loop' := (generate_loop styleToCSS ATTR_NAME_MAP g this).
Local Abbreviation leaf_fragments' := (leaf_fragments styleToCSS ATTR_NAME_MAP this).
Local Abbreviation block_markup' := (block_markup styleToCSS ATTR_NAME_MAP this).

Lemma switch_wrapper_same w st : wrapperTag st = w → switch_wrapper w st = Ok st.
Proof. intros <-. unfold switch_wrapper. by rewrite bool_decide_eq_false_2 by by intros ?. Qed.

(** The loop of [generate] over blocks that have the wrapper of the state
    and contain no other block. *)
Lemma flat_loop (w : option string) (level : Z) :
  0 ≤ level →
  ∀ rest pre contents out fuel,
    blocks this = pre ++ rest →
    (∀ block, block ∈ rest →
       getWrapperTag (ContentBlock.getType block) = w ∧ customOutput this block = None) →
    (∀ i block, rest !! i = Some block → nests block (rest !! S i) = false) →
    mapM renderBlockContent' rest = Ok contents →
    (length rest < fuel)%nat →
    generate_loop' fuel (mkState out (length pre) level w)
    = Ok (mkState (out ++ concat (zip_with (leaf_fragments' level) rest contents))
            (length (blocks this)) level w).
Proof.
  intros Hlevel. induction rest as [|block rest IH];
    intros pre contents out fuel Hblocks Hrest Hnests Hcontents Hfuel.
  - destruct fuel as [|fuel]; [simpl in Hfuel; lia |].
    rewrite generate_loop_end
      by (unfold totalBlocks; rewrite Hblocks, app_nil_r; simpl; lia).
    injection Hcontents as <-. simpl. by rewrite Hblocks, !app_nil_r.
  - apply mapM_cons_inv in Hcontents as (content & contents' & -> & Hcontent & Hcontents).
    destruct fuel as [|[|fuel]]; [simpl in Hfuel; lia.. |].
    assert (Hlookup : blocks this !! length pre = Some block)
      by (rewrite Hblocks; by apply list_lookup_middle).
    destruct (Hrest block) as [Hw Hcustom]; [left |].
    erewrite generate_loop_more; last first.
    { apply (processBlock_leaf _ _ _ _ _ _ block (mkState out (length pre) level w) content);
        [done | by apply switch_wrapper_same | done | done | done |].
      cbn [currentBlock]. rewrite Hblocks.
      replace (S (length pre)) with (length pre + 1)%nat by lia.
      rewrite lookup_app_r by lia.
      replace (length pre + 1 - length pre)%nat with 1%nat by lia.
      apply (Hnests 0%nat block eq_refl). }
    { unfold totalBlocks. rewrite Hblocks, length_app. simpl. lia. }
    cbn [output currentBlock indentLevel wrapperTag].
    replace (S (length pre)) with (length (pre ++ [block]))
      by (rewrite length_app; simpl; lia).
    rewrite (IH (pre ++ [block]) contents').
    + f_equal. f_equal. cbn [zip_with concat]. unfold leaf_fragments.
      by rewrite <- !app_assoc.
    + by rewrite <- app_assoc.
    + intros b Hb. apply Hrest. by right.
    + intros i b Hb. apply (Hnests (S i) b Hb).
    + done.
    + simpl in Hfuel. lia.
Qed.
End FlatWalk.

Section FlatDocuments.
Context (styleToCSS : StyleDescr → string) (ATTR_NAME_MAP : gmap string string).
Context (g : globals) (this : MarkupGenerator).

Local Abbreviation renderBlockContent' :=
  (renderBlockContent styleToCSS ATTR_NAME_MAP g this).
Local Abbreviation generate' := (generate styleToCSS ATTR_NAME_MAP g this).
Local Abbreviation leaf_fragments' := (leaf_fragments styleToCSS ATTR_NAME_MAP this).
Local Abbreviation block_markup' := (block_markup styleToCSS ATTR_NAME_MAP this).

Lemma leaf_string level block content :
  JS.join "" (fragment_string <$> leaf_fragments' level block content)
  = (JS.repeat INDENT (Z.to_nat level) +:+ block_markup' block content) +:+ nl.
Proof.
  unfold leaf_fragments, block_markup, element_markup, start_tags.
  rewrite !fmap_app, !join_empty_app, <- list_fmap_compose.
  change (fragment_string <$> [Indent level]) with [JS.repeat INDENT (Z.to_nat level)].
  change (fragment_string
            <$> [Content content; EndTags (getTags (ContentBlock.getType block))])
    with [content; fragment_string (EndTags (getTags (ContentBlock.getType block)))].
  rewrite !join_cons_empty, fragment_string_EndTags.
  change (JS.join "" []) with "". rewrite !append_nil_r, !append_assoc.
  reflexivity.
Qed.

Lemma leaf_lines level blocks contents :
  JS.join "" (fragment_string <$> concat (zip_with (leaf_fragments' level) blocks contents))
  = JS.join "" ((λ l, l +:+ nl)
                  <$> ((λ m, JS.repeat INDENT (Z.to_nat level) +:+ m)
                         <$> zip_with block_markup' blocks contents)).
Proof.
  revert contents. induction blocks as [|block blocks IH]; intros [|content contents];
    try done.
  cbn [zip_with concat fmap list_fmap].
  rewrite fmap_app, join_empty_app, join_cons_empty, leaf_string.
  f_equal. apply IH.
Qed.

Lemma block_markup_tagged (blocks : list ContentBlock.t) (contents : list string) :
  Forall (λ m, starts_lt m ∧ ends_gt m) (zip_with block_markup' blocks contents).
Proof.
  revert contents. induction blocks as [|block blocks IH]; intros [|content contents];
    try by constructor.
  constructor; [|apply IH].
  apply element_markup_tagged.
  destruct (getTags_cons (ContentBlock.getType block)) as (tag & tags & ->). done.
Qed.

(** X20.  A document without list items, none of whose blocks is handled
    by a custom renderer, is rendered as the elements of its blocks in order,
    one per line and not indented: the lines are joined by single line feeds
    and the result has no leading or trailing white space. *)
Theorem blocks_without_wrapper_one_per_line (contents : list string) :
  (∀ block, block ∈ blocks this →
     getWrapperTag (ContentBlock.getType block) = None
     ∧ customOutput this block = None) →
  mapM renderBlockContent' (blocks this) = Ok contents →
  generate' = Ok (JS.join nl (zip_with block_markup' (blocks this) contents)).
Proof.
  intros Hblocks Hcontents. unfold generate, generate_state.
  change initial_state with (mkState [] (length (@nil ContentBlock.t)) 0 None).
  rewrite (flat_loop styleToCSS ATTR_NAME_MAP g this None 0 (Z.le_refl 0)
             (blocks this) [] contents); [|done|done| |done|unfold totalBlocks; lia].
  - cbn [bind app]. unfold closeWrapperTag. cbn [wrapperTag truthy bind output].
    f_equal. rewrite leaf_lines.
    assert (Hid : ∀ l : list string,
              (λ m, JS.repeat INDENT (Z.to_nat 0) +:+ m) <$> l = l)
      by (induction l as [|x l IH]; [done | rewrite fmap_cons, IH; reflexivity]).
    rewrite Hid.
    pose proof (block_markup_tagged (blocks this) contents) as Htagged.
    rewrite Forall_forall in Htagged.
    apply trim_lines; intros l Hl.
    + by apply Htagged, head_Some_elem_of.
    + by apply Htagged, last_Some_elem_of.
  - intros i block Hblock. unfold nests.
    destruct (blocks this !! S i) as [nextBlock|]; [|done].
    rewrite canHaveDepth_wrapper.
    destruct (Hblocks block) as [-> _]; [by eapply list_elem_of_lookup_2 |].
    by rewrite bool_decide_eq_false_2 by by intros [? ?].
Qed.

(** X21.  A document of list items of one kind, none being handled by a
    custom renderer and none having the depth that the test of line 243
    computes from the item before it (that depth plus one, in the
    arithmetic of doubles: [JS.add1]), is rendered as one list: the start
    tag of the wrapper, the items in order, one per line and indented by
    one level, and the end tag of the wrapper. *)
Theorem list_items_one_per_line (w : string) (contents : list string) :
  blocks this ≠ [] →
  (∀ block, block ∈ blocks this →
     getWrapperTag (ContentBlock.getType block) = Some w
     ∧ customOutput this block = None) →
  (∀ i block nextBlock,
     blocks this !! i = Some block → blocks this !! S i = Some nextBlock →
     ContentBlock.getDepth nextBlock ≠ JS.add1 (ContentBlock.getDepth block)) →
  mapM renderBlockContent' (blocks this) = Ok contents →
  generate'
  = Ok (JS.join nl (("<" +:+ w +:+ ">")
                    :: ((λ m, INDENT +:+ m) <$> zip_with block_markup' (blocks this) contents)
                    ++ ["</" +:+ w +:+ ">"])).
Proof.
  intros Hne Hblocks Hdepth Hcontents.
  destruct (blocks this) as [|b0 rest] eqn:E; [done |]. clear Hne.
  apply mapM_cons_inv in Hcontents as (c0 & cs & -> & Hc0 & Hcs).
  destruct (Hblocks b0) as [Hw0 Hcustom0]; [left |].
  assert (Hw : w = "ul" ∨ w = "ol").
  { destruct (getWrapperTag_cases (ContentBlock.getType b0)) as [H|[H|H]];
      rewrite H in Hw0; [done | left | right]; congruence. }
  assert (Hnests : ∀ i block, (b0 :: rest) !! i = Some block →
                              nests block ((b0 :: rest) !! S i) = false).
  { intros i block Hblock. unfold nests.
    destruct ((b0 :: rest) !! S i) as [nextBlock|] eqn:Hnext; [|done].
    rewrite (proj2 (Z.eqb_neq _ _)) by by eapply Hdepth. apply andb_false_r. }
  set (out1 := [Indent 0; WrapperStart w] ++ leaf_fragments' 1 b0 c0).
  unfold generate, generate_state.
  assert (Hfuel : (2 * totalBlocks this + 1)%nat = S (S (2 * length rest + 1)))
    by (unfold totalBlocks; rewrite E; simpl; lia).
  rewrite Hfuel.
  assert (Hfirst : processBlock styleToCSS ATTR_NAME_MAP g this (S (2 * length rest + 1))
                     initial_state
                   = Ok (mkState out1 (length [b0]) 1 (Some w))).
  { rewrite (processBlock_leaf _ _ _ _ _ initial_state b0
               (mkState [Indent 0; WrapperStart w] 0 1 (Some w)) c0);
      [ | by rewrite E | rewrite Hw0; by destruct Hw as [-> | ->] | done | done | done
        | rewrite E; apply (Hnests 0%nat b0 eq_refl) ].
    subst out1. unfold leaf_fragments. cbn [output currentBlock indentLevel wrapperTag].
    reflexivity. }
  assert (Hlt : (currentBlock initial_state < totalBlocks this)%nat)
    by (unfold totalBlocks; rewrite E; simpl; lia).
  rewrite (generate_loop_more _ _ _ _ _ _ _ Hlt Hfirst).
  rewrite (flat_loop styleToCSS ATTR_NAME_MAP g this (Some w) 1 ltac:(lia)
             rest [b0] cs out1);
    [ | by rewrite E | intros b Hb; apply Hblocks; by right
      | intros i b Hb; apply (Hnests (S i) b Hb) | done | lia ].
  cbn [bind]. unfold closeWrapperTag. cbn [wrapperTag].
  assert (truthy (Some w) = true) as -> by by destruct Hw as [-> | ->].
  rewrite indent_ok by (state_simpl; lia). cbn [bind]. state_simpl. f_equal.
  subst out1.
  replace ((((([Indent 0; WrapperStart w] ++ leaf_fragments' 1 b0 c0)
              ++ concat (zip_with (leaf_fragments' 1) rest cs))
             ++ [Indent (1 - 1)]) ++ [WrapperEnd (default "" (Some w))]))
    with ([Indent 0; WrapperStart w]
          ++ concat (zip_with (leaf_fragments' 1) (b0 :: rest) (c0 :: cs))
          ++ [Indent 0; WrapperEnd w])
    by (cbn [zip_with concat]; rewrite <- !app_assoc; reflexivity).
  rewrite !fmap_app, !join_empty_app, leaf_lines.
  change (JS.repeat INDENT (Z.to_nat 1)) with INDENT.
  assert (JS.join "" (fragment_string <$> [Indent 0; WrapperStart w])
          = JS.join "" ((λ l, l +:+ nl) <$> ["<" +:+ w +:+ ">"])) as ->
    by (destruct Hw as [-> | ->]; reflexivity).
  assert (JS.join "" (fragment_string <$> [Indent 0; WrapperEnd w])
          = JS.join "" ((λ l, l +:+ nl) <$> ["</" +:+ w +:+ ">"])) as ->
    by (destruct Hw as [-> | ->]; reflexivity).
  rewrite <- !join_empty_app, <- !fmap_app.
  apply trim_lines.
  - intros l [= <-]. by eexists.
  - intros l. cbn [app]. rewrite app_comm_cons, last_snoc. intros [= <-].
    exists ("</" +:+ w). by rewrite !append_assoc.
Qed.
End FlatDocuments.

(** ** Block renderers *)

Section SameFields.
Context (styleToCSS : StyleDescr → string) (ATTR_NAME_MAP : gmap string string).
Context (g : globals) (this1 this2 : MarkupGenerator).
Hypothesis Hcontent : contentState this1 = contentState this2.
Hypothesis Hgetter : entityGetter this1 = entityGetter this2.
Hypothesis Hrenderers : entityAttributesRendererMap this1 = entityAttributesRendererMap this2.
Hypothesis Hstyles : inlineStyles this1 = inlineStyles this2.
Hypothesis Horder : styleOrder this1 = styleOrder this2.
Hypothesis HstyleFn :
  Options.blockStyleFn (options this1) = Options.blockStyleFn (options this2).
Hypothesis Hcustom : ∀ block,
  block ∈ blocks this1 → customOutput this1 block = customOutput this2 block.

Lemma renderBlockContent_fields block :
  renderBlockContent styleToCSS ATTR_NAME_MAP g this1 block
  = renderBlockContent styleToCSS ATTR_NAME_MAP g this2 block.
Proof.
  destruct this1, this2. simpl in *. by subst.
Qed.

Lemma processBlock_body_fields rec1 rec2 st :
  (∀ depth st, rec1 depth st = rec2 depth st) →
  processBlock_body styleToCSS ATTR_NAME_MAP g this1 rec1 st
  = processBlock_body styleToCSS ATTR_NAME_MAP g this2 rec2 st.
Proof.
  intros Hrec. unfold processBlock_body, getNextBlock, blocks.
  rewrite <- Hcontent.
  destruct (contentState this1 !! currentBlock st) as [block|] eqn:Hblock; [|done].
  apply bind_ext. intros st1. apply bind_ext. intros st2.
  fold (customOutput this1 block). fold (customOutput this2 block).
  rewrite <- Hcustom by by eapply list_elem_of_lookup_2.
  destruct (customOutput this1 block); [done |].
  rewrite renderBlockContent_fields.
  unfold writeStartTag. rewrite HstyleFn.
  apply bind_ext. intros content.
  destruct (contentState this1 !! (_ + 1)%nat) as [nextBlock|]; [|done].
  destruct (canHaveDepth (ContentBlock.getType block) && _); [|done].
  by rewrite Hrec.
Qed.

Lemma walk_fields (fuel : nat) :
  (∀ st, processBlock styleToCSS ATTR_NAME_MAP g this1 fuel st
         = processBlock styleToCSS ATTR_NAME_MAP g this2 fuel st)
  ∧ (∀ depth st, processBlocksAtDepth styleToCSS ATTR_NAME_MAP g this1 fuel depth st
                 = processBlocksAtDepth styleToCSS ATTR_NAME_MAP g this2 fuel depth st).
Proof.
  induction fuel as [|fuel [IHblock IHdepth]]; [done |].
  split.
  - intros st. rewrite !processBlock_S. by apply processBlock_body_fields.
  - intros depth st. rewrite !processBlocksAtDepth_S. unfold blocks. rewrite <- Hcontent.
    destruct (contentState this1 !! currentBlock st) as [block|]; [|done].
    destruct (ContentBlock.getDepth block =? depth); [|done].
    rewrite IHblock. apply bind_ext. intros st1. apply IHdepth.
Qed.

Lemma generate_fields :
  generate styleToCSS ATTR_NAME_MAP g this1 = generate styleToCSS ATTR_NAME_MAP g this2.
Proof.
  unfold generate, generate_state, totalBlocks, blocks. rewrite <- Hcontent.
  f_equal. f_equal.
  generalize (2 * length (contentState this1) + 1)%nat initial_state.
  intros fuel. induction fuel as [|fuel IH]; intros st; simpl; [done |].
  unfold totalBlocks, blocks. rewrite <- Hcontent.
  destruct (currentBlock st <? length (contentState this1))%nat; [|done].
  destruct (walk_fields fuel) as [-> _]. by apply bind_ext.
Qed.
End SameFields.

Section NullRenderers.
Context (styleToCSS : StyleDescr → string) (Entity_get : EntityGetter)
        (ATTR_NAME_MAP : gmap string string).

(** X22.  Block renderers that return [null] for the blocks of the
    document change nothing: the result and the module-level tables are
    those of the same call without block renderers. *)
Theorem block_renderers_returning_null_change_nothing g document
    inlineStyles renderers blockStyleFn entityGetter entityFormatterMap
    entityAttributesMap entityAttributesRendererMap :
  (∀ block renderer,
     block ∈ document →
     renderers !! ContentBlock.getType block = Some renderer →
     renderer block = None) →
  stateToHTML styleToCSS Entity_get ATTR_NAME_MAP g document
    (Some (Options.mk inlineStyles (Some renderers) blockStyleFn entityGetter
             entityFormatterMap entityAttributesMap entityAttributesRendererMap))
  = stateToHTML styleToCSS Entity_get ATTR_NAME_MAP g document
      (Some (Options.mk inlineStyles None blockStyleFn entityGetter
               entityFormatterMap entityAttributesMap entityAttributesRendererMap)).
Proof.
  intros Hnull. unfold stateToHTML, constructor. cbn [default Options.inlineStyles
    Options.entityFormatterMap Options.entityAttributesMap
    Options.entityAttributesRendererMap Options.entityGetter].
  destruct (combineOrderedStyles _ _) as [styles order]. f_equal.
  apply generate_fields; try done.
  intros block Hblock. unfold customOutput. simpl.
  destruct (renderers !! ContentBlock.getType block) as [renderer|] eqn:E; [|done].
  simpl. by eapply Hnull.
Qed.
End NullRenderers.

(** ** Indentation *)

Lemma indentation_app out1 out2 s :
  indentation (out1 ++ out2) s = indentation out1 s ≫= indentation out2.
Proof.
  revert s. induction out1 as [|f out1 IH]; intros s; simpl; [done |].
  destruct (indent_step s f) as [s'|]; simpl; [apply IH | done].
Qed.

Lemma indented_push out level fs level' :
  indented out level →
  indentation fs (level, None) = Some (level', None) →
  indented (out ++ fs) level'.
Proof. unfold indented. intros H1 H2. by rewrite indentation_app, H1. Qed.

Lemma closeWrapperTag_indented st st' :
  indented (output st) (indentLevel st) →
  closeWrapperTag st = Ok st' →
  indented (output st') (indentLevel st').
Proof.
  unfold closeWrapperTag. destruct (truthy (wrapperTag st)); [|by intros ? [= <-]].
  intros H (st1 & ->%indent_inv & [= <-])%bind_inv. state_simpl.
  rewrite <- app_assoc. eapply indented_push; [exact H |].
  simpl. by rewrite Z.eqb_refl.
Qed.

Lemma openWrapperTag_indented w st st' :
  indented (output st) (indentLevel st) →
  openWrapperTag w st = Ok st' →
  indented (output st') (indentLevel st').
Proof.
  unfold openWrapperTag.
  intros H (st1 & ->%indent_inv & [= <-])%bind_inv. state_simpl.
  rewrite <- app_assoc. eapply indented_push; [exact H |].
  simpl. by rewrite Z.eqb_refl.
Qed.

Lemma switch_wrapper_indented w st st' :
  indented (output st) (indentLevel st) →
  switch_wrapper w st = Ok st' →
  indented (output st') (indentLevel st').
Proof.
  unfold switch_wrapper. destruct (bool_decide (wrapperTag st ≠ w)); [|by intros ? [= <-]].
  intros H (st1 & H1 & H2)%bind_inv.
  assert (indented (output st1) (indentLevel st1)) as H'.
  { destruct (truthy (wrapperTag st)); [by eapply closeWrapperTag_indented |].
    by injection H1 as <-. }
  destruct (truthy w); [by eapply openWrapperTag_indented |].
  by injection H2 as <-.
Qed.

Section IndentationWalk.
Context (styleToCSS : StyleDescr → string) (ATTR_NAME_MAP : gmap string string).
Context (g : globals) (this : MarkupGenerator).

Local Abbreviation processBlock' := (processBlock styleToCSS ATTR_NAME_MAP g this).
Local Abbreviation processBlocksAtDepth' :=
  (processBlocksAtDepth styleToCSS ATTR_NAME_MAP g this).

Lemma StartTag_indentation (attrString : string) (tags : list string) (depth : Z) :
  indentation ((λ tag, StartTag tag attrString) <$> tags) (depth, None)
  = Some (depth + Z.of_nat (length tags), None).
Proof.
  revert depth. induction tags as [|tag tags IH]; intros depth.
  - simpl. do 2 f_equal. lia.
  - rewrite fmap_cons. cbn [indentation indent_step mbind option_bind].
    rewrite IH. do 2 f_equal. simpl. lia.
Qed.

Lemma start_tags_indentation block level :
  indentation (Indent level :: start_tags styleToCSS ATTR_NAME_MAP this block) (level, None)
  = Some (level + Z.of_nat (length (getTags (ContentBlock.getType block))), None).
Proof.
  unfold start_tags.
  destruct (getTags_cons (ContentBlock.getType block)) as (tag & tags & ->).
  rewrite fmap_cons. cbn [indentation indent_step mbind option_bind].
  rewrite Z.eqb_refl. cbn [mbind option_bind].
  rewrite StartTag_indentation. do 2 f_equal. simpl. lia.
Qed.

Lemma walk_indented (fuel : nat) :
  (∀ st st',
     indented (output st) (indentLevel st) →
     processBlock' fuel st = Ok st' →
     indented (output st') (indentLevel st'))
  ∧ (∀ depth st st',
       indented (output st) (indentLevel st) →
       processBlocksAtDepth' fuel depth st = Ok st' →
       indented (output st') (indentLevel st')).
Proof.
  induction fuel as [|fuel [IHblock IHdepth]]; [done |].
  split.
  - intros st st' Hin.
    rewrite processBlock_S. unfold processBlock_body.
    destruct (blocks this !! currentBlock st) as [block|] eqn:Hblock; [|done].
    fold (switch_wrapper (getWrapperTag (ContentBlock.getType block)) st).
    fold (customOutput this block).
    intros (st1 & Hin1%(switch_wrapper_indented _ _ _ Hin) & Hrest)%bind_inv.
    apply bind_inv in Hrest as (st2 & ->%indent_inv & Hrest).
    destruct (customOutput this block) as [html|].
    + injection Hrest as <-. state_simpl. rewrite <- !app_assoc.
      eapply indented_push; [exact Hin1 |]. simpl. by rewrite Z.eqb_refl.
    + apply bind_inv in Hrest as (content & Hcontent & Hrest).
      apply bind_inv in Hrest as (st5 & Hnest & [= <-]).
      rewrite writeStartTag_eq in Hnest. unfold getNextBlock in Hnest.
      revert Hnest. state_simpl. intros Hnest.
      set (tags := getTags (ContentBlock.getType block)) in *.
      assert (Hin4 : indented (((output st1 ++ [Indent (indentLevel st1)])
                                ++ start_tags styleToCSS ATTR_NAME_MAP this block)
                               ++ [Content content])
                       (indentLevel st1 + Z.of_nat (length tags))).
      { rewrite <- !app_assoc. eapply indented_push; [exact Hin1 |].
        change ([Indent (indentLevel st1)] ++ ?l) with (Indent (indentLevel st1) :: l).
        rewrite app_comm_cons, indentation_app, start_tags_indentation. done. }
      assert (Hleaf : ∀ out,
                indented out (indentLevel st1 + Z.of_nat (length tags)) →
                indented (out ++ [EndTags tags]) (indentLevel st1)).
      { intros out Hout. eapply indented_push; [exact Hout |].
        simpl. do 2 f_equal. lia. }
      unfold writeEndTag.
      destruct (blocks this !! (currentBlock st1 + 1)%nat) as [nextBlock|];
        [|injection Hnest as <-; state_simpl; by apply Hleaf].
      destruct (canHaveDepth (ContentBlock.getType block)) eqn:Hdepth;
        [|injection Hnest as <-; state_simpl; by apply Hleaf].
      destruct (ContentBlock.getDepth nextBlock =? JS.add1 (ContentBlock.getDepth block));
        [|injection Hnest as <-; state_simpl; by apply Hleaf].
      cbn [andb] in Hnest.
      apply bind_inv in Hnest as (st6 & Hrun & ->%indent_inv).
      assert (Htags : tags = ["li"]) by by apply canHaveDepth_tags.
      subst tags. rewrite Htags in *.
      apply IHdepth in Hrun.
      * revert Hrun. state_simpl. intros Hrun. rewrite <- app_assoc.
        eapply indented_push; [exact Hrun |]. simpl.
        by rewrite Z.eqb_refl.
      * state_simpl. eapply indented_push; [exact Hin4 |]. done.
  - intros depth st st' Hin. rewrite processBlocksAtDepth_S.
    destruct (blocks this !! currentBlock st) as [block|];
      [|by apply closeWrapperTag_indented].
    destruct (ContentBlock.getDepth block =? depth); [|by apply closeWrapperTag_indented].
    intros (st1 & H1 & H2)%bind_inv.
    eapply IHdepth; [|exact H2]. by eapply IHblock.
Qed.

Lemma generate_state_indented st :
  generate_state styleToCSS ATTR_NAME_MAP g this = Ok st →
  indented (output st) (indentLevel st).
Proof.
  unfold generate_state. intros (st1 & Hloop & Hclose)%bind_inv.
  eapply closeWrapperTag_indented; [|exact Hclose].
  revert Hloop. generalize (2 * totalBlocks this + 1)%nat.
  assert (Hin : indented (output initial_state) (indentLevel initial_state)) by done.
  revert Hin. generalize initial_state. intros st0 Hin fuel. revert st0 Hin.
  induction fuel as [|fuel IH]; intros st0 Hin; [done |]. simpl.
  destruct (currentBlock st0 <? totalBlocks this)%nat; [|by intros [= <-]].
  intros (st2 & H1 & H2)%bind_inv.
  eapply IH; [|exact H2]. destruct (walk_indented fuel) as [Hwalk _]. by eapply Hwalk.
Qed.
End IndentationWalk.

Section IndentedDocuments.
Context (styleToCSS : StyleDescr → string) (Entity_get : EntityGetter)
        (ATTR_NAME_MAP : gmap string string).

(** X23.  For every content state and options, every line of the output
    of [generate] is indented by its depth: an indentation is followed by a
    start tag or custom markup and has the number of tags open around it as
    its level, or by an end tag and has the number of tags open once it is
    closed; no tag is open at the end. *)
Theorem lines_indented_by_depth g document options :
  let gen := constructor Entity_get g document options in
  ∃ st, generate_state styleToCSS ATTR_NAME_MAP gen.1 gen.2 = Ok st
        ∧ indented (output st) 0.
Proof.
  intros gen.
  pose proof (constructor_ok Entity_get g document options) as Hok. fold gen in Hok.
  destruct (generate_loop_spec styleToCSS ATTR_NAME_MAP gen.1 gen.2 true
              (2 * totalBlocks gen.2 + 1) initial_state Hok (initial_state_inv true))
    as [_ (st & Hloop & Hinv)]; [simpl; lia | simpl; lia |].
  destruct (closeWrapperTag_spec true [] 0 st Hinv) as (st' & Hclose & _ & Hi & _).
  assert (Hgen : generate_state styleToCSS ATTR_NAME_MAP gen.1 gen.2 = Ok st')
    by (unfold generate_state; by rewrite Hloop).
  exists st'. split; [done |].
  rewrite <- Hi. by eapply generate_state_indented.
Qed.

End IndentedDocuments.

(** ** Examples *)

(** An image entity under the key 1. *)
Lemma image_range_ignores_its_text_witness :
  let Entity_get := registry "image" [("src", Some "x.png")] in
  let this := (constructor Entity_get initial_globals [] None).2 in
  ∃ attrString, ∀ stylePieces,
    renderEntityPiece no_css ∅ initial_globals this BLOCK_TYPE.ATOMIC
      (Some "1", stylePieces)
    = Ok (Some ("<img" +:+ attrString +:+ "/>")).
Proof.
  intros Entity_get this.
  exact (image_range_ignores_its_text no_css ∅ initial_globals this BLOCK_TYPE.ATOMIC
           (Some "1") (EntityInstance.mk "image" [("src", Some "x.png")])
           (constructor_ok Entity_get initial_globals [] None) eq_refl eq_refl).
Defined.

(** An entity of the type [default] with a [data-] key, under the key 1. *)
Lemma default_formatter_drops_attributes_witness :
  let Entity_get := registry "default" [("data-x", Some "1")] in
  let this := (constructor Entity_get initial_globals [] None).2 in
  renderEntityPiece no_css ∅ initial_globals this BLOCK_TYPE.UNSTYLED
    (Some "1", [("x", [])])
  = Ok (Some "<span$attrString}>x</span>").
Proof.
  intros Entity_get this.
  exact (default_formatter_drops_attributes no_css ∅ initial_globals this
           BLOCK_TYPE.UNSTYLED (Some "1")
           (EntityInstance.mk "default" [("data-x", Some "1")]) [("x", [])]
           (constructor_ok Entity_get initial_globals [] None) eq_refl eq_refl).
Defined.

(** An empty unordered list in the initial state. *)
Lemma wrapper_open_close_round_trip_witness :
  (st1 ←' openWrapperTag "ul" initial_state; closeWrapperTag st1)
  = Ok (mkState [Indent 0; WrapperStart "ul"; Indent 0; WrapperEnd "ul"] 0 0 None).
Proof.
  apply (wrapper_open_close_round_trip "ul" initial_state); [done | simpl; lia].
Defined.

(** A heading and a paragraph. *)
Lemma blocks_without_wrapper_one_per_line_witness :
  let doc := [plain_block BLOCK_TYPE.HEADER_ONE "Title" 0;
              plain_block BLOCK_TYPE.UNSTYLED "a<b" 0] in
  let gen := constructor (registry "LINK" []) initial_globals doc None in
  generate no_css ∅ gen.1 gen.2 = Ok ("<h1>Title</h1>" +:+ nl +:+ "<p>a&lt;b</p>").
Proof.
  intros doc gen.
  apply (blocks_without_wrapper_one_per_line no_css ∅ gen.1 gen.2 ["Title"; "a&lt;b"]).
  - intros block Hblock. change (block ∈ doc) in Hblock. subst doc.
    rewrite !elem_of_cons, elem_of_nil in Hblock.
    destruct Hblock as [-> | [-> | []]]; split; reflexivity.
  - reflexivity.
Defined.

(** Two unordered list items of the depths 0 and 2. *)
Lemma list_items_one_per_line_witness :
  let doc := [plain_block BLOCK_TYPE.UNORDERED_LIST_ITEM "a" 0;
              plain_block BLOCK_TYPE.UNORDERED_LIST_ITEM "b" 2] in
  let gen := constructor (registry "LINK" []) initial_globals doc None in
  generate no_css ∅ gen.1 gen.2
  = Ok ("<ul>" +:+ nl +:+ "  <li>a</li>" +:+ nl +:+ "  <li>b</li>" +:+ nl +:+ "</ul>").
Proof.
  intros doc gen.
  apply (list_items_one_per_line no_css ∅ gen.1 gen.2 "ul" ["a"; "b"]).
  - done.
  - intros block Hblock. change (block ∈ doc) in Hblock. subst doc.
    rewrite !elem_of_cons, elem_of_nil in Hblock.
    destruct Hblock as [-> | [-> | []]]; split; reflexivity.
  - intros [|[|i]] block nextBlock; simpl; intros [= <-]; [intros [= <-]; vm_compute; discriminate | done..].
  - reflexivity.
Defined.

(** A paragraph and a renderer for paragraphs that returns [null]. *)
Lemma block_renderers_returning_null_change_nothing_witness :
  let doc := [plain_block BLOCK_TYPE.UNSTYLED "a" 0] in
  let renderers : gmap string BlockRenderer := {[BLOCK_TYPE.UNSTYLED := λ _, None]} in
  stateToHTML no_css (registry "LINK" []) ∅ initial_globals doc
    (Some (Options.mk None (Some renderers) None None None None None))
  = stateToHTML no_css (registry "LINK" []) ∅ initial_globals doc
      (Some (Options.mk None None None None None None None)).
Proof.
  intros doc renderers.
  apply (block_renderers_returning_null_change_nothing no_css (registry "LINK" []) ∅
           initial_globals doc None renderers None None None None None).
  intros block renderer _ Hrenderer. subst renderers.
  apply lookup_singleton_Some in Hrenderer as [_ <-]. reflexivity.
Defined.

(** ** The calls of [processBlock] *)

Section CallFacts.
Context (styleToCSS : StyleDescr → string) (ATTR_NAME_MAP : gmap string string).
Context (g : globals) (this : MarkupGenerator).
Hypothesis Hok : generator_ok this.

Local Abbreviation processBlock' := (processBlock styleToCSS ATTR_NAME_MAP g this).
Local Abbreviation processBlocksAtDepth' :=
  (processBlocksAtDepth styleToCSS ATTR_NAME_MAP g this).
Local Abbreviation nested_call' := (nested_call styleToCSS ATTR_NAME_MAP g this).
Local Abbreviation processBlock_calls' :=
  (processBlock_calls styleToCSS ATTR_NAME_MAP g this).
Local Abbreviation processBlocksAtDepth_calls' :=
  (processBlocksAtDepth_calls styleToCSS ATTR_NAME_MAP g this).

(** [nested_call] is the call that the body of [processBlock] makes. *)
Lemma processBlock_body_nested_call rec st :
  match nested_call' st with
  | Ok (Some (depth, st5)) =>
      ∃ block w,
        blocks this !! currentBlock st = Some block
        ∧ processBlock_body styleToCSS ATTR_NAME_MAP g this rec st
          = (st6 ←' rec depth st5;
             let st6 := set_wrapperTag w st6 in
             let st6 := set_indentLevel (indentLevel st6 - 1) st6 in
             st7 ←' indent st6;
             Ok (writeEndTag block st7))
  | Ok None =>
      ∀ rec', processBlock_body styleToCSS ATTR_NAME_MAP g this rec st
              = processBlock_body styleToCSS ATTR_NAME_MAP g this rec' st
  | Throw e => processBlock_body styleToCSS ATTR_NAME_MAP g this rec st = Throw e
  end.
Proof.
  unfold nested_call, processBlock_body.
  destruct (blocks this !! currentBlock st) as [block|] eqn:Hblock; [|done].
  fold (switch_wrapper (getWrapperTag (ContentBlock.getType block)) st).
  fold (customOutput this block).
  destruct (switch_wrapper _ st) as [st1|]; [|done]. cbn [bind].
  destruct (indent st1) as [st2|]; [|done]. cbn [bind].
  destruct (customOutput this block); [done |].
  destruct (renderBlockContent _ _ _ _ block) as [content|]; [|done]. cbn [bind].
  destruct (getNextBlock this _) as [nextBlock|]; [|done].
  unfold nests.
  destruct (canHaveDepth (ContentBlock.getType block) && _); [|done].
  eexists block, _. split; [done |]. cbn [bind]. by destruct (rec _ _).
Qed.


Lemma nested_call_spec stack base st :
  level_inv false stack base st →
  (currentBlock st < totalBlocks this)%nat →
  ∃ r, nested_call' st = Ok r
       ∧ match r with
         | Some (depth, st5) =>
             ∃ w base',
               level_inv false ((WrapperTag, w) :: stack) base' st5
               ∧ currentBlock st5 = S (currentBlock st)
               ∧ (S (currentBlock st) < totalBlocks this)%nat
         | None => True
         end.
Proof.
  intros Hinv Hcur.
  destruct (lookup_lt_is_Some_2 (blocks this) (currentBlock st)) as [block Hblock];
    [done |].
  unfold nested_call. rewrite Hblock.
  destruct (switch_wrapper_spec false stack base st (ContentBlock.getType block) Hinv)
    as (st1 & -> & Hw1 & Hc1 & Hinv1).
  cbn [bind].
  pose proof Hinv1 as [Hwr1 Hi1 Hb1 Ho1].
  assert (Hi1' : 0 ≤ indentLevel st1) by (rewrite Hi1; case_bool_decide; lia).
  rewrite indent_ok by done. cbn [bind].
  destruct (customOutput this block); [by eexists |].
  destruct (renderBlockContent_total styleToCSS ATTR_NAME_MAP g this block Hok)
    as [content ->].
  cbn [bind]. rewrite writeStartTag_eq. unfold getNextBlock. state_simpl.
  destruct (blocks this !! (currentBlock st1 + 1)%nat) as [nextBlock|] eqn:Hnext;
    [|by eexists].
  apply lookup_lt_Some in Hnext. fold (totalBlocks this) in Hnext.
  unfold nests.
  destruct (canHaveDepth (ContentBlock.getType block)) eqn:Hdepth; [|by eexists].
  destruct (_ =? _); cbn [andb]; [|by eexists].
  eexists. split; [done |].
  rewrite canHaveDepth_wrapper in Hdepth. apply bool_decide_eq_true in Hdepth as [w Hw].
  exists w, (indentLevel st1 + 1).
  split_and!; [|simpl; lia | lia].
  split; state_simpl.
  - auto.
  - simpl. lia.
  - lia.
  - rewrite Hw1, Hw in Ho1. simpl in Ho1.
    rewrite !open_tags_app, Ho1. simpl.
    assert (open_tags false (start_tags styleToCSS ATTR_NAME_MAP this block)
              ((WrapperTag, w) :: stack) = Some ((WrapperTag, w) :: stack)) as ->.
    { unfold start_tags.
      by induction (getTags (ContentBlock.getType block)). }
    done.
Qed.

Lemma processBlock_nested fuel st st' :
  processBlock' (S fuel) st = Ok st' →
  match nested_call' st with
  | Ok (Some (depth, st5)) =>
      ∃ st6, processBlocksAtDepth' fuel depth st5 = Ok st6
             ∧ currentBlock st' = currentBlock st6
  | Ok None => currentBlock st' = S (currentBlock st)
  | Throw _ => False
  end.
Proof.
  rewrite processBlock_S. unfold nested_call, processBlock_body.
  destruct (blocks this !! currentBlock st) as [block|] eqn:Hblock; [|done].
  fold (switch_wrapper (getWrapperTag (ContentBlock.getType block)) st).
  fold (customOutput this block).
  destruct (switch_wrapper _ st) as [st1|] eqn:Hswitch; [|done]. cbn [bind].
  apply switch_wrapper_payload in Hswitch as [_ Hc1].
  destruct (indent st1) as [st2|] eqn:Hindent; [|done]. cbn [bind].
  apply indent_inv in Hindent as ->.
  destruct (customOutput this block).
  { intros [= <-]. state_simpl. lia. }
  destruct (renderBlockContent _ _ _ _ block) as [content|]; [|done]. cbn [bind].
  rewrite writeStartTag_eq. unfold getNextBlock, writeEndTag. state_simpl.
  destruct (blocks this !! (currentBlock st1 + 1)%nat) as [nextBlock|];
    [|intros [= <-]; state_simpl; lia].
  unfold nests.
  destruct (canHaveDepth (ContentBlock.getType block) && _);
    [|intros [= <-]; state_simpl; lia].
  intros (st7 & (st6 & Hrun & ->%indent_inv)%bind_inv & [= <-])%bind_inv.
  exists st6. split; [exact Hrun | done].
Qed.

Lemma processBlock_calls_S fuel level st :
  processBlock_calls' (S fuel) level st
  = (level, st)
    :: match nested_call' st with
       | Ok (Some (depth, st')) => processBlocksAtDepth_calls' fuel (S level) depth st'
       | _ => []
       end.
Proof. reflexivity. Qed.

Lemma processBlocksAtDepth_calls_S fuel level depth st :
  processBlocksAtDepth_calls' (S fuel) level depth st
  = match blocks this !! currentBlock st with
    | Some block =>
        if ContentBlock.getDepth block =? depth then
          processBlock_calls' fuel level st
          ++ match processBlock' fuel st with
             | Ok st' => processBlocksAtDepth_calls' fuel level depth st'
             | Throw _ => []
             end
        else []
    | None => []
    end.
Proof. reflexivity. Qed.

(** With enough fuel, the calls made from a call of [processBlock] and
    from a call of [processBlocksAtDepth] are one for each block consumed, in
    the order of the blocks, and in the state of each of them the wrapper
    tags open are that of the field and one for each enclosing call. *)
Lemma calls_spec (fuel : nat) :
  (∀ level stack base st st',
     level_inv false stack base st → length stack = level →
     (currentBlock st < totalBlocks this)%nat →
     (2 * (totalBlocks this - currentBlock st) ≤ fuel)%nat →
     processBlock' fuel st = Ok st' →
     Forall (λ c, wrappers_open_at c.1 c.2) (processBlock_calls' fuel level st)
     ∧ (λ c, currentBlock c.2) <$> processBlock_calls' fuel level st
       = seq (currentBlock st) (currentBlock st' - currentBlock st))
  ∧ (∀ level stack base depth st st',
       level_inv false stack base st → length stack = level →
       (currentBlock st ≤ totalBlocks this)%nat →
       (2 * (totalBlocks this - currentBlock st) + 1 ≤ fuel)%nat →
       processBlocksAtDepth' fuel depth st = Ok st' →
       Forall (λ c, wrappers_open_at c.1 c.2) (processBlocksAtDepth_calls' fuel level depth st)
       ∧ (λ c, currentBlock c.2) <$> processBlocksAtDepth_calls' fuel level depth st
         = seq (currentBlock st) (currentBlock st' - currentBlock st)).
Proof.
  induction fuel as [|fuel [IHblock IHdepth]]; [done |].
  split.
  - intros level stack base st st' Hinv Hlevel Hcur Hfuel Hrun.
    assert (Hhere : wrappers_open_at level st).
    { exists stack. split; [done | by destruct Hinv]. }
    destruct (walk_spec styleToCSS ATTR_NAME_MAP g this false Hok (S fuel)) as [Hwalk _].
    destruct (Hwalk stack base st Hinv Hcur Hfuel) as (st'' & Hrun' & _ & Hc').
    rewrite Hrun in Hrun'. injection Hrun' as <-.
    pose proof (processBlock_nested fuel st st' Hrun) as Hnested.
    destruct (nested_call_spec stack base st Hinv Hcur) as (r & Hr & Hspec).
    rewrite processBlock_calls_S. rewrite Hr in *.
    destruct r as [[depth st5]|].
    + destruct Hnested as (st6 & Hrun6 & Hc6).
      destruct Hspec as (w & base' & Hinv5 & Hc5 & Hlt5).
      destruct (IHdepth (S level) ((WrapperTag, w) :: stack) base' depth st5 st6 Hinv5)
        as [Hall Hseq]; [simpl; lia | lia | lia | done |].
      split; [by constructor |].
      rewrite fmap_cons, Hseq. cbn [snd]. rewrite Hc5, <- Hc6.
      replace (currentBlock st' - currentBlock st)%nat
        with (S (currentBlock st' - S (currentBlock st))) by lia.
      done.
    + split; [by repeat constructor |].
      rewrite Hnested. replace (S (currentBlock st) - currentBlock st)%nat with 1%nat by lia.
      done.
  - intros level stack base depth st st' Hinv Hlevel Hcur Hfuel.
    rewrite processBlocksAtDepth_S, processBlocksAtDepth_calls_S.
    assert (Hclose : closeWrapperTag st = Ok st' →
              Forall (λ c : nat * state, wrappers_open_at c.1 c.2) []
              ∧ (λ c : nat * state, currentBlock c.2) <$> []
                = seq (currentBlock st) (currentBlock st' - currentBlock st)).
    { intros [_ ->]%closeWrapperTag_payload. rewrite Nat.sub_diag. done. }
    destruct (blocks this !! currentBlock st) as [block|] eqn:Hblock; [|done].
    destruct (ContentBlock.getDepth block =? depth); [|done].
    apply lookup_lt_Some in Hblock. fold (totalBlocks this) in Hblock.
    intros (st1 & H1 & H2)%bind_inv. rewrite H1.
    destruct (walk_spec styleToCSS ATTR_NAME_MAP g this false Hok fuel) as [Hwalk Hwalk'].
    destruct (Hwalk stack base st Hinv Hblock) as (st1' & H1' & Hinv1 & Hc1); [lia |].
    rewrite H1 in H1'. injection H1' as <-.
    destruct (Hwalk' stack base depth st1 Hinv1) as (st2' & H2' & _ & _ & _ & Hc2);
      [lia | lia |].
    rewrite H2 in H2'. injection H2' as <-.
    destruct (IHblock level stack base st st1 Hinv Hlevel Hblock) as [Hall1 Hseq1];
      [lia | done |].
    destruct (IHdepth level stack base depth st1 st' Hinv1 Hlevel) as [Hall2 Hseq2];
      [lia | lia | done |].
    split; [by apply Forall_app |].
    rewrite fmap_app, Hseq1, Hseq2.
    replace (currentBlock st' - currentBlock st)%nat
      with ((currentBlock st1 - currentBlock st) + (currentBlock st' - currentBlock st1))%nat
      by lia.
    rewrite seq_app. do 2 f_equal. lia.
Qed.

Lemma generate_calls_spec (fuel : nat) (st st' : state) :
  level_inv false [] 0 st →
  (currentBlock st ≤ totalBlocks this)%nat →
  (2 * (totalBlocks this - currentBlock st) + 1 ≤ fuel)%nat →
  generate_loop styleToCSS ATTR_NAME_MAP g this fuel st = Ok st' →
  Forall (λ c, wrappers_open_at c.1 c.2)
    (generate_calls styleToCSS ATTR_NAME_MAP g this fuel st)
  ∧ (λ c, currentBlock c.2) <$> generate_calls styleToCSS ATTR_NAME_MAP g this fuel st
    = seq (currentBlock st) (totalBlocks this - currentBlock st).
Proof.
  revert st. induction fuel as [|fuel IH]; intros st Hinv Hcur Hfuel; [lia |].
  simpl. destruct (Nat.ltb_spec (currentBlock st) (totalBlocks this)) as [Hlt|Hge].
  - intros (st1 & H1 & H2)%bind_inv. rewrite H1.
    destruct (walk_spec styleToCSS ATTR_NAME_MAP g this false Hok fuel) as [Hwalk _].
    destruct (Hwalk [] 0 st Hinv Hlt) as (st1' & H1' & Hinv1 & Hc1); [lia |].
    rewrite H1 in H1'. injection H1' as <-.
    destruct (calls_spec fuel) as [Hcalls _].
    destruct (Hcalls 0%nat [] 0 st st1 Hinv eq_refl Hlt) as [Hall1 Hseq1]; [lia | done |].
    destruct (IH st1 Hinv1) as [Hall2 Hseq2]; [lia | lia | done |].
    split; [by apply Forall_app |].
    rewrite fmap_app, Hseq1, Hseq2.
    replace (totalBlocks this - currentBlock st)%nat
      with ((currentBlock st1 - currentBlock st) + (totalBlocks this - currentBlock st1))%nat
      by lia.
    rewrite seq_app. do 2 f_equal. lia.
  - intros _. replace (totalBlocks this - currentBlock st)%nat with 0%nat by lia. done.
Qed.

End CallFacts.

(** * The claims of the specification *)

Section Claims.
Context (styleToCSS : StyleDescr → string) (Entity_get : EntityGetter)
      (ATTR_NAME_MAP : gmap string string).

Local Abbreviation constructor' := (constructor Entity_get).
Local Abbreviation renderStylePiece' := (renderStylePiece styleToCSS ATTR_NAME_MAP).
Local Abbreviation renderEntityPiece' := (renderEntityPiece styleToCSS ATTR_NAME_MAP).
Local Abbreviation renderBlockContent' := (renderBlockContent styleToCSS ATTR_NAME_MAP).
Local Abbreviation processBlock' := (processBlock styleToCSS ATTR_NAME_MAP).
Local Abbreviation generate_state' := (generate_state styleToCSS ATTR_NAME_MAP).
Local Abbreviation generate' := (generate styleToCSS ATTR_NAME_MAP).
Local Abbreviation stateToHTML' := (stateToHTML styleToCSS Entity_get ATTR_NAME_MAP).

(** C1: what the code does.  A range whose entity has a type without a
    formatter in the entity formatter map is emitted as its style-rendered
    content, without a wrapping element: the guard of line 369 returns
    before the dispatch of lines 376-377 can fall back to the [DEFAULT]
    formatter. *)
Theorem unregistered_entity_type_plain g this blockType entityKey stylePieces entity :
  resolve this entityKey = Some entity →
  ENTITY_FORMATTER_MAP g !! JS.toUpperCase (EntityInstance.getType entity) = None →
  renderEntityPiece' g this blockType (entityKey, stylePieces)
  = (contents ←' mapM (renderStylePiece' this blockType) stylePieces;
     Ok (Some (JS.join "" contents))).
Proof.
  intros Hentity Hformatter. rewrite renderEntityPiece_markup.
  apply bind_ext. intros contents.
  unfold entity_markup. by rewrite Hentity, Hformatter.
Qed.

(** C3, as amended.  For every content state and options, [processBlock]
    is called once for every block, in the order of the document, by the
    loop of [generate] or by [processBlocksAtDepth] inside another call; at
    each of these calls the wrapper tags that the output leaves open are the
    one recorded in the field [wrapperTag], unless the field is [null], and
    under it one wrapper tag for each call of [processBlock] that encloses
    the call, which that call took out of the field before it called
    [processBlocksAtDepth].  At every evaluation of the loop condition of
    [generate], where no call encloses, the tags open are the one of the
    field, or none.  At the return of [generate] the field [wrapperTag] is
    [null] and every emitted wrapper start tag has its matching end tag,
    properly nested. *)
Theorem wrapper_tags_closed g document options :
  let gen := constructor' g document options in
  let calls :=
    generate_calls styleToCSS ATTR_NAME_MAP gen.1 gen.2
      (2 * totalBlocks gen.2 + 1) initial_state in
  (λ c, currentBlock c.2) <$> calls = seq 0 (length document)
  ∧ Forall (λ c, wrappers_open_at c.1 c.2) calls
  ∧ Forall open_wrapper_recorded
      (generate_states styleToCSS ATTR_NAME_MAP gen.1 gen.2
         (2 * totalBlocks gen.2 + 1) initial_state)
  ∧ ∃ st, generate_state' gen.1 gen.2 = Ok st
          ∧ wrapperTag st = None
          ∧ balanced false (output st).
Proof.
  intros gen calls.
  pose proof (constructor_ok Entity_get g document options) as Hok. fold gen in Hok.
  destruct (constructor_fields Entity_get g document options) as [Hblocks _].
  fold gen in Hblocks.
  destruct (generate_loop_spec styleToCSS ATTR_NAME_MAP gen.1 gen.2 false
              (2 * totalBlocks gen.2 + 1) initial_state Hok (initial_state_inv false))
    as [Hstates (st & Hloop & Hinv)]; [simpl; lia | simpl; lia |].
  destruct (generate_calls_spec styleToCSS ATTR_NAME_MAP gen.1 gen.2 Hok
              (2 * totalBlocks gen.2 + 1) initial_state st (initial_state_inv false))
    as [Hall Hseq]; [simpl; lia | simpl; lia | done |].
  split_and!; [|exact Hall| |].
  - subst calls. rewrite Hseq. simpl. rewrite Nat.sub_0_r.
    unfold totalBlocks, blocks. by rewrite Hblocks.
  - eapply Forall_impl; [exact Hstates |].
    intros st' [_ _ _ Hopen]. unfold open_wrapper_recorded.
    by rewrite app_nil_r in Hopen.
  - destruct (closeWrapperTag_spec false [] 0 st Hinv) as (st' & Hclose & Hw & _ & _ & Ho).
    exists st'. unfold generate_state. rewrite Hloop. simpl. done.
Qed.

(** C4.  A document of three unordered list items of depths 0, 1 and 1 is
    rendered, whatever the options for inline styles and entities (no block
    renderer and no block style function being given), as one list whose
    first item contains a list of the second and third items; in the output
    every wrapper tag and every block tag has its end tag, properly
    nested. *)
Theorem nested_list_item_markup g text0 text1 text2 chars0 chars1 chars2
    inlineStyles entityGetter entityFormatterMap entityAttributesMap
    entityAttributesRendererMap :
  let b0 := ContentBlock.mk BLOCK_TYPE.UNORDERED_LIST_ITEM text0 0 chars0 in
  let b1 := ContentBlock.mk BLOCK_TYPE.UNORDERED_LIST_ITEM text1 1 chars1 in
  let b2 := ContentBlock.mk BLOCK_TYPE.UNORDERED_LIST_ITEM text2 1 chars2 in
  let options :=
    Some (Options.mk inlineStyles None None entityGetter entityFormatterMap
            entityAttributesMap entityAttributesRendererMap) in
  let gen := constructor' g [b0; b1; b2] options in
  ∃ c0 c1 c2,
    renderBlockContent' gen.1 gen.2 b0 = Ok c0
    ∧ renderBlockContent' gen.1 gen.2 b1 = Ok c1
    ∧ renderBlockContent' gen.1 gen.2 b2 = Ok c2
    ∧ generate_state' gen.1 gen.2 = Ok (mkState (nested_list_output c0 c1 c2) 3 0 None)
    ∧ balanced true (nested_list_output c0 c1 c2)
    ∧ (stateToHTML' g [b0; b1; b2] options).2 = Ok (nested_list_markup c0 c1 c2).
Proof.
  intros b0 b1 b2 options gen.
  pose proof (constructor_ok Entity_get g [b0; b1; b2] options) as Hok. fold gen in Hok.
  destruct (renderBlockContent_total styleToCSS ATTR_NAME_MAP gen.1 gen.2 b0 Hok) as [c0 H0].
  destruct (renderBlockContent_total styleToCSS ATTR_NAME_MAP gen.1 gen.2 b1 Hok) as [c1 H1].
  destruct (renderBlockContent_total styleToCSS ATTR_NAME_MAP gen.1 gen.2 b2 Hok) as [c2 H2].
  exists c0, c1, c2.
  destruct (constructor_fields Entity_get g [b0; b1; b2] options) as [Hblocks Hoptions].
  fold gen in Hblocks, Hoptions.
  assert (Hstate : generate_state' gen.1 gen.2
                   = Ok (mkState (nested_list_output c0 c1 c2) 3 0 None)).
  { apply (nested_list_walk styleToCSS ATTR_NAME_MAP gen.1 gen.2 b0 b1 b2);
      try done; by rewrite Hoptions. }
  split_and!; [done | done | done | done | apply nested_list_balanced |].
  unfold stateToHTML. change (constructor' g [b0; b1; b2] options) with gen.
  destruct gen as [g' this] eqn:E. simpl in *.
  unfold generate. rewrite Hstate. simpl. f_equal. apply nested_list_string.
Qed.

(** C5.  Under the default configuration a run with the style set
    {bold, italic} is rendered as [<em><strong>text</strong></em>]; for
    every style set the elements nest in the order bold, italic, underline,
    strikethrough, code from the inside out (code being left out in a code
    block), and the result depends on the members of the style set only,
    not on their order. *)
Theorem style_nesting_order g contentState blockType text styleSet :
  let this := (constructor' g contentState None).2 in
  ((∀ s, s ∈ styleSet ↔ s = INLINE_STYLE.BOLD ∨ s = INLINE_STYLE.ITALIC) →
   renderStylePiece' this blockType (text, styleSet)
   = Ok ("<em><strong>" +:+ encodeContent text +:+ "</strong></em>"))
  ∧ renderStylePiece' this blockType (text, styleSet)
    = Ok (wrap_if (bool_decide (INLINE_STYLE.CODE ∈ styleSet)
                   && negb (bool_decide (blockType = BLOCK_TYPE.CODE))) "code"
         (wrap_if (bool_decide (INLINE_STYLE.STRIKETHROUGH ∈ styleSet)) "del"
         (wrap_if (bool_decide (INLINE_STYLE.UNDERLINE ∈ styleSet)) "ins"
         (wrap_if (bool_decide (INLINE_STYLE.ITALIC ∈ styleSet)) "em"
         (wrap_if (bool_decide (INLINE_STYLE.BOLD ∈ styleSet)) "strong"
            (encodeContent text))))))
  ∧ (∀ styleSet', (∀ s, s ∈ styleSet ↔ s ∈ styleSet') →
       renderStylePiece' this blockType (text, styleSet')
       = renderStylePiece' this blockType (text, styleSet)).
Proof.
  intros this.
  assert (Hnest := renderStylePiece_default styleToCSS ATTR_NAME_MAP this blockType text
                     styleSet eq_refl eq_refl).
  split_and!; [|exact Hnest|].
  - intros Hset. rewrite Hnest.
    rewrite (bool_decide_eq_true_2 (INLINE_STYLE.BOLD ∈ styleSet)) by (apply Hset; auto).
    rewrite (bool_decide_eq_true_2 (INLINE_STYLE.ITALIC ∈ styleSet)) by (apply Hset; auto).
    rewrite (bool_decide_eq_false_2 (INLINE_STYLE.UNDERLINE ∈ styleSet))
      by (intros [?|?]%Hset; done).
    rewrite (bool_decide_eq_false_2 (INLINE_STYLE.STRIKETHROUGH ∈ styleSet))
      by (intros [?|?]%Hset; done).
    rewrite (bool_decide_eq_false_2 (INLINE_STYLE.CODE ∈ styleSet))
      by (intros [?|?]%Hset; done).
    unfold wrap_if. cbn [andb]. rewrite !append_assoc. reflexivity.
  - intros styleSet' Hsame. symmetry. by apply renderStylePiece_members.
Qed.
(** C6.  Under the default configuration the text [click] carrying a link
    entity with the data [{url: "https://x"}] is rendered as
    [<a href="https://x">click</a>]; the default attribute resolution
    writes the [url] data of a link to [href], and with the built-in tables
    writes every data key matching [data-*] to the attribute of that
    name. *)
Theorem link_markup contentState key entityType blockType depth :
  key ≠ "" →
  JS.toUpperCase entityType = ENTITY_TYPE.LINK →
  Entity_get key = Some (EntityInstance.mk entityType [("url", Some "https://x")]) →
  let gen := constructor' initial_globals contentState None in
  renderBlockContent' gen.1 gen.2
    (ContentBlock.mk blockType "click" depth
       (replicate 5 (CharacterMetadata.mk [] (Some key))))
  = Ok ("<a href=" +:+ quote +:+ "https://x" +:+ quote +:+ ">click</a>")
  ∧ (∀ entity,
       Obj.get "href" (DATA_TO_ATTR_DEFAULT (ENTITY_ATTR_MAP initial_globals)
                         ENTITY_TYPE.LINK entity)
       = Obj.get "url" (EntityInstance.getData entity))
  ∧ (∀ anyType entity dataKey,
       DATA_ATTRIBUTE_test dataKey = true →
       Obj.get dataKey (DATA_TO_ATTR_DEFAULT (ENTITY_ATTR_MAP initial_globals)
                          anyType entity)
       = Obj.get dataKey (EntityInstance.getData entity)).
Proof.
  intros Hkey Htype Hget gen. split_and!.
  - unfold renderBlockContent.
    cbn [ContentBlock.getText ContentBlock.getType ContentBlock.getCharacterList].
    rewrite decide_False by done.
    change (preserveWhitespace "click") with "click".
    assert (getEntityRanges "click" (replicate 5 (CharacterMetadata.mk [] (Some key)))
            = [(Some key, [("click", [])])]) as ->.
    { unfold getEntityRanges. simpl. unfold same_key.
      rewrite !bool_decide_eq_true_2 by done. reflexivity. }
    cbn [mapM]. rewrite renderEntityPiece_markup. cbn [mapM].
    rewrite renderStylePiece_default by done. cbn [bind].
    unfold entity_markup, resolve.
    assert (truthy (Some key) = true) as -> by by destruct key.
    change (entityGetter gen.2 (default "" (Some key))) with (Entity_get key).
    rewrite Hget. cbn [EntityInstance.getType EntityInstance.getData].
    rewrite Htype. vm_compute. reflexivity.
  - intros entity. apply DATA_TO_ATTR_get. intros k. apply link_href_target.
  - intros anyType entity dataKey Htest. apply DATA_TO_ATTR_get.
    intros k. by apply data_attribute_target.
Qed.

(** C7.  [preserveWhitespace] keeps the length of the text and replaces by
    the non-breaking space exactly the spaces that are the first character,
    the last character, or preceded by a space; every other character is
    kept.  In ["a  b"] the second space is replaced and the first is kept; a
    single leading or trailing space is replaced; the replaced spaces are
    rendered as [&nbsp;]. *)
Theorem preserveWhitespace_spec :
  (∀ text, String.length (preserveWhitespace text) = String.length text)
  ∧ (∀ text i c,
       String.get i text = Some c →
       (boundary_or_repeated_space text i →
        String.get i (preserveWhitespace text) = Some JS.nbsp)
       ∧ (¬ boundary_or_repeated_space text i →
          String.get i (preserveWhitespace text) = Some c))
  ∧ preserveWhitespace "a  b" = "a " +:+ String JS.nbsp "b"
  ∧ preserveWhitespace " a" = String JS.nbsp "a"
  ∧ preserveWhitespace "a " = "a" +:+ String JS.nbsp ""
  ∧ (stateToHTML' initial_globals [plain_block BLOCK_TYPE.UNSTYLED "a  b" 0] None).2
    = Ok "<p>a &nbsp;b</p>"
  ∧ (stateToHTML' initial_globals [plain_block BLOCK_TYPE.UNSTYLED " a " 0] None).2
    = Ok "<p>&nbsp;a&nbsp;</p>".
Proof.
  split_and!; [apply preserveWhitespace_length | | reflexivity..].
  intros text i c Hc. rewrite (preserveWhitespace_get text i c Hc).
  unfold preserved_char, boundary_or_repeated_space. rewrite Hc.
  split.
  - intros [[= ->] Hwhere]. rewrite bool_decide_eq_true_2 by done.
    destruct Hwhere as [-> | [Hlast | (j & -> & Hj)]].
    + done.
    + rewrite (bool_decide_eq_true_2 (S i = String.length text)) by done.
      by rewrite orb_true_r.
    + rewrite (bool_decide_eq_true_2 (String.get j text = Some JS.space)) by done.
      by rewrite orb_true_r.
  - intros Hnot. case_bool_decide as Hspace; [|done]. subst c.
    destruct (bool_decide (i = 0%nat) || bool_decide (S i = String.length text)
              || match i with
                 | O => false
                 | S j => bool_decide (String.get j text = Some JS.space)
                 end) eqn:E; [|done].
    exfalso. apply Hnot. split; [done |].
    apply orb_true_iff in E as [E|E]; [apply orb_true_iff in E as [E|E] |].
    + left. by apply bool_decide_eq_true in E.
    + right; left. by apply bool_decide_eq_true in E.
    + destruct i as [|j]; [done |]. right; right. exists j.
      by apply bool_decide_eq_true in E.
Qed.


(** C9.  The content of a block with the empty text is the line break
    [<br>].  For every content state and options [generate] returns (the
    callbacks of the options being functions, which return), and for every
    block of the document with the empty text that no custom renderer
    handles, the output holds, after the contents of the blocks before it,
    the start tags of the block, then that line break, then the end tags,
    with nothing else between them unless the next block is nested in the
    block (a list item one level deeper), which then comes after the line
    break.  An empty paragraph is rendered as [<p><br></p>], and an
    empty list item that contains an empty list item is rendered with a
    line break in each. *)
Theorem empty_block_break g document options :
  let gen := constructor' g document options in
  (∀ block, ContentBlock.getText block = "" →
     renderBlockContent' gen.1 gen.2 block = Ok BREAK)
  ∧ (∃ st, generate_state' gen.1 gen.2 = Ok st
       ∧ ∀ i block,
           document !! i = Some block →
           ContentBlock.getText block = "" →
           customOutput gen.2 block = None →
           ∃ pre nested post,
             output st
             = pre ++ start_tags styleToCSS ATTR_NAME_MAP gen.2 block
               ++ [Content BREAK] ++ nested
               ++ [EndTags (getTags (ContentBlock.getType block))] ++ post
             ∧ length (omap payload pre) = i
             ∧ (nests block (document !! S i) = false → nested = []))
  ∧ (stateToHTML' initial_globals
       [plain_block BLOCK_TYPE.UNSTYLED "" 0] None).2 = Ok "<p><br></p>"
  ∧ (stateToHTML' initial_globals
       [plain_block BLOCK_TYPE.UNORDERED_LIST_ITEM "" 0;
        plain_block BLOCK_TYPE.UNORDERED_LIST_ITEM "" 1] None).2
    = Ok ("<ul>" +:+ nl +:+ "  <li><br>" +:+ nl +:+ "    <ul>" +:+ nl
          +:+ "      <li><br></li>" +:+ nl +:+ "    </ul>" +:+ nl +:+ "  </li>" +:+ nl
          +:+ "</ul>").
Proof.
  intros gen.
  assert (Hbreak : ∀ block, ContentBlock.getText block = "" →
            renderBlockContent' gen.1 gen.2 block = Ok BREAK).
  { intros block Htext. unfold renderBlockContent. by rewrite Htext. }
  split_and!; [exact Hbreak | | reflexivity | reflexivity].
  pose proof (constructor_ok Entity_get g document options) as Hok. fold gen in Hok.
  destruct (constructor_fields Entity_get g document options) as [Hblocks _].
  fold gen in Hblocks.
  destruct (generate_loop_spec styleToCSS ATTR_NAME_MAP gen.1 gen.2 false
              (2 * totalBlocks gen.2 + 1) initial_state Hok (initial_state_inv false))
    as [_ (st & Hloop & Hinv)]; [simpl; lia | simpl; lia |].
  destruct (closeWrapperTag_spec false [] 0 st Hinv) as (st' & Hclose & _).
  exists st'. unfold generate_state. rewrite Hloop. cbn [bind].
  split; [done |].
  intros i block Hblock Htext Hcustom.
  destruct (generate_loop_elements styleToCSS ATTR_NAME_MAP gen.1 gen.2 _ _ _ Hloop)
    as [_ Helements].
  change (blocks gen.2) with (contentState gen.2) in Helements.
  rewrite Hblocks in Helements.
  destruct (Helements i block (Nat.le_0_l i) Hblock Hcustom)
    as (content & pre & nested & post & Hcontent & Hout & Hpre & Hnested).
  rewrite (Hbreak block Htext) in Hcontent. injection Hcontent as <-.
  apply closeWrapperTag_output in Hclose as [suffix Hsuffix].
  exists pre, nested, (post ++ suffix).
  change (blocks gen.2) with (contentState gen.2) in Hnested. rewrite Hblocks in Hnested.
  split_and!; [|simpl in Hpre; lia|done].
  change (output initial_state) with (@nil fragment) in Hout. rewrite app_nil_l in Hout.
  rewrite Hsuffix, Hout. by rewrite <- !app_assoc.
Qed.

(** C10, as amended.  [renderEntityPiece] never takes the branch that
    reads the [DEFAULT] formatter: a range without entity, or whose entity
    type is not a key of the formatter map, is its plain style-rendered
    content, and a range whose type is a key is formatted by the entry of
    that type.  The [DEFAULT] entry is therefore called only for an entity
    whose type in upper case is the string [DEFAULT]: for a range of any
    other entity, the markup is the same whatever the [DEFAULT] entry of
    the table; and when no entity that a character of the document refers
    to has that type, the call with the [DEFAULT] formatter set in the
    options and the call with the options as they are give the same
    result. *)
Theorem default_formatter_only_for_DEFAULT g this f :
  (∀ blockType entityKey stylePieces,
     renderEntityPiece' g this blockType (entityKey, stylePieces)
     = (contents ←' mapM (renderStylePiece' this blockType) stylePieces;
        entity_markup g this entityKey (JS.join "" contents)))
  ∧ (∀ blockType entityKey stylePieces,
       (JS.toUpperCase ∘ EntityInstance.getType) <$> resolve this entityKey
       ≠ Some "DEFAULT" →
       renderEntityPiece' (override_default f g) this blockType (entityKey, stylePieces)
       = renderEntityPiece' g this blockType (entityKey, stylePieces))
  ∧ (∀ document options,
       (∀ block meta key entity,
          block ∈ document →
          meta ∈ ContentBlock.getCharacterList block →
          CharacterMetadata.getEntity meta = Some key →
          entityGetter (constructor' g document options).2 key = Some entity →
          JS.toUpperCase (EntityInstance.getType entity) ≠ "DEFAULT") →
       (stateToHTML' g document (Some (with_default_formatter f options))).2
       = (stateToHTML' g document options).2).
Proof.
  assert (Hpiece : ∀ g this blockType entityKey stylePieces,
            (JS.toUpperCase ∘ EntityInstance.getType) <$> resolve this entityKey
            ≠ Some "DEFAULT" →
            renderEntityPiece' (override_default f g) this blockType (entityKey, stylePieces)
            = renderEntityPiece' g this blockType (entityKey, stylePieces)).
  { intros g' this' blockType entityKey stylePieces Hty.
    rewrite !renderEntityPiece_markup. apply bind_ext. intros contents.
    by apply entity_markup_override. }
  split_and!; [apply renderEntityPiece_markup | apply Hpiece |].
  clear this. intros document options Hnone.
  unfold stateToHTML, constructor, with_default_formatter in *.
  cbn [default Options.inlineStyles Options.entityFormatterMap Options.entityAttributesMap
       Options.entityAttributesRendererMap Options.entityGetter] in *.
  destruct (combineOrderedStyles _ _) as [styles order]. cbn [snd] in *.
  set (o := default Options.empty options) in *.
  set (this2 := mkGenerator document o _ _ styles order) in *.
  assert (Hg : ∀ attrMaps,
            mkGlobals (assign (ENTITY_FORMATTER_MAP g)
                         (<["DEFAULT" := f]> (default ∅ (Options.entityFormatterMap o))))
              attrMaps
            = override_default f
                (mkGlobals match Options.entityFormatterMap o with
                           | Some m => assign (ENTITY_FORMATTER_MAP g) m
                           | None => ENTITY_FORMATTER_MAP g
                           end attrMaps)).
  { intros attrMaps. unfold override_default, assign.
    cbn [ENTITY_FORMATTER_MAP ENTITY_ATTR_MAP]. f_equal.
    rewrite insert_union_singleton_l, <- (assoc_L (∪)). f_equal.
    destruct (Options.entityFormatterMap o); simpl;
      [done | by rewrite (left_id_L ∅ (∪))]. }
  rewrite Hg.
  apply generate_ext; [done | done | done |].
  intros block Hblock. unfold blocks in Hblock. cbn [contentState] in Hblock.
  unfold renderBlockContent.
  destruct (decide (ContentBlock.getText block = "")); [done |].
  f_equal. apply mapM_ext_in. intros [entityKey stylePieces] Hpiece'.
  match goal with
  | |- renderEntityPiece' ?g1 _ _ _ = _ =>
      transitivity (renderEntityPiece' g1 this2 (ContentBlock.getType block)
                      (entityKey, stylePieces)); [reflexivity |]
  end.
  apply Hpiece. unfold resolve.
  destruct (truthy entityKey) eqn:Htruthy; [|done].
  destruct entityKey as [key|]; [|done]. cbn [default]. unfold id.
  destruct (entityGetter this2 key) as [entity|] eqn:Hentity; [|done].
  simpl. intros [= Hty].
  destruct (getEntityRanges_key _ _ _ _ key Hpiece' eq_refl) as (meta & Hmeta & Hkey).
  by apply (Hnone block meta key entity).
Qed.
End Claims.

(** C1: the code does not do what the claim states.  An entity of the
    type [MENTION], for which no formatter is registered, leaves the text of
    its range as it is. *)
Lemma unregistered_entity_type_not_wrapped : ¬ unregistered_type_gets_span.
Proof.
  intros H.
  destruct (H initial_globals
              (constructor (registry "MENTION" []) initial_globals [] None).2
              BLOCK_TYPE.UNSTYLED (Some "1") [("x", [])]
              (EntityInstance.mk "MENTION" []) eq_refl eq_refl)
    as (attrString & content & Heq).
  vm_compute in Heq. discriminate.
Qed.

(** An entity of the type [MENTION] on the text [x]. *)
Lemma unregistered_entity_type_plain_witness :
  let this := (constructor (registry "MENTION" []) initial_globals [] None).2 in
  renderEntityPiece no_css ∅ initial_globals this BLOCK_TYPE.UNSTYLED
    (Some "1", [("x", [])])
  = Ok (Some "x").
Proof.
  intros this.
  exact (unregistered_entity_type_plain no_css ∅ initial_globals this BLOCK_TYPE.UNSTYLED
           (Some "1") [("x", [])] (EntityInstance.mk "MENTION" []) eq_refl eq_refl).
Defined.

(** C2: what the code does.  The constructor merges the option
    [entityFormatterMap] into the module-level table itself: after a first
    call with a formatter for links, a second call without options uses
    that formatter, and does not give the output it gives alone. *)
Theorem constructor_mutates_shared_tables :
  let Entity_get := registry "LINK" [("url", Some "https://x")] in
  let doc := [uniform_block BLOCK_TYPE.UNSTYLED "click" [] (Some "1")] in
  let first :=
    stateToHTML no_css Entity_get ∅ initial_globals doc
      (Some (formatter_options {[ENTITY_TYPE.LINK := bracket_formatter]})) in
  let second := stateToHTML no_css Entity_get ∅ first.1 doc None in
  let alone := stateToHTML no_css Entity_get ∅ initial_globals doc None in
  ENTITY_FORMATTER_MAP initial_globals !! ENTITY_TYPE.LINK = Some link_formatter
  ∧ ENTITY_FORMATTER_MAP first.1 !! ENTITY_TYPE.LINK = Some bracket_formatter
  ∧ alone.2 = Ok ("<p><a href=" +:+ quote +:+ "https://x" +:+ quote +:+ ">click</a></p>")
  ∧ second.2 = Ok "<p>[click]</p>".
Proof. vm_compute. split_and!; reflexivity. Qed.

(** C3, as stated, fails: in a list of three items of the depths 0, 1 and
    1, when [processBlock] is called for the third item the output leaves
    two wrapper tags open, the list and the list nested in its first item,
    and the field [wrapperTag] holds one. *)
Lemma nested_list_opens_two_wrappers : ¬ open_wrapper_always_recorded.
Proof.
  intros H.
  specialize (H (registry "LINK" [])
                [plain_block BLOCK_TYPE.UNORDERED_LIST_ITEM "a" 0;
                 plain_block BLOCK_TYPE.UNORDERED_LIST_ITEM "b" 1;
                 plain_block BLOCK_TYPE.UNORDERED_LIST_ITEM "c" 1] None).
  eapply (Forall_lookup_1 _ _ 2%nat) in H; [|vm_compute; reflexivity].
  vm_compute in H. discriminate.
Qed.

(** Between two calls of [processBlock] the field and the output need not
    agree: [openWrapperTag] sets the field (line 311) before it writes the
    indentation and the start tag (lines 312-313).  For a document that
    starts with a list item, the first statements of [processBlock] call
    [openWrapperTag] in the initial state, and in the state in which
    [openWrapperTag] calls [indent] the field holds the tag and the output
    has no tag open. *)
Lemma wrapper_recorded_before_written :
  let st := set_wrapperTag (Some "ul") initial_state in
  switch_wrapper (getWrapperTag BLOCK_TYPE.UNORDERED_LIST_ITEM) initial_state
  = openWrapperTag "ul" initial_state
  ∧ openWrapperTag "ul" initial_state
    = (st' ←' indent st;
       let st' := push (WrapperStart "ul") st' in
       Ok (set_indentLevel (indentLevel st' + 1) st'))
  ∧ ¬ wrappers_open_at 0 st.
Proof.
  split_and!; [reflexivity | reflexivity |].
  intros (enclosing & Hlength & Hopen).
  destruct enclosing; [discriminate Hopen | discriminate Hlength].
Qed.

(** C10, as stated, fails: for an entity of the type [default] the
    [DEFAULT] entry is the formatter of the type, and overriding it changes
    the output. *)
Lemma default_formatter_invoked : ¬ default_formatter_never_affects_output.
Proof.
  intros H.
  specialize (H (registry "default" []) [uniform_block BLOCK_TYPE.UNSTYLED "x" [] (Some "1")]
                bracket_formatter).
  vm_compute in H. discriminate.
Qed.

(** The style set {italic, bold}, in this order. *)
Lemma style_nesting_order_witness :
  renderStylePiece no_css ∅ (constructor (registry "LINK" []) initial_globals [] None).2
    BLOCK_TYPE.UNSTYLED ("text", [INLINE_STYLE.ITALIC; INLINE_STYLE.BOLD])
  = Ok "<em><strong>text</strong></em>".
Proof.
  apply (proj1 (style_nesting_order no_css (registry "LINK" []) ∅ initial_globals []
                  BLOCK_TYPE.UNSTYLED "text" [INLINE_STYLE.ITALIC; INLINE_STYLE.BOLD])).
  intros s. rewrite !elem_of_cons, elem_of_nil. tauto.
Defined.

(** A link entity of the type [link] under the key ["1"]. *)
Lemma link_markup_witness :
  let Entity_get := registry "link" [("url", Some "https://x")] in
  let gen := constructor Entity_get initial_globals [] None in
  renderBlockContent no_css ∅ gen.1 gen.2
    (ContentBlock.mk BLOCK_TYPE.UNSTYLED "click" 0
       (replicate 5 (CharacterMetadata.mk [] (Some "1"))))
  = Ok ("<a href=" +:+ quote +:+ "https://x" +:+ quote +:+ ">click</a>").
Proof.
  refine (proj1 (link_markup no_css (registry "link" [("url", Some "https://x")]) ∅
                   [] "1" "link" BLOCK_TYPE.UNSTYLED 0 _ _ _));
    [done | reflexivity | reflexivity].
Defined.

(** The second of the two spaces of ["a  b"]. *)
Lemma preserveWhitespace_spec_witness :
  boundary_or_repeated_space "a  b" 2
  ∧ String.get 2 (preserveWhitespace "a  b") = Some JS.nbsp.
Proof.
  assert (H : boundary_or_repeated_space "a  b" 2).
  { split; [reflexivity |]. right; right. exists 1%nat. split; reflexivity. }
  split; [exact H |].
  exact (proj1 (proj1 (proj2 (preserveWhitespace_spec no_css (registry "LINK" []) ∅))
                  "a  b" 2%nat " "%char eq_refl) H).
Defined.

(** A document with a link, and a registry that also holds an entity of
    the type [default], to which no character of the document refers. *)
Lemma default_formatter_only_for_DEFAULT_witness :
  let Entity_get := λ key : string,
    if decide (key = "1") then Some (EntityInstance.mk "LINK" [("url", Some "https://x")])
    else Some (EntityInstance.mk "default" []) in
  let doc := [uniform_block BLOCK_TYPE.UNSTYLED "click" [] (Some "1")] in
  (stateToHTML no_css Entity_get ∅ initial_globals doc
     (Some (formatter_options {["DEFAULT" := bracket_formatter]}))).2
  = (stateToHTML no_css Entity_get ∅ initial_globals doc None).2.
Proof.
  intros Entity_get doc.
  apply (proj2 (proj2 (default_formatter_only_for_DEFAULT no_css Entity_get ∅ initial_globals
                         (constructor Entity_get initial_globals [] None).2
                         bracket_formatter)) doc None).
  intros block meta key entity Hblock Hmeta Hkey.
  apply list_elem_of_singleton in Hblock as ->.
  apply elem_of_replicate in Hmeta as [-> _]. injection Hkey as <-.
  intros [= <-]. vm_compute. discriminate.
Defined.
